(** * pyflwdir core: upstream / downstream functionality on sparse indices

    A shallow embedding of [pyflwdir/core.py].  One-dimensional numpy
    arrays are lists, the two-dimensional upstream table is a list of
    rows, unsigned machine integers are [Z] with their wrap-around written
    out, and whatever ends a call without a result is the left summand of
    [result]. *)

From Stdlib Require Floats.
From Stdlib Require Import String Reals.
From Stdlib Require Import ZArith List Lia Bool Permutation Sorted.
Import ListNotations.
Local Open Scope Z_scope.

(** ** Exceptions and the error monad *)

(** [ValueError], with its message, and [ZeroDivisionError] are the
    exceptions that the functions raise.  The other two are no exceptions.
    [OutOfBounds] marks an access outside an array: the functions are
    compiled with [@njit], which leaves the bounds of an index unchecked,
    so that the compiled code reads or writes outside the array there and
    the source does not say what comes of it.  The model gives no result
    for such a call; what is proved of a returned result is proved of
    calls whose indices all stay inside their arrays.  [OutOfFuel] marks
    that the iteration bound given to the model of a [while True] loop was
    used up. *)
Inductive exn : Set :=
| ValueError (msg : string)
| OutOfBounds
| ZeroDivisionError
| OutOfFuel.

Definition result (A : Type) : Type := (exn + A)%type.

Definition ret {A} (a : A) : result A := inr a.
Definition raise {A} (e : exn) : result A := inl e.
Arguments ret {A} a /.
Arguments raise {A} e /.

Definition bind {A B} (m : result A) (k : A -> result B) : result B :=
  match m with
  | inl e => inl e
  | inr a => k a
  end.

Notation "x <- m ;; k" := (bind m (fun x => k))
  (at level 61, m at next level, right associativity).

(** [for x in xs: s = body s x] *)
Fixpoint foldM {S A} (body : S -> A -> result S) (xs : list A) (s : S)
  : result S :=
  match xs with
  | [] => ret s
  | x :: xs' => s' <- body s x ;; foldM body xs' s'
  end.

Fixpoint mapM {A B} (f : A -> result B) (xs : list A) : result (list B) :=
  match xs with
  | [] => ret []
  | x :: xs' => y <- f x ;; ys <- mapM f xs' ;; ret (y :: ys)
  end.

(** ** Machine integers *)

Definition u8 (z : Z) : Z := z mod 2 ^ 8.
Definition u32 (z : Z) : Z := z mod 2 ^ 32.
Definition i64 (z : Z) : Z := (z + 2 ^ 63) mod 2 ^ 64 - 2 ^ 63.

(** [_mv = np.uint32(-1)] *)
Definition _mv : Z := u32 (-1).

(** ** Arrays *)

Definition size {A} (a : list A) : Z := Z.of_nat (length a).

(** [range(n)] *)
Definition range (n : nat) : list Z := map Z.of_nat (seq 0 n).

(** Position addressed by index [i] in an array of [n] elements: negative
    indices count from the end, and anything else lies outside the
    array. *)
Definition norm_index (n i : Z) : result nat :=
  if (0 <=? i) && (i <? n) then ret (Z.to_nat i)
  else if (- n <=? i) && (i <? 0) then ret (Z.to_nat (i + n))
  else raise OutOfBounds.

(** [a[i]] *)
Definition getitem {A} (a : list A) (i : Z) : result A :=
  k <- norm_index (size a) i ;;
  match nth_error a k with
  | Some x => ret x
  | None => raise OutOfBounds
  end.

Fixpoint upd {A} (a : list A) (k : nat) (x : A) : list A :=
  match a, k with
  | [], _ => []
  | _ :: a', O => x :: a'
  | y :: a', S k' => y :: upd a' k' x
  end.

(** [a[i] = x] *)
Definition setitem {A} (a : list A) (i : Z) (x : A) : result (list A) :=
  k <- norm_index (size a) i ;; ret (upd a k x).

(** [a[i][k] = x] for a two-dimensional array [a] with rows of [d]
    elements, stored row after row, and an unsigned [k].  [a[i]] is a view
    of row [i], and [k] is not checked against the width of that view: the
    store goes to element [i * d + k] of the buffer, which for [k >= d] is
    an element of a later row, and lies outside the array past the last
    row. *)
Definition setitem_row {A} (a : list (list A)) (d i k : Z) (x : A)
  : result (list (list A)) :=
  r <- norm_index (size a) i ;;
  let pos := Z.of_nat r * d + k in
  if (0 <=? k) && (pos <? size a * d) then
    row <- getitem a (pos / d) ;;
    row' <- setitem row (pos mod d) x ;;
    setitem a (pos / d) row'
  else raise OutOfBounds.

(** [a[idxs]] for an index array [idxs] *)
Definition take {A} (a : list A) (idxs : list Z) : result (list A) :=
  mapM (getitem a) idxs.

(** [a[idxs] = vals] for an array [vals] with one value per index:
    element-wise, in order, so that the last write to a repeated index
    stays.  Every assignment of the module passes as many values as
    indices; another number of values is numpy's shape mismatch. *)
Fixpoint put {A} (a : list A) (idxs : list Z) (vals : list A)
  : result (list A) :=
  match idxs, vals with
  | [], [] => ret a
  | i :: idxs', v :: vals' => a' <- setitem a i v ;; put a' idxs' vals'
  | _, _ => raise (ValueError "shape mismatch")
  end.

(** [a[idxs] = x] for a scalar [x] *)
Definition fill {A} (a : list A) (idxs : list Z) (x : A) : result (list A) :=
  foldM (fun a i => setitem a i x) idxs a.

(** [np.max(a)]; an empty array has no maximum. *)
Definition np_max (a : list Z) : result Z :=
  match a with
  | [] => raise (ValueError "zero-size array to reduction operation")
  | x :: a' => ret (fold_left Z.max a' x)
  end.

(** [np.full(n, x)] *)
Definition np_full {A} (n : Z) (x : A) : result (list A) :=
  if n <? 0 then raise (ValueError "negative dimensions are not allowed")
  else ret (repeat x (Z.to_nat n)).

(** A two-dimensional array: its shape and its elements in row-major
    order. *)
Record ndarray2 (A : Type) : Type :=
  { nd_shape : Z * Z; nd_flat : list A }.
Arguments nd_shape {A} _.
Arguments nd_flat {A} _.

(** [a.reshape(shape)] for a one-dimensional [a] of [shape[0] * shape[1]]
    elements. *)
Definition reshape {A} (a : list A) (shape : Z * Z) : result (ndarray2 A) :=
  if (fst shape <? 0) || (snd shape <? 0)
  then raise (ValueError "negative dimensions are not allowed")
  else ret {| nd_shape := shape; nd_flat := a |}.

(** [np.where(mask)[0]] *)
Definition where_ (mask : list bool) : list Z :=
  map fst (filter snd (combine (range (length mask)) mask)).

(** ** Adjacency builder *)

(** [n_upstream]: number of upstream cells per cell, in a [uint8] array. *)
Definition n_upstream_body (idxs_ds : list Z) (n_up : list Z) (i : Z)
  : result (list Z) :=
  i_ds <- getitem idxs_ds i ;;
  if negb (i =? i_ds) then
    c <- getitem n_up i_ds ;;
    setitem n_up i_ds (u8 (c + 1))
  else ret n_up.

Definition n_upstream (idxs_ds : list Z) : result (list Z) :=
  let n := length idxs_ds in
  foldM (n_upstream_body idxs_ds) (range n) (repeat 0 n).

(** [_idxs_us]: the 2D table of upstream cell indices, [d] columns wide.
    The slot [ii] of the store [idxs_us[i_ds][ii] = i] is the [uint8]
    counter of the row. *)
Definition _idxs_us_body (idxs_ds : list Z) (d : Z)
  (st : list (list Z) * list Z) (i : Z) : result (list (list Z) * list Z) :=
  let '(idxs_us, n_up) := st in
  i_ds <- getitem idxs_ds i ;;
  if i_ds =? i then ret st
  else
    ii <- getitem n_up i_ds ;;
    idxs_us' <- setitem_row idxs_us d i_ds ii (u32 i) ;;
    c <- getitem n_up i_ds ;;
    n_up' <- setitem n_up i_ds (u8 (c + 1)) ;;
    ret (idxs_us', n_up').

Definition _idxs_us (idxs_ds : list Z) : result (list (list Z)) :=
  n_up <- n_upstream idxs_ds ;;
  d <- np_max n_up ;;
  let n := length idxs_ds in
  let idxs_us := repeat (repeat _mv (Z.to_nat d)) n in
  let n_up := map (fun _ => u8 0) n_up in
  st <- foldM (_idxs_us_body idxs_ds d) (range n) (idxs_us, n_up) ;;
  ret (fst st).

(** ** Upstream / downstream functions *)

(** [x != _mv]: an entry of the upstream table that is a cell. *)
Definition nonmv (x : Z) : bool := negb (x =? _mv).

(** [upstream]: the rows of the cells [idx0], flattened, without the
    sentinel. *)
Definition upstream (idx0 : list Z) (idxs_us : list (list Z))
  : result (list Z) :=
  rows <- take idxs_us idx0 ;;
  ret (filter nonmv (concat rows)).

(** [network_tree]: the loop runs at most [fuel] times. *)
Fixpoint network_tree_loop (fuel : nat) (idxs : list Z)
  (idxs_us : list (list Z)) (tree : list (list Z)) : result (list (list Z)) :=
  match fuel with
  | O => raise OutOfFuel
  | S fuel' =>
      idxs_us0 <- upstream idxs idxs_us ;;
      if size idxs_us0 =? 0 then ret tree
      else network_tree_loop fuel' idxs_us0 idxs_us (tree ++ [idxs_us0])
  end.

Definition network_tree (fuel : nat) (idxs_pits : list Z)
  (idxs_us : list (list Z)) : result (list (list Z)) :=
  network_tree_loop fuel idxs_pits idxs_us [idxs_pits].

(** [pit_indices]: cells whose downstream cell is the cell itself. *)
Definition pit_indices_body (idxs_ds : list Z) (idx_lst : list Z) (idx0 : Z)
  : result (list Z) :=
  x <- getitem idxs_ds idx0 ;;
  if idx0 =? x then ret (idx_lst ++ [idx0]) else ret idx_lst.

Definition pit_indices (idxs_ds : list Z) : result (list Z) :=
  idx_lst <- foldM (pit_indices_body idxs_ds) (range (length idxs_ds)) [] ;;
  ret (map u32 idx_lst).

(** [loop_indices] *)
Fixpoint loop_indices_loop (fuel : nat) (idxs_ds0 : list Z)
  (idxs_us : list (list Z)) (no_loop : list bool) : result (list bool) :=
  match fuel with
  | O => raise OutOfFuel
  | S fuel' =>
      idxs_us0 <- upstream idxs_ds0 idxs_us ;;
      if size idxs_us0 =? 0 then ret no_loop
      else
        old <- take no_loop idxs_us0 ;;
        no_loop' <- put no_loop idxs_us0 (map negb old) ;;
        loop_indices_loop fuel' idxs_us0 idxs_us no_loop'
  end.

Definition loop_indices (fuel : nat) (idxs_ds : list Z)
  (idxs_us : list (list Z)) : result (list Z) :=
  let no_loop := map (fun x => x =? _mv) idxs_ds in
  idxs_ds0 <- pit_indices idxs_ds ;;
  no_loop <- (if 0 <? size idxs_ds0 then fill no_loop idxs_ds0 true
              else ret no_loop) ;;
  no_loop <- loop_indices_loop fuel idxs_ds0 idxs_us no_loop ;;
  ret (where_ (map negb no_loop)).

(** [_main_upstream]: the scan of one row.  The weights are of any type
    [W] with its comparison [geb], which is [>=]. *)
Fixpoint _main_upstream_scan {W} (geb : W -> W -> bool) (row : list Z)
  (uparea_sparse : list W) (idx_us0 : Z) (upa0 : W) : result Z :=
  match row with
  | [] => ret idx_us0
  | idx_us :: row' =>
      if idx_us =? _mv then ret idx_us0
      else
        upa <- getitem uparea_sparse idx_us ;;
        if geb upa upa0
        then _main_upstream_scan geb row' uparea_sparse idx_us upa
        else _main_upstream_scan geb row' uparea_sparse idx_us0 upa0
  end.

Definition _main_upstream {W} (geb : W -> W -> bool) (idx0 : Z)
  (idxs_us : list (list Z)) (uparea_sparse : list W) (upa_min : W)
  : result Z :=
  row <- getitem idxs_us idx0 ;;
  _main_upstream_scan geb row uparea_sparse _mv upa_min.

(** [main_upstream] *)
Definition main_upstream {W} (geb : W -> W -> bool) (idxs : list Z)
  (idxs_us : list (list Z)) (uparea_sparse : list W) (upa_min : W)
  : result (list Z) :=
  if negb (size idxs_us =? size uparea_sparse)
  then raise (ValueError "uparea_sparse has invalid size")
  else mapM (fun i => _main_upstream geb i idxs_us uparea_sparse upa_min) idxs.

(** [downstream] *)
Definition downstream (idx0 : Z) (idxs_ds : list Z) : result Z :=
  getitem idxs_ds idx0.

(** [downstream_path]: the loop runs at most [fuel] times. *)
Fixpoint downstream_path_loop (fuel : nat) (idx0 : Z) (idxs_ds : list Z)
  (idxs : list Z) : result (list Z) :=
  match fuel with
  | O => raise OutOfFuel
  | S fuel' =>
      idx_ds <- getitem idxs_ds idx0 ;;
      if idx0 =? idx_ds then ret idxs
      else downstream_path_loop fuel' idx_ds idxs_ds (idxs ++ [u32 idx_ds])
  end.

Definition downstream_path (fuel : nat) (idx0 : Z) (idxs_ds : list Z)
  : result (list Z) :=
  idxs <- downstream_path_loop fuel idx0 idxs_ds [idx0] ;;
  ret (map u32 idxs).

(** [math.hypot] on real numbers. *)
Definition hypot (x y : R) : R := sqrt (x * x + y * y).

(** [downstream_length].  The affine transform is the tuple of its
    coefficients; [degree_metres_y] and [degree_metres_x] are the two
    functions of [gis_utils] the geographic branch calls. *)
Definition downstream_length (degree_metres_y degree_metres_x : R -> R)
  (idx0 : Z) (idxs_ds idxs_dense : list Z) (ncol : Z) (latlon : bool)
  (affine : list R) : result (Z * R) :=
  xres <- getitem affine 0 ;;
  yres <- getitem affine 4 ;;
  north <- getitem affine 5 ;;
  idx1 <- downstream idx0 idxs_ds ;;
  idx <- getitem idxs_dense idx0 ;;
  idx_ds <- getitem idxs_dense idx1 ;;
  if ncol =? 0 then raise ZeroDivisionError
  else
    let r := idx_ds / ncol in
    let dr := idx / ncol - r in
    let dc := idx mod ncol - idx_ds mod ncol in
    let '(dy, dx) :=
      if latlon then
        let lat := (north + (IZR r + 0.5) * yres)%R in
        ((if dr =? 0 then 0 else degree_metres_y lat * yres)%R,
         (if dc =? 0 then 0 else degree_metres_x lat * xres)%R)
      else (xres, yres) in
    ret (idx1, hypot (dy * IZR dr) (dx * IZR dc)).

(** [_sparse_idx] *)
Definition _sparse_idx (idxs idxs_dense : list Z) (size_ : Z)
  : result (list Z) :=
  if existsb (fun i => i <? 0) idxs || existsb (fun i => size_ <=? i) idxs
  then raise (ValueError "Index out of bounds")
  else
    idxs_sparse <- np_full size_ _mv ;;
    idxs_sparse <- put idxs_sparse idxs_dense
                     (map u32 (range (length idxs_dense))) ;;
    take idxs_sparse idxs.

(** [_densify].  The values are of the element type [A] of [data], the
    fill value [nodata] is of a type [B] of its own (a Python integer by
    default), and [np.full(..., nodata, dtype=data.dtype)] stores it
    converted to the element type: [astype] is that conversion, such as
    [u8] into [uint8] data or [i64] into [int64] data. *)
Definition _densify {A B} (astype : B -> A) (data : list A)
  (idxs_dense : list Z) (shape : Z * Z) (nodata : B) : result (ndarray2 A) :=
  if negb (size idxs_dense =? size data)
  then raise (ValueError "data has invalid size")
  else
    data_out <- np_full (fst shape * snd shape) (astype nodata) ;;
    data_out <- put data_out idxs_dense data ;;
    reshape data_out shape.

(** [idxs_no_upstream]: the cells whose row starts with the sentinel.  The
    column [idxs_us[:, 0]] is read row by row; a table without rows has no
    recorded width here and yields the empty column, and a table without
    columns has no element to read. *)
Definition idxs_no_upstream (idxs_us : list (list Z)) : result (list Z) :=
  col <- mapM (fun row => getitem row 0) idxs_us ;;
  ret (where_ (map (fun x => x =? _mv) col)).

(** [_downstream_mask]: the loop runs at most [fuel] times. *)
Fixpoint _downstream_mask_loop (fuel : nat) (idx0 : Z) (idxs_ds : list Z)
  (mask_sparse : list bool) (at_stream : bool) : result Z :=
  if at_stream then ret idx0
  else
    match fuel with
    | O => raise OutOfFuel
    | S fuel' =>
        idx_ds <- getitem idxs_ds idx0 ;;
        if idx_ds =? idx0 then ret idx0
        else
          at_stream' <- getitem mask_sparse idx_ds ;;
          _downstream_mask_loop fuel' idx_ds idxs_ds mask_sparse at_stream'
    end.

Definition _downstream_mask (fuel : nat) (idx0 : Z) (idxs_ds : list Z)
  (mask_sparse : list bool) : result Z :=
  at_stream <- getitem mask_sparse idx0 ;;
  _downstream_mask_loop fuel idx0 idxs_ds mask_sparse at_stream.

(** [downstream_mask] *)
Definition downstream_mask (fuel : nat) (idxs0 : list Z) (idxs_ds : list Z)
  (mask_sparse : list bool) : result (list Z) :=
  mapM (fun i => r <- _downstream_mask fuel (u32 i) idxs_ds mask_sparse ;;
                 ret (u32 r)) idxs0.

(** [flwdir_window]: the downstream half. *)
Fixpoint flwdir_window_ds (steps : list Z) (n idx0 : Z) (idxs_ds idxs : list Z)
  : result (list Z) :=
  match steps with
  | [] => ret idxs
  | i :: steps' =>
      idx_ds <- getitem idxs_ds idx0 ;;
      if idx_ds =? idx0 then ret idxs
      else
        idxs' <- setitem idxs (n + i + 1) (u32 idx_ds) ;;
        flwdir_window_ds steps' n idx_ds idxs_ds idxs'
  end.

(** [flwdir_window]: the upstream half. *)
Fixpoint flwdir_window_us {W} (geb : W -> W -> bool) (steps : list Z)
  (n idx0 : Z) (idxs_us : list (list Z)) (uparea_sparse : list W)
  (upa_min : W) (idxs : list Z) : result (list Z) :=
  match steps with
  | [] => ret idxs
  | i :: steps' =>
      idx_us <- _main_upstream geb idx0 idxs_us uparea_sparse upa_min ;;
      if idx_us =? _mv then ret idxs
      else
        idxs' <- setitem idxs (n - i - 1) (u32 idx_us) ;;
        flwdir_window_us geb steps' n idx_us idxs_us uparea_sparse upa_min idxs'
  end.

Definition flwdir_window {W} (geb : W -> W -> bool) (idx0 n : Z)
  (idxs_ds : list Z) (idxs_us : list (list Z)) (uparea_sparse : list W)
  (upa_min : W) : result (list Z) :=
  idxs <- np_full (n * 2 + 1) _mv ;;
  idxs <- setitem idxs n (u32 idx0) ;;
  idxs <- flwdir_window_ds (range (Z.to_nat n)) n idx0 idxs_ds idxs ;;
  idx0 <- getitem idxs n ;;
  flwdir_window_us geb (range (Z.to_nat n)) n idx0 idxs_us uparea_sparse
    upa_min idxs.

(** ** Vocabulary of the statements *)

(** The downstream cell of cell [i]. *)
Definition ds_at (idxs_ds : list Z) (i : Z) : Z := nth (Z.to_nat i) idxs_ds i.

(** Cell [i] is not a pit and its downstream cell is [j]. *)
Definition flows_to (idxs_ds : list Z) (j i : Z) : bool :=
  negb (ds_at idxs_ds i =? i) && (ds_at idxs_ds i =? j).

(** The upstream neighbours of [j] among the first [m] cells, ascending. *)
Definition ups_upto (idxs_ds : list Z) (m : nat) (j : Z) : list Z :=
  filter (flows_to idxs_ds j) (range m).

Definition ups (idxs_ds : list Z) (j : Z) : list Z :=
  ups_upto idxs_ds (length idxs_ds) j.

(** In-degree (fan-in) of cell [j]. *)
Definition indeg (idxs_ds : list Z) (j : Z) : Z := size (ups idxs_ds j).

(** Every downstream index is the sparse index of a cell. *)
Definition in_range_ds (idxs_ds : list Z) : bool :=
  forallb (fun x => (0 <=? x) && (x <? size idxs_ds)) idxs_ds.

(** Largest in-degree over all cells. *)
Definition max_indeg (idxs_ds : list Z) : Z :=
  fold_left Z.max (map (indeg idxs_ds) (range (length idxs_ds))) 0.

(** A downstream array the adjacency builder accepts: at least one and at
    most [_mv] cells, every target a cell, fan-in below 256. *)
Definition valid_ds (idxs_ds : list Z) : bool :=
  (0 <? size idxs_ds) && (size idxs_ds <=? _mv) && in_range_ds idxs_ds
  && (max_indeg idxs_ds <? 256).

(** Row [j] of a table of width [d] once the first [m] cells are placed. *)
Definition us_row (idxs_ds : list Z) (d m : nat) (j : Z) : list Z :=
  ups_upto idxs_ds m j ++ repeat _mv (d - length (ups_upto idxs_ds m j)).

Definition us_table (idxs_ds : list Z) (d : nat) : list (list Z) :=
  map (us_row idxs_ds d (length idxs_ds)) (range (length idxs_ds)).

(** A row is left-packed: behind its first sentinel there are only
    sentinels. *)
Fixpoint left_packed (row : list Z) : bool :=
  match row with
  | [] => true
  | x :: row' =>
      if x =? _mv then forallb (fun y => y =? _mv) row' else left_packed row'
  end.

(** Row [j] of the upstream table and the cells it lists. *)
Definition row_of (idxs_us : list (list Z)) (j : Z) : list Z :=
  nth (Z.to_nat j) idxs_us [].

Definition us_cells (idxs_us : list (list Z)) (j : Z) : list Z :=
  filter nonmv (row_of idxs_us j).

(** The table is the inverse of the downstream array: it has a row per
    cell, and row [j] lists, once each, the cells other than [j] whose
    downstream cell is [j].  Cells are numbered below the sentinel. *)
Definition consistent (idxs_ds : list Z) (idxs_us : list (list Z)) : Prop :=
  length idxs_us = length idxs_ds /\
  size idxs_ds <= _mv /\
  forall j, 0 <= j < size idxs_ds ->
    NoDup (us_cells idxs_us j) /\
    forall i, In i (us_cells idxs_us j) <->
              0 <= i < size idxs_ds /\ flows_to idxs_ds j i = true.

(** The pits, ascending. *)
Definition pits (idxs_ds : list Z) : list Z :=
  filter (fun i => ds_at idxs_ds i =? i) (range (length idxs_ds)).

(** Level [k] of the breadth-first expansion from the pits along the
    upstream table. *)
Fixpoint level (idxs_ds : list Z) (idxs_us : list (list Z)) (k : nat)
  : list Z :=
  match k with
  | O => pits idxs_ds
  | S k' => flat_map (us_cells idxs_us) (level idxs_ds idxs_us k')
  end.

(** The cells of the levels below [k]. *)
Definition all_levels (idxs_ds : list Z) (idxs_us : list (list Z)) (k : nat)
  : list Z :=
  flat_map (level idxs_ds idxs_us) (seq 0 k).

(** Cell [i] reaches a pit after exactly [k] downstream hops. *)
Fixpoint at_depth (idxs_ds : list Z) (k : nat) (i : Z) : bool :=
  (0 <=? i) && (i <? size idxs_ds) &&
  match k with
  | O => ds_at idxs_ds i =? i
  | S k' =>
      negb (ds_at idxs_ds i =? i) && at_depth idxs_ds k' (ds_at idxs_ds i)
  end.

(** Cell [i] is marked by the expansion from the pits along the table. *)
Inductive marked (idxs_ds : list Z) (idxs_us : list (list Z)) : Z -> Prop :=
| marked_pit i : In i (pits idxs_ds) -> marked idxs_ds idxs_us i
| marked_up j i :
    marked idxs_ds idxs_us j -> In i (us_cells idxs_us j) ->
    marked idxs_ds idxs_us i.

(** [i in idxs] *)
Definition mem (i : Z) (idxs : list Z) : bool := existsb (Z.eqb i) idxs.

(** The reachability flags once the levels below [k] are marked. *)
Definition flags (idxs_ds : list Z) (idxs_us : list (list Z)) (k : nat)
  : list bool :=
  map (fun i => (ds_at idxs_ds i =? _mv) || mem i (all_levels idxs_ds idxs_us k))
      (range (length idxs_ds)).

(** The loop set as the specification describes it: the cells never
    marked, together with the cells whose downstream target is the
    sentinel. *)
Definition loops_as_specified (idxs_ds : list Z) (idxs_us : list (list Z))
  (loops : list Z) : Prop :=
  forall i, 0 <= i < size idxs_ds ->
    (In i loops <-> ~ marked idxs_ds idxs_us i \/ ds_at idxs_ds i = _mv).

(** Every element is an unsigned 32-bit integer. *)
Definition u32_array (a : list Z) : bool :=
  forallb (fun x => (0 <=? x) && (x <? 2 ^ 32)) a.

(** The cell reached from [i] by [k] single-hop downstream lookups. *)
Fixpoint hops (idxs_ds : list Z) (k : nat) (i : Z) : result Z :=
  match k with
  | O => ret i
  | S k' => j <- downstream i idxs_ds ;; hops idxs_ds k' j
  end.

(** [p] is the sequence of cells visited from [i] down to its pit: each
    cell is followed by its downstream cell, and only the last cell
    targets itself. *)
Inductive path_to_pit (idxs_ds : list Z) : Z -> list Z -> Prop :=
| path_pit i :
    downstream i idxs_ds = inr i -> path_to_pit idxs_ds i [i]
| path_hop i j p :
    downstream i idxs_ds = inr j -> j <> i -> path_to_pit idxs_ds j p ->
    path_to_pit idxs_ds i (i :: p).

(** [r] is what the weighted selection owes for a row: the sentinel when
    no cell of the row weighs at least [upa_min]; otherwise a cell of the
    row that weighs at least [upa_min], at least as much as every such cell
    of the row, and strictly more than every cell behind it. *)
Definition selects {W} (geb : W -> W -> bool) (uparea_sparse : list W)
  (upa_min : W) (row : list Z) (r : Z) : Prop :=
  (r = _mv /\
   forall e we, In e row -> e <> _mv -> getitem uparea_sparse e = inr we ->
                geb we upa_min = false) \/
  (r <> _mv /\
   exists wr, getitem uparea_sparse r = inr wr /\ geb wr upa_min = true /\
     (forall e we, In e row -> e <> _mv -> getitem uparea_sparse e = inr we ->
                   geb we upa_min = true -> geb wr we = true) /\
     exists l1 l2, row = l1 ++ r :: l2 /\
       forall e we, In e l2 -> e <> _mv -> getitem uparea_sparse e = inr we ->
                    geb we wr = false).

(** [a >= b] on binary64 floating-point numbers. *)
Definition float_geb (a b : PrimFloat.float) : bool := PrimFloat.leb b a.

(** The value that [a[idxs] = vals] leaves at position [c], if it writes
    there at all: the one of the last write. *)
Fixpoint last_write {B} (c : Z) (idxs : list Z) (vals : list B) : option B :=
  match idxs, vals with
  | i :: idxs', v :: vals' =>
      match last_write c idxs' vals' with
      | Some v' => Some v'
      | None => if c =? i then Some v else None
      end
  | _, _ => None
  end.

(** Modelled from the spec: [gis_utils.IDENTITY], the default affine
    transform, is not part of the sources at hand.  The specification
    lists the coefficients as x-resolution, row-rotation, x-origin,
    column-rotation, y-resolution, y-origin, and asks the identity to have
    unit cell size. *)
Definition IDENTITY : list R := [1; 0; 0; 0; 1; 0]%R.

(** The tree levels and the loop set partition the cells [0 .. n-1]: each
    cell is in the loop set and in no level, or in exactly one level and
    not in the loop set. *)
Definition cells_partitioned (n : nat) (tree : list (list Z)) (loops : list Z)
  : Prop :=
  forall i, 0 <= i < Z.of_nat n ->
    (In i loops /\ forall lvl, In lvl tree -> ~ In i lvl) \/
    (~ In i loops /\
     exists k, In i (nth k tree []) /\
               forall k', In i (nth k' tree []) -> k' = k).

(** The levels [rest] follow the level [idxs] in the tree: each is what
    [upstream] returns for the level before it. *)
Fixpoint linked (idxs_us : list (list Z)) (idxs : list Z)
  (rest : list (list Z)) : Prop :=
  match rest with
  | [] => True
  | next :: rest' =>
      upstream idxs idxs_us = inr next /\ linked idxs_us next rest'
  end.

(** The cells visited by at most [k] downstream hops from [i], the start
    left out, stopping at a pit. *)
Fixpoint ds_walk (idxs_ds : list Z) (k : nat) (i : Z) : list Z :=
  match k with
  | O => []
  | S k' =>
      match downstream i idxs_ds with
      | inr j => if j =? i then [] else j :: ds_walk idxs_ds k' j
      | inl _ => []
      end
  end.

(** [us] lists the cells reached from [c] by at most [k] steps to the main
    upstream cell, nearest first, stopping where there is none. *)
Inductive up_chain {W} (geb : W -> W -> bool) (idxs_us : list (list Z))
  (uparea_sparse : list W) (upa_min : W) : nat -> Z -> list Z -> Prop :=
| up_chain_full c : up_chain geb idxs_us uparea_sparse upa_min O c []
| up_chain_stop k c :
    _main_upstream geb c idxs_us uparea_sparse upa_min = inr _mv ->
    up_chain geb idxs_us uparea_sparse upa_min (S k) c []
| up_chain_step k c u us :
    _main_upstream geb c idxs_us uparea_sparse upa_min = inr u ->
    u <> _mv ->
    up_chain geb idxs_us uparea_sparse upa_min k u us ->
    up_chain geb idxs_us uparea_sparse upa_min (S k) c (u :: us).

(** The rows of the builder's table hold the cells that flow into them:
    for every cell [i] that is not a pit, the row of its downstream cell
    contains [i]. *)
Definition rows_as_specified (idxs_ds : list Z) : Prop :=
  exists idxs_us,
    _idxs_us idxs_ds = inr idxs_us /\
    forall i i_ds, 0 <= i -> getitem idxs_ds i = inr i_ds -> i_ds <> i ->
      exists row, getitem idxs_us i_ds = inr row /\ In i row.

(** The sum of the elements of an array of integers. *)
Definition total (a : list Z) : Z := fold_right Z.add 0 a.

(** * Properties *)

(** ** Arrays *)

Lemma bind_inr {A B} (m : result A) (k : A -> result B) (b : B) :
  bind m k = inr b -> exists a, m = inr a /\ k a = inr b.
Proof. destruct m as [e|a]; simpl; [discriminate | eauto]. Qed.

Ltac inv_bind H :=
  let a := fresh "a" in
  let Ha := fresh "E" in
  apply bind_inr in H; destruct H as (a & Ha & H).

Lemma mv_eq : _mv = 4294967295.
Proof. reflexivity. Qed.

Lemma size_nonneg {A} (a : list A) : 0 <= size a.
Proof. unfold size; lia. Qed.

Lemma norm_index_nat (n : Z) (k : nat) :
  Z.of_nat k < n -> norm_index n (Z.of_nat k) = inr k.
Proof.
  intros H. unfold norm_index.
  replace (0 <=? Z.of_nat k) with true by (symmetry; apply Z.leb_le; lia).
  replace (Z.of_nat k <? n) with true by (symmetry; apply Z.ltb_lt; lia).
  simpl. now rewrite Nat2Z.id.
Qed.

Lemma norm_index_nonneg (n i : Z) (k : nat) :
  0 <= i -> norm_index n i = inr k -> i < n /\ k = Z.to_nat i.
Proof.
  intros Hi. unfold norm_index.
  destruct (0 <=? i) eqn:E1; [|apply Z.leb_gt in E1; lia].
  destruct (i <? n) eqn:E2; simpl.
  - apply Z.ltb_lt in E2. intros [= <-]. auto.
  - replace (i <? 0) with false by (symmetry; apply Z.ltb_ge; lia).
    rewrite andb_false_r. discriminate.
Qed.

Lemma norm_index_ge (n i : Z) : n <= i -> 0 <= n -> norm_index n i = inl OutOfBounds.
Proof.
  intros H Hn. unfold norm_index.
  replace (i <? n) with false by (symmetry; apply Z.ltb_ge; lia).
  replace (i <? 0) with false by (symmetry; apply Z.ltb_ge; lia).
  now rewrite !andb_false_r.
Qed.

Lemma getitem_nat {A} (a : list A) (k : nat) (x : A) :
  nth_error a k = Some x -> getitem a (Z.of_nat k) = inr x.
Proof.
  intros H. unfold getitem.
  rewrite norm_index_nat.
  - simpl. now rewrite H.
  - unfold size. assert (k < length a)%nat by (apply nth_error_Some; congruence). lia.
Qed.

Lemma getitem_nonneg {A} (a : list A) (i : Z) (x : A) :
  0 <= i -> getitem a i = inr x ->
  i < size a /\ nth_error a (Z.to_nat i) = Some x.
Proof.
  intros Hi H. unfold getitem in H. inv_bind H.
  apply norm_index_nonneg in E; auto. destruct E as [Hlt ->].
  split; auto. destruct (nth_error a (Z.to_nat i)); [|discriminate].
  now inversion H.
Qed.

Lemma getitem_ge {A} (a : list A) (i : Z) :
  size a <= i -> getitem a i = inl OutOfBounds.
Proof.
  intros H. unfold getitem. rewrite norm_index_ge; auto. apply size_nonneg.
Qed.

Lemma length_upd {A} (a : list A) (k : nat) (x : A) :
  length (upd a k x) = length a.
Proof.
  revert k; induction a as [|y a IH]; intros [|k]; simpl; auto.
Qed.

Lemma nth_error_upd_eq {A} (a : list A) (k : nat) (x : A) :
  (k < length a)%nat -> nth_error (upd a k x) k = Some x.
Proof.
  revert k; induction a as [|y a IH]; intros [|k]; simpl; intros H;
    try lia; auto. apply IH. lia.
Qed.

Lemma nth_error_upd_ne {A} (a : list A) (k j : nat) (x : A) :
  j <> k -> nth_error (upd a k x) j = nth_error a j.
Proof.
  revert k j; induction a as [|y a IH]; intros [|k] [|j]; simpl; intros H;
    auto; try congruence.
Qed.

Lemma setitem_nat {A} (a : list A) (k : nat) (x : A) :
  (k < length a)%nat -> setitem a (Z.of_nat k) x = inr (upd a k x).
Proof.
  intros H. unfold setitem. rewrite norm_index_nat; auto. unfold size. lia.
Qed.

Lemma setitem_nonneg {A} (a a' : list A) (i : Z) (x : A) :
  0 <= i -> setitem a i x = inr a' ->
  i < size a /\ a' = upd a (Z.to_nat i) x.
Proof.
  intros Hi H. unfold setitem in H. inv_bind H.
  apply norm_index_nonneg in E; auto. destruct E as [Hlt ->].
  inversion H. auto.
Qed.

Lemma range_S (n : nat) : range (S n) = range n ++ [Z.of_nat n].
Proof. unfold range. now rewrite seq_S, map_app. Qed.

Lemma length_range (n : nat) : length (range n) = n.
Proof. unfold range. now rewrite length_map, length_seq. Qed.

Lemma in_range (n : nat) (i : Z) : In i (range n) <-> 0 <= i < Z.of_nat n.
Proof.
  unfold range. rewrite in_map_iff. split.
  - intros (k & <- & H). apply in_seq in H. lia.
  - intros H. exists (Z.to_nat i). split; [lia|]. apply in_seq. lia.
Qed.

Lemma NoDup_range (n : nat) : NoDup (range n).
Proof.
  unfold range. apply Finite.Injective_map_NoDup.
  - intros x y. lia.
  - apply seq_NoDup.
Qed.

Lemma nth_error_range (n k : nat) :
  (k < n)%nat -> nth_error (range n) k = Some (Z.of_nat k).
Proof.
  intros H. unfold range. rewrite nth_error_map, nth_error_seq.
  destruct (Nat.ltb_spec k n); [reflexivity | lia].
Qed.

Lemma foldM_app {S A} (body : S -> A -> result S) (xs ys : list A) (s : S) :
  foldM body (xs ++ ys) s = (s' <- foldM body xs s ;; foldM body ys s').
Proof.
  revert s; induction xs as [|x xs IH]; intros s; simpl; auto.
  destruct (body s x); simpl; auto.
Qed.

(** Updating one cell of an array given by a function of the index. *)
Lemma upd_map_range {B} (f : Z -> B) (n k : nat) (v : B) :
  upd (map f (range n)) k v =
  map (fun j => if j =? Z.of_nat k then v else f j) (range n).
Proof.
  apply nth_error_ext. intros j.
  destruct (Nat.ltb_spec k n) as [Hk|Hk]; destruct (Nat.eq_dec j k) as [->|Hj].
  - rewrite nth_error_upd_eq by now rewrite length_map, length_range.
    rewrite nth_error_map, nth_error_range by auto. simpl.
    now rewrite Z.eqb_refl.
  - rewrite nth_error_upd_ne by auto. rewrite !nth_error_map.
    destruct (Nat.ltb_spec j n) as [Hjn|Hjn].
    + rewrite nth_error_range by auto. simpl.
      destruct (Z.eqb_spec (Z.of_nat j) (Z.of_nat k)); [lia | reflexivity].
    + replace (nth_error (range n) j) with (@None Z); auto.
      symmetry. apply nth_error_None. now rewrite length_range.
  - replace (nth_error (upd (map f (range n)) k v) k) with (@None B).
    + symmetry. apply nth_error_None. now rewrite length_map, length_range.
    + symmetry. apply nth_error_None.
      now rewrite length_upd, length_map, length_range.
  - rewrite nth_error_upd_ne by auto. rewrite !nth_error_map.
    destruct (Nat.ltb_spec j n) as [Hjn|Hjn].
    + rewrite nth_error_range by auto. simpl.
      destruct (Z.eqb_spec (Z.of_nat j) (Z.of_nat k)); [lia | reflexivity].
    + replace (nth_error (range n) j) with (@None Z); auto.
      symmetry. apply nth_error_None. now rewrite length_range.
Qed.

Lemma getitem_map_range {B} (f : Z -> B) (n : nat) (i : Z) :
  0 <= i < Z.of_nat n -> getitem (map f (range n)) i = inr (f i).
Proof.
  intros H. replace i with (Z.of_nat (Z.to_nat i)) at 1 by lia.
  apply getitem_nat. rewrite nth_error_map, nth_error_range by lia.
  simpl. f_equal. f_equal. lia.
Qed.

Lemma setitem_map_range {B} (f : Z -> B) (n : nat) (i : Z) (v : B) :
  0 <= i < Z.of_nat n ->
  setitem (map f (range n)) i v =
  inr (map (fun j => if j =? i then v else f j) (range n)).
Proof.
  intros H. replace i with (Z.of_nat (Z.to_nat i)) at 1 by lia.
  rewrite setitem_nat by (rewrite length_map, length_range; lia).
  rewrite upd_map_range. f_equal. apply map_ext. intros j.
  now replace (Z.of_nat (Z.to_nat i)) with i by lia.
Qed.

Lemma bind_ret_r {A} (m : result A) : (x <- m ;; ret x) = m.
Proof. now destruct m. Qed.

Lemma map_const_range {B} (c : B) (n : nat) :
  map (fun _ => c) (range n) = repeat c n.
Proof. now rewrite map_const, length_range. Qed.

(** ** Adjacency builder *)

Lemma in_range_ds_spec (ds : list Z) :
  in_range_ds ds = true <-> Forall (fun x => 0 <= x < size ds) ds.
Proof.
  unfold in_range_ds. rewrite forallb_forall, Forall_forall.
  split; intros H x Hx; specialize (H x Hx).
  - apply andb_true_iff in H. destruct H as [H1 H2].
    apply Z.leb_le in H1. apply Z.ltb_lt in H2. lia.
  - apply andb_true_iff. split; [apply Z.leb_le | apply Z.ltb_lt]; lia.
Qed.

Lemma ds_at_range (ds : list Z) (k : nat) :
  in_range_ds ds = true -> (k < length ds)%nat ->
  0 <= ds_at ds (Z.of_nat k) < size ds.
Proof.
  intros H Hk. apply in_range_ds_spec in H. rewrite Forall_forall in H.
  apply H. unfold ds_at. rewrite Nat2Z.id. now apply nth_In.
Qed.

Lemma getitem_ds (ds : list Z) (k : nat) :
  (k < length ds)%nat -> getitem ds (Z.of_nat k) = inr (ds_at ds (Z.of_nat k)).
Proof.
  intros Hk. apply getitem_nat. unfold ds_at. rewrite Nat2Z.id.
  now apply nth_error_nth'.
Qed.

Lemma ups_upto_S (ds : list Z) (m : nat) (j : Z) :
  ups_upto ds (S m) j =
  ups_upto ds m j ++ (if flows_to ds j (Z.of_nat m) then [Z.of_nat m] else []).
Proof. unfold ups_upto. now rewrite range_S, filter_app. Qed.

Lemma u8_succ (c : Z) : u8 (u8 c + 1) = u8 (c + 1).
Proof. unfold u8. now rewrite Z.add_mod_idemp_l by lia. Qed.

Lemma size_app {A} (a b : list A) : size (a ++ b) = size a + size b.
Proof. unfold size. rewrite length_app. lia. Qed.

(** The counting pass, cell by cell: after [m] cells every counter holds
    the number of upstream neighbours seen so far, modulo 256. *)
Lemma n_upstream_prefix (ds : list Z) (m : nat) :
  in_range_ds ds = true -> (m <= length ds)%nat ->
  foldM (n_upstream_body ds) (range m) (repeat 0 (length ds)) =
  inr (map (fun j => u8 (size (ups_upto ds m j))) (range (length ds))).
Proof.
  intros Hr. induction m as [|m IH]; intros Hm.
  - simpl. f_equal. symmetry.
    exact (map_const_range (u8 0) (length ds)).
  - rewrite range_S, foldM_app, IH by lia. simpl.
    rewrite bind_ret_r. unfold n_upstream_body.
    rewrite getitem_ds by lia. simpl.
    pose proof (ds_at_range ds m Hr ltac:(lia)) as Ht.
    set (t := ds_at ds (Z.of_nat m)) in *.
    destruct (Z.eqb_spec (Z.of_nat m) t) as [E|E]; simpl.
    + f_equal. apply map_ext. intros j. rewrite ups_upto_S.
      unfold flows_to. fold t. rewrite <- E, Z.eqb_refl. simpl.
      now rewrite app_nil_r.
    + rewrite getitem_map_range by (unfold size in Ht; lia). simpl.
      rewrite setitem_map_range by (unfold size in Ht; lia).
      f_equal. apply map_ext. intros j. rewrite ups_upto_S.
      unfold flows_to. fold t.
      destruct (Z.eqb_spec t (Z.of_nat m)); [congruence|]. simpl.
      rewrite (Z.eqb_sym t j).
      destruct (Z.eqb_spec j t) as [->|Hj].
      * rewrite u8_succ, size_app. reflexivity.
      * now rewrite app_nil_r.
Qed.

Lemma n_upstream_spec (ds : list Z) :
  in_range_ds ds = true ->
  n_upstream ds = inr (map (fun j => u8 (indeg ds j)) (range (length ds))).
Proof. intros H. unfold n_upstream. now rewrite n_upstream_prefix. Qed.

Lemma fold_max_ge (l : list Z) (a : Z) :
  a <= fold_left Z.max l a /\ forall x, In x l -> x <= fold_left Z.max l a.
Proof.
  revert a; induction l as [|y l IH]; intros a; simpl.
  - split; [lia | tauto].
  - destruct (IH (Z.max a y)) as [H1 H2]. split; [lia|].
    intros x [<-|Hx]; [lia | auto].
Qed.

Lemma fold_max_in (l : list Z) (a : Z) :
  fold_left Z.max l a = a \/ In (fold_left Z.max l a) l.
Proof.
  revert a; induction l as [|y l IH]; intros a; simpl; auto.
  destruct (IH (Z.max a y)) as [H|H]; auto.
  rewrite H. destruct (Z.max_spec a y) as [[_ ->]|[_ ->]]; auto.
Qed.

Lemma indeg_nonneg (ds : list Z) (j : Z) : 0 <= indeg ds j.
Proof. apply size_nonneg. Qed.

Lemma indeg_le_max (ds : list Z) (j : Z) :
  0 <= j < size ds -> indeg ds j <= max_indeg ds.
Proof.
  intros Hj. unfold max_indeg.
  apply (proj2 (fold_max_ge (map (indeg ds) (range (length ds))) 0)).
  apply in_map. now apply in_range.
Qed.

Lemma max_indeg_nonneg (ds : list Z) : 0 <= max_indeg ds.
Proof. unfold max_indeg. exact (proj1 (fold_max_ge _ 0)). Qed.

Lemma np_max_indeg (ds : list Z) :
  (0 < length ds)%nat ->
  np_max (map (indeg ds) (range (length ds))) = inr (max_indeg ds).
Proof.
  intros Hn. unfold max_indeg. destruct (length ds) as [|n]; [lia|].
  unfold range. simpl. f_equal.
  now rewrite Z.max_r by apply indeg_nonneg.
Qed.

Lemma ups_upto_mono (ds : list Z) (j : Z) (m m' : nat) :
  (m <= m')%nat -> (length (ups_upto ds m j) <= length (ups_upto ds m' j))%nat.
Proof.
  induction 1 as [|m' _ IH]; auto.
  rewrite ups_upto_S, length_app. lia.
Qed.

Lemma upd_app_r {A} (a b : list A) (x y : A) :
  upd (a ++ y :: b) (length a) x = a ++ x :: b.
Proof. induction a as [|z a IH]; simpl; congruence. Qed.

Lemma length_us_row (ds : list Z) (d m : nat) (j : Z) :
  (length (ups_upto ds m j) <= d)%nat -> length (us_row ds d m j) = d.
Proof. intros H. unfold us_row. rewrite length_app, repeat_length. lia. Qed.

(** A store at a slot inside the row stays in the row. *)
Lemma setitem_row_in_row {A} (a : list (list A)) (d i k : Z) (x : A) :
  0 <= i < size a -> 0 <= k < d ->
  setitem_row a d i k x =
  (row <- getitem a i ;; row' <- setitem row k x ;; setitem a i row').
Proof.
  intros Hi Hk. unfold setitem_row.
  assert (Hn : norm_index (size a) i = inr (Z.to_nat i)).
  { pose proof (norm_index_nat (size a) (Z.to_nat i)) as H.
    rewrite Z2Nat.id in H by lia. apply H. lia. }
  rewrite Hn. cbn [bind]. rewrite Z2Nat.id by lia.
  replace (0 <=? k) with true by (symmetry; apply Z.leb_le; lia).
  replace (i * d + k <? size a * d) with true
    by (symmetry; apply Z.ltb_lt; nia).
  cbn [andb].
  rewrite Z.div_add_l, Z.div_small, Z.add_0_r by lia.
  rewrite Z.add_comm, Z_mod_plus_full, Z.mod_small by lia.
  reflexivity.
Qed.

(** The placement pass, cell by cell. *)
Lemma _idxs_us_prefix (ds : list Z) (m : nat) :
  valid_ds ds = true -> (m <= length ds)%nat ->
  let d := Z.to_nat (max_indeg ds) in
  foldM (_idxs_us_body ds (max_indeg ds)) (range m)
    (repeat (repeat _mv d) (length ds), repeat 0 (length ds)) =
  inr (map (us_row ds d m) (range (length ds)),
       map (fun j => size (ups_upto ds m j)) (range (length ds))).
Proof.
  intros Hv. unfold valid_ds in Hv.
  apply andb_true_iff in Hv. destruct Hv as [Hv Hdeg].
  apply andb_true_iff in Hv. destruct Hv as [Hv Hr].
  apply andb_true_iff in Hv. destruct Hv as [Hpos Hmv].
  apply Z.ltb_lt in Hdeg, Hpos. apply Z.leb_le in Hmv. rewrite mv_eq in Hmv.
  pose proof (max_indeg_nonneg ds) as Hd0.
  intros Hm d. induction m as [|m IH].
  - simpl. f_equal. f_equal.
    + rewrite <- (map_const_range (repeat _mv d)). apply map_ext.
      intros j. unfold us_row. simpl. now rewrite Nat.sub_0_r.
    + symmetry. exact (map_const_range 0 (length ds)).
  - rewrite range_S, foldM_app, IH by lia. simpl. rewrite bind_ret_r.
    unfold _idxs_us_body.
    rewrite getitem_ds by lia. simpl.
    pose proof (ds_at_range ds m Hr ltac:(lia)) as Ht.
    set (t := ds_at ds (Z.of_nat m)) in *.
    assert (Hstep : forall j, ups_upto ds (S m) j =
              ups_upto ds m j ++
              (if (t =? j) && negb (t =? Z.of_nat m) then [Z.of_nat m] else [])).
    { intros j. rewrite ups_upto_S. unfold flows_to. fold t.
      now rewrite andb_comm. }
    destruct (Z.eqb_spec t (Z.of_nat m)) as [E|E]; simpl.
    + f_equal. f_equal; apply map_ext; intros j; unfold us_row;
        rewrite Hstep, andb_false_r, app_nil_r; reflexivity.
    + assert (Htn : 0 <= t < Z.of_nat (length ds)) by (unfold size in Ht; lia).
      assert (Hc : (length (ups_upto ds m t) < d)%nat).
      { assert (length (ups_upto ds (S m) t) <= length (ups ds t))%nat
          by (apply ups_upto_mono; lia).
        rewrite Hstep, Z.eqb_refl in H. simpl in H.
        rewrite length_app in H. simpl in H.
        pose proof (indeg_le_max ds t Ht) as Hle.
        unfold indeg, size in Hle. lia. }
      rewrite getitem_map_range by auto. simpl.
      rewrite setitem_row_in_row
        by (unfold size; rewrite ?length_map, ?length_range; lia).
      rewrite getitem_map_range by auto. simpl.
      unfold size at 1. rewrite setitem_nat
        by (rewrite length_us_row; lia).
      simpl. rewrite setitem_map_range by auto. simpl.
      rewrite setitem_map_range by auto. simpl.
      f_equal. f_equal; apply map_ext; intros j.
      * destruct (Z.eqb_spec j t) as [->|Hj].
        -- unfold us_row. rewrite Hstep, Z.eqb_refl. simpl.
           rewrite length_app. simpl.
           replace (d - length (ups_upto ds m t))%nat
             with (S (d - (length (ups_upto ds m t) + 1)))%nat by lia.
           simpl. rewrite upd_app_r, <- app_assoc. simpl.
           f_equal. f_equal. unfold u32, size in *.
           change (2 ^ 32) with 4294967296. apply Z.mod_small. lia.
        -- unfold us_row. rewrite Hstep.
           destruct (Z.eqb_spec t j); [congruence|]. simpl.
           now rewrite app_nil_r.
      * rewrite Hstep. destruct (Z.eqb_spec j t) as [->|Hj].
        -- rewrite Z.eqb_refl. simpl. rewrite size_app.
           unfold u8. change (2 ^ 8) with 256. apply Z.mod_small.
           unfold size. simpl. lia.
        -- destruct (Z.eqb_spec t j); [congruence|]. simpl.
           now rewrite app_nil_r.
Qed.

(** The adjacency builder returns the table of all upstream neighbours. *)
Lemma _idxs_us_spec (ds : list Z) :
  valid_ds ds = true ->
  _idxs_us ds = inr (us_table ds (Z.to_nat (max_indeg ds))).
Proof.
  intros Hv. pose proof Hv as Hv'. unfold valid_ds in Hv.
  apply andb_true_iff in Hv. destruct Hv as [Hv Hdeg].
  apply andb_true_iff in Hv. destruct Hv as [Hv Hr].
  apply andb_true_iff in Hv. destruct Hv as [Hpos Hmv].
  apply Z.ltb_lt in Hdeg, Hpos.
  unfold _idxs_us. rewrite n_upstream_spec by auto. simpl.
  assert (Hex : map (fun j => u8 (indeg ds j)) (range (length ds)) =
                map (indeg ds) (range (length ds))).
  { apply map_ext_in. intros j Hj. apply in_range in Hj.
    unfold u8. change (2 ^ 8) with 256. apply Z.mod_small.
    pose proof (indeg_nonneg ds j). pose proof (indeg_le_max ds j Hj). lia. }
  rewrite Hex, np_max_indeg by (unfold size in Hpos; lia). simpl.
  rewrite map_map, map_const_range.
  change (u8 0) with 0.
  rewrite (_idxs_us_prefix ds (length ds) Hv' (le_n _)). reflexivity.
Qed.

Lemma valid_ds_inv (ds : list Z) :
  valid_ds ds = true ->
  0 < size ds <= 4294967295 /\ in_range_ds ds = true /\ max_indeg ds < 256.
Proof.
  unfold valid_ds. rewrite !andb_true_iff, Z.ltb_lt, Z.leb_le, Z.ltb_lt, mv_eq.
  tauto.
Qed.

Lemma in_ups (ds : list Z) (j i : Z) :
  In i (ups ds j) <-> 0 <= i < size ds /\ flows_to ds j i = true.
Proof. unfold ups, ups_upto. now rewrite filter_In, in_range. Qed.

Lemma NoDup_ups (ds : list Z) (j : Z) : NoDup (ups ds j).
Proof. apply NoDup_filter, NoDup_range. Qed.

Lemma ups_nonmv (ds : list Z) (j : Z) :
  size ds <= _mv -> forallb nonmv (ups ds j) = true.
Proof.
  intros H. apply forallb_forall. intros i Hi. apply in_ups in Hi.
  unfold nonmv. destruct (Z.eqb_spec i _mv); [lia | reflexivity].
Qed.

Lemma filter_all {A} (f : A -> bool) (l : list A) :
  forallb f l = true -> filter f l = l.
Proof.
  induction l as [|x l IH]; simpl; auto.
  intros H. apply andb_true_iff in H. destruct H as [-> H]. now rewrite IH.
Qed.

Lemma filter_nonmv_repeat (k : nat) : filter nonmv (repeat _mv k) = [].
Proof. induction k; simpl; auto. Qed.

Lemma filter_nonmv_packed (cells : list Z) (k : nat) :
  forallb nonmv cells = true ->
  filter nonmv (cells ++ repeat _mv k) = cells.
Proof.
  intros H. now rewrite filter_app, filter_all, filter_nonmv_repeat, app_nil_r.
Qed.

Lemma left_packed_app (cells : list Z) (k : nat) :
  forallb nonmv cells = true -> left_packed (cells ++ repeat _mv k) = true.
Proof.
  induction cells as [|x cells IH]; simpl.
  - intros _. destruct k; simpl; auto. apply forallb_forall.
    intros y Hy. apply repeat_spec in Hy. now subst.
  - intros H. apply andb_true_iff in H. destruct H as [Hx H].
    unfold nonmv in Hx. destruct (x =? _mv); [discriminate | auto].
Qed.

Lemma getitem_us_table (ds : list Z) (d : nat) (j : Z) :
  0 <= j < size ds ->
  getitem (us_table ds d) j = inr (us_row ds d (length ds) j).
Proof. intros H. unfold us_table. now rewrite getitem_map_range. Qed.

Lemma max_indeg_attained (ds : list Z) :
  0 < size ds -> exists j, 0 <= j < size ds /\ indeg ds j = max_indeg ds.
Proof.
  intros Hn. unfold max_indeg.
  destruct (fold_max_in (map (indeg ds) (range (length ds))) 0) as [H|H].
  - exists 0. split; [lia|].
    pose proof (indeg_le_max ds 0 ltac:(lia)) as Hle.
    pose proof (indeg_nonneg ds 0). unfold max_indeg in Hle. lia.
  - apply in_map_iff in H. destruct H as (j & Hj & Hin).
    apply in_range in Hin. exists j. split; auto.
Qed.

(** C2 fails as stated, for every array: the counters of the rows are
    [uint8].  In an array of 258 cells that all drain into cell 0, cell 0
    has 257 upstream cells and its counter holds 1, so the table is one
    column wide.  The slots 1 to 255 of row 0 are the rows 1 to 255 of the
    table: the cells 2 to 256 are stored there, and cell 257, with the
    counter back at 0, takes the place of cell 1.  Row 0 is left with cell
    257 alone, and the width is 1, not the in-degree 257. *)
Lemma table_rows_wrap_counterexample :
  in_range_ds (repeat 0 258) = true /\
  max_indeg (repeat 0 258) = 257 /\
  n_upstream (repeat 0 258) = inr (1 :: repeat 0 257) /\
  _idxs_us (repeat 0 258)
    = inr ([257] :: map (fun j => [j + 1]) (map Z.of_nat (seq 1 255))
             ++ [[_mv]; [_mv]]) /\
  ~ rows_as_specified (repeat 0 258).
Proof.
  assert (E : _idxs_us (repeat 0 258)
              = inr ([257] :: map (fun j => [j + 1]) (map Z.of_nat (seq 1 255))
                       ++ [[_mv]; [_mv]]))
    by (vm_compute; reflexivity).
  split; [vm_compute; reflexivity|]. split; [vm_compute; reflexivity|].
  split; [vm_compute; reflexivity|]. split; [exact E|].
  intros (us & Hus & H). rewrite E in Hus. injection Hus as <-.
  destruct (H 1 0 ltac:(lia) eq_refl ltac:(lia)) as (row & Hrow & Hin).
  injection Hrow as <-. simpl in Hin. lia.
Qed.

(** C2, amended.  On every downstream array the builder accepts, the table
    has one row per cell; the row of the downstream cell of every non-pit
    cell [i] contains [i]; every row is left-packed, holds exactly the
    upstream neighbours of its cell in front of the sentinel padding, and
    has the width [d], which is the maximum in-degree. *)
Theorem idxs_us_rows (idxs_ds : list Z) :
  valid_ds idxs_ds = true ->
  exists idxs_us,
    _idxs_us idxs_ds = inr idxs_us /\
    length idxs_us = length idxs_ds /\
    (forall i i_ds, 0 <= i -> getitem idxs_ds i = inr i_ds -> i_ds <> i ->
       exists row, getitem idxs_us i_ds = inr row /\ In i row) /\
    (forall j row, 0 <= j -> getitem idxs_us j = inr row ->
       left_packed row = true /\
       filter nonmv row = ups idxs_ds j /\
       row = ups idxs_ds j ++ repeat _mv (length row - length (ups idxs_ds j)) /\
       size (filter nonmv row) <= size row /\
       size row = max_indeg idxs_ds) /\
    (forall j, 0 <= j < size idxs_ds -> indeg idxs_ds j <= max_indeg idxs_ds) /\
    (exists j, 0 <= j < size idxs_ds /\ indeg idxs_ds j = max_indeg idxs_ds).
Proof.
  intros Hv. pose proof (valid_ds_inv _ Hv) as (Hn & Hr & Hdeg).
  pose proof (max_indeg_nonneg idxs_ds) as Hd0.
  exists (us_table idxs_ds (Z.to_nat (max_indeg idxs_ds))).
  assert (Hlen : length (us_table idxs_ds (Z.to_nat (max_indeg idxs_ds)))
                 = length idxs_ds)
    by (unfold us_table; now rewrite length_map, length_range).
  assert (Hmv : size idxs_ds <= _mv) by (rewrite mv_eq; lia).
  assert (Hw : forall j, 0 <= j < size idxs_ds ->
             (length (ups idxs_ds j) <= Z.to_nat (max_indeg idxs_ds))%nat).
  { intros j Hj. pose proof (indeg_le_max idxs_ds j Hj) as H.
    unfold indeg, size in H. lia. }
  split; [now apply _idxs_us_spec|]. split; [exact Hlen|].
  split; [|split; [|split]].
  - intros i t Hi Hget Hne.
    apply getitem_nonneg in Hget; auto. destruct Hget as [Hlt Hnth].
    assert (Ht : t = ds_at idxs_ds i).
    { unfold ds_at. symmetry. now apply nth_error_nth. }
    assert (Htr : 0 <= t < size idxs_ds).
    { subst t. replace i with (Z.of_nat (Z.to_nat i)) by lia.
      apply ds_at_range; auto. unfold size in Hlt. lia. }
    exists (us_row idxs_ds (Z.to_nat (max_indeg idxs_ds)) (length idxs_ds) t).
    split; [now apply getitem_us_table|].
    unfold us_row. apply in_or_app. left. apply in_ups. split; [lia|].
    unfold flows_to. rewrite <- Ht.
    destruct (Z.eqb_spec t i); [congruence|]. now rewrite Z.eqb_refl.
  - intros j row Hj Hget.
    assert (Hjn : 0 <= j < size idxs_ds).
    { apply getitem_nonneg in Hget; auto. unfold size in *. lia. }
    rewrite getitem_us_table in Hget by auto. inversion Hget as [Hrow].
    unfold us_row. fold (ups idxs_ds j).
    rewrite length_app, repeat_length.
    specialize (Hw j Hjn).
    repeat split.
    + apply left_packed_app. now apply ups_nonmv.
    + apply filter_nonmv_packed. now apply ups_nonmv.
    + do 2 f_equal. lia.
    + rewrite filter_nonmv_packed by now apply ups_nonmv.
      rewrite size_app. pose proof (size_nonneg (repeat _mv
        (Z.to_nat (max_indeg idxs_ds) - length (ups idxs_ds j)))). lia.
    + unfold size. rewrite length_app, repeat_length. lia.
  - intros j Hj. now apply indeg_le_max.
  - apply max_indeg_attained. lia.
Qed.

Lemma idxs_us_rows_witness :
  valid_ds [1; 2; 2] = true /\
  exists idxs_us,
    _idxs_us [1; 2; 2] = inr idxs_us /\
    length idxs_us = length [1; 2; 2] /\
    (forall i i_ds, 0 <= i -> getitem [1; 2; 2] i = inr i_ds -> i_ds <> i ->
       exists row, getitem idxs_us i_ds = inr row /\ In i row) /\
    (forall j row, 0 <= j -> getitem idxs_us j = inr row ->
       left_packed row = true /\
       filter nonmv row = ups [1; 2; 2] j /\
       row = ups [1; 2; 2] j ++ repeat _mv (length row - length (ups [1; 2; 2] j)) /\
       size (filter nonmv row) <= size row /\
       size row = max_indeg [1; 2; 2]) /\
    (forall j, 0 <= j < size [1; 2; 2] -> indeg [1; 2; 2] j <= max_indeg [1; 2; 2]) /\
    (exists j, 0 <= j < size [1; 2; 2] /\ indeg [1; 2; 2] j = max_indeg [1; 2; 2]).
Proof. split; [reflexivity | apply (idxs_us_rows [1; 2; 2]); reflexivity]. Defined.

(** C9.  The counters of [n_upstream] are 8 bits wide: each holds the
    in-degree of its cell modulo 256.  When every in-degree is below 256
    the counts are the in-degrees themselves, and the table of the
    adjacency builder has one row per cell, each as wide as the largest
    count, which is the largest in-degree. *)
Theorem n_upstream_uint8 (idxs_ds : list Z) :
  in_range_ds idxs_ds = true ->
  n_upstream idxs_ds =
    inr (map (fun j => indeg idxs_ds j mod 256) (range (length idxs_ds))) /\
  (max_indeg idxs_ds < 256 ->
     n_upstream idxs_ds = inr (map (indeg idxs_ds) (range (length idxs_ds)))) /\
  (valid_ds idxs_ds = true ->
     exists n_up d idxs_us,
       n_upstream idxs_ds = inr n_up /\
       np_max n_up = inr d /\
       d = max_indeg idxs_ds /\
       _idxs_us idxs_ds = inr idxs_us /\
       length idxs_us = length idxs_ds /\
       Forall (fun row => size row = d) idxs_us).
Proof.
  intros Hr. split; [|split].
  - now rewrite n_upstream_spec.
  - intros Hdeg. rewrite n_upstream_spec by auto. f_equal.
    apply map_ext_in. intros j Hj. apply in_range in Hj.
    unfold u8. change (2 ^ 8) with 256. apply Z.mod_small.
    pose proof (indeg_nonneg idxs_ds j).
    pose proof (indeg_le_max idxs_ds j Hj). lia.
  - intros Hv. pose proof (valid_ds_inv _ Hv) as (Hn & _ & Hdeg).
    exists (map (indeg idxs_ds) (range (length idxs_ds))),
      (max_indeg idxs_ds),
      (us_table idxs_ds (Z.to_nat (max_indeg idxs_ds))).
    split.
    { rewrite n_upstream_spec by auto. f_equal.
      apply map_ext_in. intros j Hj. apply in_range in Hj.
      unfold u8. change (2 ^ 8) with 256. apply Z.mod_small.
      pose proof (indeg_nonneg idxs_ds j).
      pose proof (indeg_le_max idxs_ds j Hj). lia. }
    split; [apply np_max_indeg; unfold size in Hn; lia|].
    split; [reflexivity|].
    split; [now apply _idxs_us_spec|].
    split; [unfold us_table; now rewrite length_map, length_range|].
    pose proof (max_indeg_nonneg idxs_ds) as Hd0.
    apply Forall_forall. intros row Hrow. unfold us_table in Hrow.
    apply in_map_iff in Hrow. destruct Hrow as (j & <- & Hj).
    apply in_range in Hj. unfold size. rewrite length_us_row; [lia|].
    pose proof (indeg_le_max idxs_ds j Hj) as H. unfold indeg, size in H.
    fold (ups idxs_ds j). lia.
Qed.

Lemma n_upstream_uint8_witness :
  in_range_ds [1; 2; 2] = true /\
  n_upstream [1; 2; 2] = inr [0; 1; 1] /\
  _idxs_us [1; 2; 2] = inr [[_mv]; [0]; [1]] /\
  exists n_up d idxs_us,
    n_upstream [1; 2; 2] = inr n_up /\
    np_max n_up = inr d /\
    d = max_indeg [1; 2; 2] /\
    _idxs_us [1; 2; 2] = inr idxs_us /\
    length idxs_us = length [1; 2; 2] /\
    Forall (fun row => size row = d) idxs_us.
Proof.
  split; [reflexivity|].
  split; [exact (proj1 (n_upstream_uint8 [1; 2; 2] eq_refl))|].
  split; [reflexivity|].
  exact (proj2 (proj2 (n_upstream_uint8 [1; 2; 2] eq_refl)) eq_refl).
Defined.

(** Two hundred and fifty-six cells draining into cell 0: its counter
    wraps around to zero, and the table of width zero has no element to
    store them in. *)
Example n_upstream_wraps :
  indeg (repeat 0 257) 0 = 256 /\
  n_upstream (repeat 0 257) = inr (repeat 0 257) /\
  _idxs_us (repeat 0 257) = inl OutOfBounds.
Proof. vm_compute. auto. Qed.

(** ** Breadth-first expansion along a consistent table *)

Lemma mem_In (i : Z) (l : list Z) : mem i l = true <-> In i l.
Proof.
  unfold mem. rewrite existsb_exists. split.
  - intros (x & Hx & E). apply Z.eqb_eq in E. now subst.
  - intros H. exists i. split; auto. apply Z.eqb_refl.
Qed.

Lemma mem_false (i : Z) (l : list Z) : mem i l = false <-> ~ In i l.
Proof.
  rewrite <- mem_In. destruct (mem i l); split; intros; congruence.
Qed.

Lemma mem_app (i : Z) (a b : list Z) : mem i (a ++ b) = mem i a || mem i b.
Proof. unfold mem. apply existsb_app. Qed.

Lemma filter_concat {A} (f : A -> bool) (ll : list (list A)) :
  filter f (concat ll) = flat_map (filter f) ll.
Proof.
  induction ll as [|l ll IH]; simpl; auto. now rewrite filter_app, IH.
Qed.

Lemma NoDup_flat_map {A B} (f : A -> list B) (l : list A) :
  NoDup l ->
  (forall x, In x l -> NoDup (f x)) ->
  (forall x y b, In x l -> In y l -> In b (f x) -> In b (f y) -> x = y) ->
  NoDup (flat_map f l).
Proof.
  induction 1 as [|x l Hx Hl IH]; simpl; intros Hf Hdisj; [constructor|].
  apply NoDup_app.
  - apply Hf. now left.
  - apply IH.
    + intros y Hy. apply Hf. now right.
    + intros y z b Hy Hz. apply Hdisj; now right.
  - intros b Hb Hb'. apply in_flat_map in Hb'. destruct Hb' as (y & Hy & Hby).
    assert (x = y).
    { apply (Hdisj x y b); [now left | now right | assumption | assumption]. }
    subst. contradiction.
Qed.

Lemma take_rows (us : list (list Z)) (idxs : list Z) :
  (forall i, In i idxs -> 0 <= i < size us) ->
  take us idxs = inr (map (row_of us) idxs).
Proof.
  unfold take. induction idxs as [|i idxs IH]; intros H; simpl; auto.
  assert (Hi : 0 <= i < size us) by (apply H; now left).
  replace i with (Z.of_nat (Z.to_nat i)) at 1 by lia.
  rewrite (getitem_nat us (Z.to_nat i) (row_of us i)).
  - simpl. rewrite IH; auto. intros; apply H; now right.
  - unfold row_of. apply nth_error_nth'. unfold size in Hi. lia.
Qed.

Lemma upstream_cells (us : list (list Z)) (idxs : list Z) :
  (forall i, In i idxs -> 0 <= i < size us) ->
  upstream idxs us = inr (flat_map (us_cells us) idxs).
Proof.
  intros H. unfold upstream. rewrite take_rows by auto. simpl.
  rewrite filter_concat. f_equal.
  rewrite !flat_map_concat_map, map_map. reflexivity.
Qed.

Lemma take_map_range {B} (f : Z -> B) (n : nat) (idxs : list Z) :
  (forall i, In i idxs -> 0 <= i < Z.of_nat n) ->
  take (map f (range n)) idxs = inr (map f idxs).
Proof.
  unfold take. induction idxs as [|i idxs IH]; intros H; simpl; auto.
  rewrite getitem_map_range by (apply H; now left). simpl.
  rewrite IH; auto. intros; apply H; now right.
Qed.

Lemma put_map_range {B} (g : Z -> B) (n : nat) (idxs : list Z) :
  (forall i, In i idxs -> 0 <= i < Z.of_nat n) ->
  forall f : Z -> B,
  put (map f (range n)) idxs (map g idxs) =
  inr (map (fun i => if mem i idxs then g i else f i) (range n)).
Proof.
  induction idxs as [|i idxs IH]; intros H f; simpl; auto.
  rewrite setitem_map_range by (apply H; now left). simpl.
  rewrite IH by (intros; apply H; now right).
  f_equal. apply map_ext. intros j.
  rewrite (Z.eqb_sym j i).
  destruct (Z.eqb_spec i j) as [->|Hne]; simpl.
  - now destruct (mem j idxs).
  - reflexivity.
Qed.

Lemma fill_map_range {B} (x : B) (n : nat) (idxs : list Z) :
  (forall i, In i idxs -> 0 <= i < Z.of_nat n) ->
  forall f : Z -> B,
  fill (map f (range n)) idxs x =
  inr (map (fun i => if mem i idxs then x else f i) (range n)).
Proof.
  unfold fill. induction idxs as [|i idxs IH]; intros H f; simpl; auto.
  rewrite setitem_map_range by (apply H; now left). simpl.
  rewrite IH by (intros; apply H; now right).
  f_equal. apply map_ext. intros j.
  rewrite (Z.eqb_sym j i).
  destruct (Z.eqb_spec i j) as [->|Hne]; simpl.
  - now destruct (mem j idxs).
  - reflexivity.
Qed.

Lemma where_map_range (g : Z -> bool) (n : nat) :
  where_ (map g (range n)) = filter g (range n).
Proof.
  unfold where_. rewrite length_map, length_range.
  induction (range n) as [|i l IH]; simpl; auto.
  destruct (g i); simpl; now rewrite IH.
Qed.

Lemma map_ds_at (ds : list Z) : ds = map (ds_at ds) (range (length ds)).
Proof.
  apply nth_error_ext. intros k. rewrite nth_error_map.
  destruct (Nat.ltb_spec k (length ds)) as [Hk|Hk].
  - rewrite nth_error_range by auto. simpl. unfold ds_at.
    rewrite Nat2Z.id. now apply nth_error_nth'.
  - replace (nth_error (range (length ds)) k) with (@None Z)
      by (symmetry; apply nth_error_None; now rewrite length_range).
    now apply nth_error_None.
Qed.

Lemma pit_indices_prefix (ds : list Z) (m : nat) :
  (m <= length ds)%nat ->
  foldM (pit_indices_body ds) (range m) [] =
  inr (filter (fun i => ds_at ds i =? i) (range m)).
Proof.
  induction m as [|m IH]; intros Hm; auto.
  rewrite range_S, foldM_app, IH by lia. simpl. rewrite bind_ret_r.
  unfold pit_indices_body. rewrite getitem_ds by lia. simpl.
  rewrite filter_app. simpl. rewrite (Z.eqb_sym (ds_at ds (Z.of_nat m))).
  destruct (Z.of_nat m =? ds_at ds (Z.of_nat m)); simpl; auto.
  now rewrite app_nil_r.
Qed.

Lemma pit_indices_pits (ds : list Z) :
  size ds <= _mv -> pit_indices ds = inr (pits ds).
Proof.
  intros H. unfold pit_indices. rewrite pit_indices_prefix by lia. simpl.
  f_equal. fold (pits ds). rewrite <- (map_id (pits ds)) at 2.
  apply map_ext_in. intros i Hi. unfold pits in Hi.
  apply filter_In in Hi. destruct Hi as [Hi _]. apply in_range in Hi.
  unfold u32, size in *. rewrite mv_eq in H.
  change (2 ^ 32) with 4294967296. apply Z.mod_small. lia.
Qed.

Lemma network_tree_loop_S (fuel : nat) (idxs : list Z) (us tree : list (list Z)) :
  network_tree_loop (S fuel) idxs us tree =
  (idxs_us0 <- upstream idxs us ;;
   if size idxs_us0 =? 0 then ret tree
   else network_tree_loop fuel idxs_us0 us (tree ++ [idxs_us0])).
Proof. reflexivity. Qed.

Lemma loop_indices_loop_S (fuel : nat) (idxs : list Z) (us : list (list Z))
  (no_loop : list bool) :
  loop_indices_loop (S fuel) idxs us no_loop =
  (idxs_us0 <- upstream idxs us ;;
   if size idxs_us0 =? 0 then ret no_loop
   else
     old <- take no_loop idxs_us0 ;;
     no_loop' <- put no_loop idxs_us0 (map negb old) ;;
     loop_indices_loop fuel idxs_us0 us no_loop').
Proof. reflexivity. Qed.

Section Expansion.

Variables (ds : list Z) (us : list (list Z)).
Hypothesis Hcons : consistent ds us.

Lemma cons_size : size us = size ds.
Proof. unfold size. destruct Hcons as [-> _]. reflexivity. Qed.

Lemma at_depth_range (k : nat) (i : Z) :
  at_depth ds k i = true -> 0 <= i < size ds.
Proof.
  destruct k; simpl; rewrite !andb_true_iff, Z.leb_le, Z.ltb_lt; tauto.
Qed.

Lemma in_level (k : nat) (i : Z) :
  In i (level ds us k) <-> at_depth ds k i = true.
Proof.
  revert i; induction k as [|k IH]; intros i; simpl.
  - unfold pits. rewrite filter_In, in_range, !andb_true_iff,
      Z.leb_le, Z.ltb_lt. unfold size. tauto.
  - rewrite in_flat_map. split.
    + intros (j & Hj & Hi). apply IH in Hj.
      pose proof (at_depth_range _ _ Hj) as Hjr.
      destruct Hcons as (_ & _ & Hc). apply (Hc j Hjr) in Hi.
      destruct Hi as [Hir Hf]. unfold flows_to in Hf.
      apply andb_true_iff in Hf. destruct Hf as [Hne He].
      apply Z.eqb_eq in He. rewrite Hne, He, Hj.
      rewrite !andb_true_iff, Z.leb_le, Z.ltb_lt. tauto.
    + rewrite !andb_true_iff, Z.leb_le, Z.ltb_lt.
      intros ((Hi0 & Hi1) & Hne & Hd). exists (ds_at ds i).
      split; [now apply IH|].
      destruct Hcons as (_ & _ & Hc).
      apply (Hc _ (at_depth_range _ _ Hd)). split; [lia|].
      unfold flows_to. now rewrite Hne, Z.eqb_refl.
Qed.

Lemma at_depth_unique (k k' : nat) (i : Z) :
  at_depth ds k i = true -> at_depth ds k' i = true -> k = k'.
Proof.
  revert k' i; induction k as [|k IH]; intros [|k'] i; simpl;
    rewrite !andb_true_iff; intros (_ & H) (_ & H'); auto.
  - destruct H' as [H' _]. rewrite H in H'. discriminate.
  - destruct H as [H _]. rewrite H' in H. discriminate.
  - f_equal. apply (IH k' (ds_at ds i)); tauto.
Qed.

Lemma at_depth_target (k : nat) (i : Z) :
  at_depth ds k i = true -> 0 <= ds_at ds i < size ds.
Proof.
  destruct k; simpl; rewrite !andb_true_iff.
  - intros ((E0 & E1) & E2). apply Z.leb_le in E0. apply Z.ltb_lt in E1.
    apply Z.eqb_eq in E2. lia.
  - intros (_ & _ & E). now apply at_depth_range in E.
Qed.

Lemma level_range (k : nat) (i : Z) :
  In i (level ds us k) -> 0 <= i < size us.
Proof.
  intros H. apply in_level, at_depth_range in H. now rewrite cons_size.
Qed.

Lemma NoDup_level (k : nat) : NoDup (level ds us k).
Proof.
  induction k as [|k IH]; simpl.
  - apply NoDup_filter, NoDup_range.
  - apply NoDup_flat_map; auto.
    + intros j Hj. apply level_range in Hj. rewrite cons_size in Hj.
      destruct Hcons as (_ & _ & Hc). now apply Hc.
    + intros j j' i Hj Hj' Hi Hi'.
      apply level_range in Hj, Hj'. rewrite cons_size in Hj, Hj'.
      destruct Hcons as (_ & _ & Hc).
      apply (Hc j Hj) in Hi. apply (Hc j' Hj') in Hi'.
      destruct Hi as [_ Hi], Hi' as [_ Hi']. unfold flows_to in *.
      apply andb_true_iff in Hi, Hi'.
      destruct Hi as [_ Hi], Hi' as [_ Hi'].
      apply Z.eqb_eq in Hi, Hi'. congruence.
Qed.

Lemma upstream_level (k : nat) :
  upstream (level ds us k) us = inr (level ds us (S k)).
Proof. simpl. apply upstream_cells. apply level_range. Qed.

Lemma all_levels_S (k : nat) :
  all_levels ds us (S k) = all_levels ds us k ++ level ds us k.
Proof.
  unfold all_levels. rewrite seq_S, flat_map_app. simpl.
  now rewrite app_nil_r.
Qed.

Lemma in_all_levels (k : nat) (i : Z) :
  In i (all_levels ds us k) <->
  exists j, (j < k)%nat /\ at_depth ds j i = true.
Proof.
  unfold all_levels. rewrite in_flat_map. split.
  - intros (j & Hj & Hi). apply in_seq in Hj. apply in_level in Hi.
    exists j. split; [lia | auto].
  - intros (j & Hj & Hi). exists j. split; [apply in_seq; lia|].
    now apply in_level.
Qed.

Lemma NoDup_all_levels (k : nat) : NoDup (all_levels ds us k).
Proof.
  induction k as [|k IH]; [constructor|].
  rewrite all_levels_S. apply NoDup_app; auto using NoDup_level.
  intros i Hi Hi'. apply in_all_levels in Hi. destruct Hi as (j & Hj & Hi).
  apply in_level in Hi'.
  pose proof (at_depth_unique _ _ _ Hi Hi'). lia.
Qed.

Lemma all_levels_length (k : nat) :
  (length (all_levels ds us k) <= length ds)%nat.
Proof.
  rewrite <- (length_range (length ds)). apply NoDup_incl_length.
  - apply NoDup_all_levels.
  - intros i Hi. apply in_all_levels in Hi. destruct Hi as (j & _ & Hi).
    apply at_depth_range in Hi. apply in_range. exact Hi.
Qed.

Lemma levels_nonempty_length (m : nat) :
  (forall j, (1 <= j <= m)%nat -> level ds us j <> []) ->
  (m <= length (all_levels ds us (S m)))%nat.
Proof.
  induction m as [|m IH]; intros H; [lia|].
  rewrite all_levels_S, length_app.
  assert (m <= length (all_levels ds us (S m)))%nat
    by (apply IH; intros; apply H; lia).
  assert (level ds us (S m) <> []) by (apply H; lia).
  destruct (level ds us (S m)); [congruence | simpl; lia].
Qed.

(** The expansion stops: some level above the pits is empty. *)
Lemma first_empty_level :
  exists K, (1 <= K)%nat /\ level ds us K = [] /\
            forall j, (1 <= j < K)%nat -> level ds us j <> [].
Proof.
  assert (Hsearch : forall m,
    (exists K, (1 <= K)%nat /\ level ds us K = [] /\
               forall j, (1 <= j < K)%nat -> level ds us j <> []) \/
    (forall j, (1 <= j <= m)%nat -> level ds us j <> [])).
  { induction m as [|m [IH|IH]].
    - right. intros j Hj. lia.
    - now left.
    - destruct (level ds us (S m)) eqn:E.
      + left. exists (S m). repeat split; [lia | auto |].
        intros j Hj. apply IH. lia.
      + right. intros j Hj.
        destruct (Nat.eq_dec j (S m)) as [->|Hne].
        * rewrite E. discriminate.
        * apply IH. lia. }
  destruct (Hsearch (S (length ds))) as [H|H]; auto.
  apply levels_nonempty_length in H.
  pose proof (all_levels_length (S (S (length ds)))). lia.
Qed.

Lemma network_tree_loop_levels (m : nat) :
  forall (k : nat) (tree : list (list Z)),
  (forall j, (k < j <= k + m)%nat -> level ds us j <> []) ->
  level ds us (S (k + m)) = [] ->
  network_tree_loop (S m) (level ds us k) us tree =
  inr (tree ++ map (level ds us) (seq (S k) m)).
Proof.
  induction m as [|m IH]; intros k tree Hne He.
  - rewrite network_tree_loop_S, upstream_level.
    rewrite Nat.add_0_r in He. rewrite He. simpl. now rewrite app_nil_r.
  - rewrite network_tree_loop_S, upstream_level. cbn [bind].
    assert (Hk : level ds us (S k) <> []) by (apply Hne; lia).
    destruct (level ds us (S k)) as [|x l] eqn:E; [congruence|].
    replace (size (x :: l) =? 0) with false
      by (symmetry; apply Z.eqb_neq; unfold size; simpl; lia).
    rewrite <- E. rewrite IH.
    + cbn [seq map]. now rewrite <- app_assoc.
    + intros j Hj. apply Hne. lia.
    + replace (S (S k + m)) with (S (k + S m)) by lia. exact He.
Qed.

Lemma flags_step (k : nat) :
  map (fun i => if mem i (level ds us k)
                then negb ((ds_at ds i =? _mv) || mem i (all_levels ds us k))
                else (ds_at ds i =? _mv) || mem i (all_levels ds us k))
      (range (length ds)) = flags ds us (S k).
Proof.
  unfold flags. apply map_ext. intros i.
  rewrite all_levels_S, mem_app.
  destruct (mem i (level ds us k)) eqn:E.
  - apply mem_In, in_level in E.
    assert (Hmv : (ds_at ds i =? _mv) = false).
    { apply Z.eqb_neq. destruct Hcons as (_ & Hmv & _).
      destruct k; simpl in E; rewrite !andb_true_iff in E.
      - destruct E as ((_ & E1) & E2). apply Z.ltb_lt in E1.
        apply Z.eqb_eq in E2. lia.
      - destruct E as (_ & _ & E). apply at_depth_range in E. lia. }
    assert (Hlv : mem i (all_levels ds us k) = false).
    { apply mem_false. intros Hin. apply in_all_levels in Hin.
      destruct Hin as (j & Hj & Hin).
      pose proof (at_depth_unique _ _ _ Hin E). lia. }
    rewrite Hmv, Hlv. reflexivity.
  - now rewrite !orb_false_r.
Qed.

Lemma loop_indices_loop_levels (m : nat) :
  forall k : nat,
  (forall j, (k < j <= k + m)%nat -> level ds us j <> []) ->
  level ds us (S (k + m)) = [] ->
  loop_indices_loop (S m) (level ds us k) us (flags ds us (S k)) =
  inr (flags ds us (S (k + m))).
Proof.
  induction m as [|m IH]; intros k Hne He.
  - rewrite loop_indices_loop_S, upstream_level.
    rewrite Nat.add_0_r in He. rewrite He. simpl.
    now rewrite Nat.add_0_r.
  - rewrite loop_indices_loop_S, upstream_level. cbn [bind].
    assert (Hk : level ds us (S k) <> []) by (apply Hne; lia).
    destruct (level ds us (S k)) as [|x l] eqn:E; [congruence|].
    replace (size (x :: l) =? 0) with false
      by (symmetry; apply Z.eqb_neq; unfold size; simpl; lia).
    rewrite <- E.
    assert (Hr : forall i, In i (level ds us (S k)) ->
                           0 <= i < Z.of_nat (length ds)).
    { intros i Hi. apply level_range in Hi. rewrite cons_size in Hi.
      exact Hi. }
    unfold flags at 1 2. rewrite take_map_range by exact Hr. cbn [bind].
    rewrite map_map.
    rewrite (put_map_range
      (fun i => negb ((ds_at ds i =? _mv) || mem i (all_levels ds us (S k)))))
      by exact Hr.
    cbn [bind]. rewrite flags_step. rewrite IH.
    + f_equal. f_equal. lia.
    + intros j Hj. apply Hne. lia.
    + replace (S (S k + m)) with (S (k + S m)) by lia. exact He.
Qed.

Lemma flags_init :
  (no_loop <- (if 0 <? size (pits ds)
               then fill (map (fun x => x =? _mv) ds) (pits ds) true
               else ret (map (fun x => x =? _mv) ds)) ;;
   ret no_loop) = inr (flags ds us 1).
Proof.
  rewrite bind_ret_r.
  assert (Hinit : map (fun x => x =? _mv) ds =
                  map (fun i => ds_at ds i =? _mv) (range (length ds))).
  { rewrite (map_ds_at ds) at 1. now rewrite map_map. }
  assert (Hflags : flags ds us 1 =
            map (fun i => if mem i (pits ds) then true else ds_at ds i =? _mv)
                (range (length ds))).
  { unfold flags. apply map_ext. intros i.
    unfold all_levels. simpl. rewrite app_nil_r.
    destruct (mem i (pits ds)); [apply orb_true_r | apply orb_false_r]. }
  rewrite Hflags, Hinit.
  destruct (0 <? size (pits ds)) eqn:E.
  - apply fill_map_range. intros i Hi. unfold pits in Hi.
    apply filter_In in Hi. destruct Hi as [Hi _]. now apply in_range in Hi.
  - simpl. f_equal. apply map_ext. intros i.
    destruct (pits ds); [reflexivity|].
    unfold size in E. simpl in E. apply Z.ltb_ge in E. lia.
Qed.

(** What the two traversals return, once [K] is the first empty level. *)
Lemma traversals_return (K : nat) :
  (1 <= K)%nat -> level ds us K = [] ->
  (forall j, (1 <= j < K)%nat -> level ds us j <> []) ->
  network_tree K (pits ds) us = inr (map (level ds us) (seq 0 K)) /\
  loop_indices K ds us =
    inr (filter (fun i => negb ((ds_at ds i =? _mv)
                                || mem i (all_levels ds us K)))
                (range (length ds))).
Proof.
  intros HK He Hne. destruct K as [|m]; [lia|]. split.
  - unfold network_tree. change (pits ds) with (level ds us 0).
    rewrite network_tree_loop_levels; auto.
    intros j Hj. apply Hne. lia.
  - unfold loop_indices.
    destruct Hcons as (_ & Hmv & _). rewrite pit_indices_pits by auto.
    cbn [bind]. pose proof flags_init as Hi. rewrite bind_ret_r in Hi.
    rewrite Hi. cbn [bind]. change (pits ds) with (level ds us 0).
    rewrite loop_indices_loop_levels; auto.
    + cbn [bind ret]. f_equal. unfold flags. rewrite map_map.
      now rewrite where_map_range.
    + intros j Hj. apply Hne. lia.
Qed.

End Expansion.

(** ** The table of the adjacency builder is consistent *)

Lemma row_of_us_table (ds : list Z) (d : nat) (j : Z) :
  0 <= j < size ds -> row_of (us_table ds d) j = us_row ds d (length ds) j.
Proof.
  intros Hj. unfold row_of, us_table. apply nth_error_nth.
  rewrite nth_error_map, nth_error_range by (unfold size in Hj; lia).
  simpl. do 2 f_equal. lia.
Qed.

Lemma us_cells_us_table (ds : list Z) (d : nat) (j : Z) :
  size ds <= _mv -> 0 <= j < size ds ->
  us_cells (us_table ds d) j = ups ds j.
Proof.
  intros Hmv Hj. unfold us_cells. rewrite row_of_us_table by auto.
  unfold us_row. fold (ups ds j).
  apply filter_nonmv_packed. now apply ups_nonmv.
Qed.

Lemma consistent_us_table (ds : list Z) (d : nat) :
  size ds <= _mv -> consistent ds (us_table ds d).
Proof.
  intros Hmv. split; [|split; auto].
  - unfold us_table. now rewrite length_map, length_range.
  - intros j Hj. rewrite us_cells_us_table by auto. split.
    + apply NoDup_ups.
    + intros i. apply in_ups.
Qed.

Lemma level_empty_above (ds : list Z) (us : list (list Z)) (K m : nat) :
  level ds us K = [] -> level ds us (K + m) = [].
Proof.
  intros H. induction m as [|m IH].
  - now rewrite Nat.add_0_r.
  - rewrite Nat.add_succ_r. simpl. now rewrite IH.
Qed.

Lemma marked_level (ds : list Z) (us : list (list Z)) (i : Z) :
  marked ds us i <-> exists k, In i (level ds us k).
Proof.
  split.
  - induction 1 as [i Hi | j i _ [k IH] Hi].
    + now exists O.
    + exists (S k). simpl. apply in_flat_map. eauto.
  - intros [k Hk]. revert i Hk. induction k as [|k IH]; simpl; intros i Hi.
    + now apply marked_pit.
    + apply in_flat_map in Hi. destruct Hi as (j & Hj & Hi).
      apply (marked_up ds us j); auto.
Qed.

Lemma marked_all_levels (ds : list Z) (us : list (list Z)) (K : nat) (i : Z) :
  level ds us K = [] ->
  (marked ds us i <-> In i (all_levels ds us K)).
Proof.
  intros He. rewrite marked_level. unfold all_levels. rewrite in_flat_map.
  split.
  - intros [k Hk]. exists k. split; auto. apply in_seq.
    destruct (Nat.ltb_spec k K) as [Hlt|Hge]; [lia|]. exfalso.
    replace k with (K + (k - K))%nat in Hk by lia.
    now rewrite level_empty_above in Hk.
  - intros (k & _ & Hk). eauto.
Qed.

(** A table for three cells: cell 1 drains into the pit 0, cell 2 has the
    sentinel as its downstream target. *)
Lemma consistent_sentinel_example :
  consistent [0; 0; _mv] [[1]; [_mv]; [_mv]].
Proof.
  split; [reflexivity|]. split; [rewrite mv_eq; unfold size; simpl; lia|].
  intros j Hj. unfold size in Hj. simpl in Hj.
  assert (Hc : j = 0 \/ j = 1 \/ j = 2) by lia.
  destruct Hc as [->|[->| ->]]; (split; [repeat constructor; simpl; tauto|]);
    intros i; unfold size; simpl; (split; [intros Hi | intros [Hi Hf]]).
  - destruct Hi as [<-|[]]. split; [lia | reflexivity].
  - assert (Hc : i = 0 \/ i = 1 \/ i = 2) by lia.
    destruct Hc as [->|[->| ->]]; auto; discriminate.
  - destruct Hi.
  - assert (Hc : i = 0 \/ i = 1 \/ i = 2) by lia.
    destruct Hc as [->|[->| ->]]; discriminate.
  - destruct Hi.
  - assert (Hc : i = 0 \/ i = 1 \/ i = 2) by lia.
    destruct Hc as [->|[->| ->]]; discriminate.
Qed.

(** The table of the adjacency builder is consistent with the downstream
    array it is built from, and no target of an accepted array is the
    sentinel. *)
Lemma _idxs_us_consistent (ds : list Z) :
  valid_ds ds = true ->
  exists us, _idxs_us ds = inr us /\ consistent ds us /\
             forall i, 0 <= i < size ds -> ds_at ds i <> _mv.
Proof.
  intros Hv. pose proof (valid_ds_inv _ Hv) as (Hn & Hr & Hdeg).
  assert (Hmv : size ds <= _mv) by (rewrite mv_eq; lia).
  exists (us_table ds (Z.to_nat (max_indeg ds))).
  split; [now apply _idxs_us_spec|]. split; [now apply consistent_us_table|].
  intros i Hi.
  assert (0 <= ds_at ds i < size ds).
  { replace i with (Z.of_nat (Z.to_nat i)) by lia.
    apply ds_at_range; auto. unfold size in Hi. lia. }
  lia.
Qed.

(** C1 fails as stated: cell 2 below, whose downstream target is the
    sentinel, is in no level of the tree and not in the loop set. *)
Lemma partition_sentinel_counterexample :
  consistent [0; 0; _mv] [[1]; [_mv]; [_mv]] /\
  pit_indices [0; 0; _mv] = inr [0] /\
  network_tree 2 [0] [[1]; [_mv]; [_mv]] = inr [[0]; [1]] /\
  loop_indices 2 [0; 0; _mv] [[1]; [_mv]; [_mv]] = inr [] /\
  ~ cells_partitioned 3 [[0]; [1]] [].
Proof.
  split; [exact consistent_sentinel_example|]. repeat split.
  intros H. destruct (H 2 ltac:(lia)) as [[[] _]|(_ & k & Hk & _)].
  destruct k as [|[|[|k]]]; simpl in Hk; intuition lia.
Qed.

(** C1, amended.  For every downstream array and consistent upstream
    table, pit detection, the network tree and loop detection return; the
    tree levels and the loop set together hold, once each, exactly the
    cells whose downstream target is not the sentinel; a cell whose target
    is the sentinel is in neither; and when no target is the sentinel the
    tree levels and the loop set partition the set of all cells. *)
Theorem tree_levels_and_loops_partition
  (idxs_ds : list Z) (idxs_us : list (list Z)) :
  consistent idxs_ds idxs_us ->
  exists idxs_pits fuel tree loops,
    pit_indices idxs_ds = inr idxs_pits /\
    network_tree fuel idxs_pits idxs_us = inr tree /\
    loop_indices fuel idxs_ds idxs_us = inr loops /\
    Permutation (concat tree ++ loops)
      (filter (fun i => negb (ds_at idxs_ds i =? _mv))
              (range (length idxs_ds))) /\
    (forall i, 0 <= i < size idxs_ds -> ds_at idxs_ds i = _mv ->
       ~ In i loops /\ forall lvl, In lvl tree -> ~ In i lvl) /\
    ((forall i, 0 <= i < size idxs_ds -> ds_at idxs_ds i <> _mv) ->
     Permutation (concat tree ++ loops) (range (length idxs_ds)) /\
     cells_partitioned (length idxs_ds) tree loops).
Proof.
  intros Hcons.
  destruct (first_empty_level idxs_ds idxs_us Hcons) as (K & HK & He & Hne).
  destruct (traversals_return idxs_ds idxs_us Hcons K HK He Hne)
    as [Htree Hloops].
  assert (Hmv : size idxs_ds <= _mv) by apply Hcons.
  exists (pits idxs_ds), K. eexists. eexists.
  split; [now apply pit_indices_pits|].
  split; [exact Htree|]. split; [exact Hloops|].
  rewrite <- flat_map_concat_map. fold (all_levels idxs_ds idxs_us K).
  set (loops := filter _ _).
  assert (Hin_loops : forall i, In i loops <->
            0 <= i < size idxs_ds /\ ds_at idxs_ds i <> _mv /\
            ~ In i (all_levels idxs_ds idxs_us K)).
  { intros i. unfold loops. rewrite filter_In, in_range, negb_true_iff.
    rewrite orb_false_iff, mem_false, Z.eqb_neq. unfold size. tauto. }
  assert (Hlv : forall i, In i (all_levels idxs_ds idxs_us K) ->
            0 <= i < size idxs_ds /\ ds_at idxs_ds i <> _mv).
  { intros i Hi. apply (in_all_levels idxs_ds idxs_us Hcons) in Hi.
    destruct Hi as (j & _ & Hi). split; [now apply at_depth_range in Hi|].
    apply at_depth_target in Hi. lia. }
  assert (Hnd : NoDup (all_levels idxs_ds idxs_us K ++ loops)).
  { apply NoDup_app.
    - now apply NoDup_all_levels.
    - apply NoDup_filter, NoDup_range.
    - intros i Hi Hi'. apply Hin_loops in Hi'. tauto. }
  assert (Hin_tree : forall i lvl,
            In lvl (map (level idxs_ds idxs_us) (seq 0 K)) -> In i lvl ->
            In i (all_levels idxs_ds idxs_us K)).
  { intros i lvl Hlvl Hi. unfold all_levels. apply in_flat_map.
    apply in_map_iff in Hlvl. destruct Hlvl as (k & <- & Hk). eauto. }
  split; [|split].
  - apply NoDup_Permutation; auto.
    + apply NoDup_filter, NoDup_range.
    + intros i. rewrite in_app_iff, filter_In, in_range, Hin_loops.
      rewrite negb_true_iff, Z.eqb_neq. fold (size idxs_ds). split.
      * intros [Hi|Hi]; [now apply Hlv | tauto].
      * intros Hi.
        destruct (in_dec Z.eq_dec i (all_levels idxs_ds idxs_us K)); tauto.
  - intros i Hi Hs. split.
    + rewrite Hin_loops. tauto.
    + intros lvl Hlvl Hi'. apply (Hin_tree i lvl Hlvl) in Hi'.
      apply Hlv in Hi'. tauto.
  - intros Hns. split.
    + apply NoDup_Permutation; auto using NoDup_range.
      intros i. rewrite in_app_iff, in_range, Hin_loops.
      fold (size idxs_ds). split.
      * intros [Hi|Hi]; [now apply Hlv | tauto].
      * intros Hi. specialize (Hns i Hi).
        destruct (in_dec Z.eq_dec i (all_levels idxs_ds idxs_us K)); tauto.
    + intros i Hi. fold (size idxs_ds) in Hi. specialize (Hns i Hi).
      assert (Hnth : forall k,
                In i (nth k (map (level idxs_ds idxs_us) (seq 0 K)) [])
                <-> (k < K)%nat /\ In i (level idxs_ds idxs_us k)).
      { intros k. destruct (Nat.ltb_spec k K) as [Hlt|Hge].
        - rewrite (nth_indep _ _ (level idxs_ds idxs_us 0))
            by (now rewrite length_map, length_seq).
          rewrite map_nth, seq_nth by auto. simpl. tauto.
        - rewrite nth_overflow by (now rewrite length_map, length_seq).
          simpl. split; [tauto | lia]. }
      destruct (in_dec Z.eq_dec i (all_levels idxs_ds idxs_us K))
        as [Hin|Hnot].
      * right. split; [rewrite Hin_loops; tauto|].
        apply (in_all_levels idxs_ds idxs_us Hcons) in Hin.
        destruct Hin as (k & Hk & Hd). exists k. split.
        -- apply Hnth. split; auto. now apply in_level.
        -- intros k' Hk'. apply Hnth in Hk'. destruct Hk' as [_ Hk'].
           apply (in_level idxs_ds idxs_us Hcons) in Hk'.
           apply (at_depth_unique idxs_ds k' k i); auto.
      * left. split; [rewrite Hin_loops; tauto|].
        intros lvl Hlvl Hi'. apply Hnot. now apply (Hin_tree i lvl).
Qed.

Lemma tree_levels_and_loops_partition_witness :
  consistent [0; 0; _mv] [[1]; [_mv]; [_mv]] /\
  exists idxs_pits fuel tree loops,
    pit_indices [0; 0; _mv] = inr idxs_pits /\
    network_tree fuel idxs_pits [[1]; [_mv]; [_mv]] = inr tree /\
    loop_indices fuel [0; 0; _mv] [[1]; [_mv]; [_mv]] = inr loops /\
    Permutation (concat tree ++ loops)
      (filter (fun i => negb (ds_at [0; 0; _mv] i =? _mv))
              (range (length [0; 0; _mv]))) /\
    (forall i, 0 <= i < size [0; 0; _mv] -> ds_at [0; 0; _mv] i = _mv ->
       ~ In i loops /\ forall lvl, In lvl tree -> ~ In i lvl) /\
    ((forall i, 0 <= i < size [0; 0; _mv] -> ds_at [0; 0; _mv] i <> _mv) ->
     Permutation (concat tree ++ loops) (range (length [0; 0; _mv])) /\
     cells_partitioned (length [0; 0; _mv]) tree loops).
Proof.
  split; [exact consistent_sentinel_example|].
  apply (tree_levels_and_loops_partition [0; 0; _mv] [[1]; [_mv]; [_mv]]).
  exact consistent_sentinel_example.
Defined.

Example tree_and_loops_12243 :
  _idxs_us [1; 2; 2; 4; 3] = inr [[_mv]; [0]; [1]; [4]; [3]] /\
  network_tree 3 [2] [[_mv]; [0]; [1]; [4]; [3]] = inr [[2]; [1]; [0]] /\
  loop_indices 3 [1; 2; 2; 4; 3] [[_mv]; [0]; [1]; [4]; [3]] = inr [3; 4].
Proof. repeat split. Qed.

(** ** Loop detection and the sentinel *)

(** C3 fails as stated: cell 2 below has the sentinel as its downstream
    target, yet loop detection does not report it. *)
Lemma loop_indices_sentinel_counterexample :
  consistent [0; 0; _mv] [[1]; [_mv]; [_mv]] /\
  exists loops,
    loop_indices 2 [0; 0; _mv] [[1]; [_mv]; [_mv]] = inr loops /\
    ~ loops_as_specified [0; 0; _mv] [[1]; [_mv]; [_mv]] loops.
Proof.
  split; [exact consistent_sentinel_example|].
  exists []. split; [reflexivity|].
  intros H. specialize (H 2 ltac:(unfold size; simpl; lia)).
  destruct H as [_ H]. apply H. now right.
Qed.

(** C3, amended.  For every downstream array and consistent upstream
    table, loop detection returns, and reports exactly the cells whose
    downstream target is not the sentinel and that the breadth-first
    expansion from the pits along the upstream table never marks. *)
Theorem loop_indices_unmarked (idxs_ds : list Z) (idxs_us : list (list Z)) :
  consistent idxs_ds idxs_us ->
  exists fuel loops,
    loop_indices fuel idxs_ds idxs_us = inr loops /\
    forall i, In i loops <->
      0 <= i < size idxs_ds /\ ds_at idxs_ds i <> _mv /\
      ~ marked idxs_ds idxs_us i.
Proof.
  intros Hcons.
  destruct (first_empty_level idxs_ds idxs_us Hcons) as (K & HK & He & Hne).
  destruct (traversals_return idxs_ds idxs_us Hcons K HK He Hne) as [_ Hloops].
  exists K. eexists. split; [exact Hloops|].
  intros i. rewrite filter_In, in_range, negb_true_iff, orb_false_iff.
  rewrite mem_false, Z.eqb_neq, (marked_all_levels idxs_ds idxs_us K i He).
  unfold size. tauto.
Qed.

Lemma loop_indices_unmarked_witness :
  consistent [0; 0; _mv] [[1]; [_mv]; [_mv]] /\
  exists fuel loops,
    loop_indices fuel [0; 0; _mv] [[1]; [_mv]; [_mv]] = inr loops /\
    forall i, In i loops <->
      0 <= i < size [0; 0; _mv] /\ ds_at [0; 0; _mv] i <> _mv /\
      ~ marked [0; 0; _mv] [[1]; [_mv]; [_mv]] i.
Proof.
  split; [exact consistent_sentinel_example|].
  apply (loop_indices_unmarked [0; 0; _mv] [[1]; [_mv]; [_mv]]).
  exact consistent_sentinel_example.
Defined.

(** ** The two-cell loop *)

(** C4 fails as stated: the tree of the array [[1; 0]] is never the empty
    sequence, because the level of the pits is appended before the loop. *)
Lemma network_tree_no_pits_counterexample :
  ~ (pit_indices [1; 0] = inr [] /\
     (exists fuel, loop_indices fuel [1; 0] [[1]; [0]] = inr [0; 1]) /\
     (exists fuel, network_tree fuel [] [[1]; [0]] = inr [])).
Proof.
  intros (_ & _ & [fuel H]). destruct fuel as [|fuel]; discriminate.
Qed.

(** C4, amended.  For the downstream array [[1; 0]] pit detection returns
    the empty array, loop detection returns cells 0 and 1, and the network
    tree has exactly one level, the empty level of the pits. *)
Theorem two_cell_loop :
  pit_indices [1; 0] = inr [] /\
  _idxs_us [1; 0] = inr [[1]; [0]] /\
  (forall fuel, loop_indices (S fuel) [1; 0] [[1]; [0]] = inr [0; 1]) /\
  (forall fuel, network_tree (S fuel) [] [[1]; [0]] = inr [[]]).
Proof. repeat split. Qed.

(** ** Downstream path *)

Lemma u32_small (x : Z) : 0 <= x < 2 ^ 32 -> u32 x = x.
Proof. intros H. unfold u32. now apply Z.mod_small. Qed.

Lemma u32_array_spec (a : list Z) :
  u32_array a = true <-> Forall (fun x => 0 <= x < 2 ^ 32) a.
Proof.
  unfold u32_array. rewrite forallb_forall, Forall_forall.
  split; intros H x Hx; specialize (H x Hx).
  - apply andb_true_iff in H. destruct H as [H1 H2].
    apply Z.leb_le in H1. apply Z.ltb_lt in H2. lia.
  - apply andb_true_iff. split; [apply Z.leb_le | apply Z.ltb_lt]; lia.
Qed.

Lemma getitem_In {A} (a : list A) (i : Z) (x : A) :
  getitem a i = inr x -> In x a.
Proof.
  unfold getitem. intros H. inv_bind H.
  destruct (nth_error a a0) eqn:E'; [|discriminate].
  inversion H; subst. eapply nth_error_In; eauto.
Qed.

Lemma downstream_path_loop_S (fuel : nat) (idx0 : Z) (ds idxs : list Z) :
  downstream_path_loop (S fuel) idx0 ds idxs =
  (idx_ds <- getitem ds idx0 ;;
   if idx0 =? idx_ds then ret idxs
   else downstream_path_loop fuel idx_ds ds (idxs ++ [u32 idx_ds])).
Proof. reflexivity. Qed.

Lemma downstream_path_loop_reaches (ds : list Z) (k : nat) :
  u32_array ds = true ->
  forall (i p : Z) (acc : list Z),
  hops ds k i = inr p -> downstream p ds = inr p ->
  exists fuel rest,
    downstream_path_loop fuel i ds acc = inr (acc ++ rest) /\
    path_to_pit ds i (i :: rest) /\
    Forall (fun x => 0 <= x < 2 ^ 32) rest.
Proof.
  intros Hu. apply u32_array_spec in Hu. rewrite Forall_forall in Hu.
  induction k as [|k IH]; intros i p acc Hh Hp; simpl in Hh.
  - inversion Hh; subst. exists 1%nat, []. rewrite downstream_path_loop_S.
    unfold downstream in Hp. rewrite Hp. simpl. rewrite Z.eqb_refl.
    rewrite app_nil_r. repeat split; [now apply path_pit | constructor].
  - inv_bind Hh. rename a into j.
    destruct (Z.eq_dec i j) as [->|Hne].
    + exists 1%nat, []. rewrite downstream_path_loop_S.
      unfold downstream in E. rewrite E. simpl. rewrite Z.eqb_refl.
      rewrite app_nil_r. repeat split; [now apply path_pit | constructor].
    + destruct (IH j p (acc ++ [u32 j]) Hh Hp) as (fuel & rest & Hl & Hpath & Hr).
      assert (Hj : 0 <= j < 2 ^ 32) by (apply Hu; eapply getitem_In; eauto).
      exists (S fuel), (j :: rest). rewrite downstream_path_loop_S.
      unfold downstream in E. rewrite E. cbn [bind].
      destruct (Z.eqb_spec i j); [congruence|].
      rewrite Hl, <- app_assoc, u32_small by auto. simpl.
      repeat split; [|constructor; auto].
      apply (path_hop ds i j); auto.
Qed.

(** C8.  From every starting cell from which repeated single-hop
    downstream lookups reach a self-targeting cell, [downstream_path]
    returns, and what it returns is the sequence of visited cells from the
    start to its pit inclusive; on a pit it returns just that pit. *)
Theorem downstream_path_to_pit (idxs_ds : list Z) (idx0 : Z) :
  u32_array idxs_ds = true -> 0 <= idx0 < 2 ^ 32 ->
  (exists k p, hops idxs_ds k idx0 = inr p /\ downstream p idxs_ds = inr p) ->
  (exists fuel path,
     downstream_path fuel idx0 idxs_ds = inr path /\
     path_to_pit idxs_ds idx0 path) /\
  (downstream idx0 idxs_ds = inr idx0 ->
   forall fuel, downstream_path (S fuel) idx0 idxs_ds = inr [idx0]).
Proof.
  intros Hu H0 (k & p & Hh & Hp). split.
  - destruct (downstream_path_loop_reaches idxs_ds k Hu idx0 p [idx0] Hh Hp)
      as (fuel & rest & Hl & Hpath & Hr).
    exists fuel, (idx0 :: rest). split; auto.
    unfold downstream_path. rewrite Hl. simpl.
    rewrite u32_small by auto. do 2 f_equal.
    rewrite <- (map_id rest) at 2. apply map_ext_in. intros x Hx.
    rewrite Forall_forall in Hr. now apply u32_small, Hr.
  - intros Hpit fuel. unfold downstream_path.
    rewrite downstream_path_loop_S. unfold downstream in Hpit.
    rewrite Hpit. simpl. rewrite Z.eqb_refl. simpl.
    now rewrite u32_small.
Qed.

Lemma downstream_path_to_pit_witness :
  u32_array [1; 2; 2] = true /\ 0 <= 0 < 2 ^ 32 /\
  (exists k p, hops [1; 2; 2] k 0 = inr p /\ downstream p [1; 2; 2] = inr p) /\
  (exists fuel path,
     downstream_path fuel 0 [1; 2; 2] = inr path /\
     path_to_pit [1; 2; 2] 0 path) /\
  (downstream 0 [1; 2; 2] = inr 0 ->
   forall fuel, downstream_path (S fuel) 0 [1; 2; 2] = inr [0]).
Proof.
  assert (Hp : exists k p, hops [1; 2; 2] k 0 = inr p /\
                           downstream p [1; 2; 2] = inr p)
    by (exists 2%nat, 2; split; reflexivity).
  split; [reflexivity|]. split; [lia|]. split; [exact Hp|].
  apply (downstream_path_to_pit [1; 2; 2] 0); [reflexivity | lia | exact Hp].
Defined.

(** On the two-cell loop the path never ends, whatever the bound. *)
Example downstream_path_122 :
  downstream_path 3 0 [1; 2; 2] = inr [0; 1; 2] /\
  downstream_path 1 2 [1; 2; 2] = inr [2] /\
  forall fuel, downstream_path fuel 0 [1; 0] = inl OutOfFuel.
Proof.
  repeat split. intros fuel. unfold downstream_path.
  assert (H : forall f acc,
            downstream_path_loop f 0 [1; 0] acc = inl OutOfFuel /\
            downstream_path_loop f 1 [1; 0] acc = inl OutOfFuel).
  { induction f as [|f IH]; intros acc; split; auto;
      rewrite downstream_path_loop_S; simpl; apply IH. }
  now rewrite (proj1 (H fuel [0])).
Qed.

(** ** Weighted selection of the main upstream cell *)

Lemma left_packed_cons (e : Z) (row : list Z) :
  left_packed (e :: row) = true ->
  (e = _mv /\ Forall (fun y => y = _mv) row) \/
  (e <> _mv /\ left_packed row = true).
Proof.
  simpl. destruct (Z.eqb_spec e _mv) as [->|Hne]; intros H.
  - left. split; auto. rewrite forallb_forall in H. apply Forall_forall.
    intros y Hy. now apply Z.eqb_eq, H.
  - now right.
Qed.

Lemma mapM_Forall2 {A B} (f : A -> result B) (xs : list A) :
  (forall x, In x xs -> exists y, f x = inr y) ->
  exists ys, mapM f xs = inr ys /\ Forall2 (fun x y => f x = inr y) xs ys.
Proof.
  induction xs as [|x xs IH]; intros H; simpl.
  - exists []. split; [reflexivity | constructor].
  - destruct (H x (or_introl eq_refl)) as [y Hy].
    destruct IH as (ys & Hys & Hall); [intros; apply H; now right|].
    exists (y :: ys). rewrite Hy, Hys. split; [reflexivity|].
    now constructor.
Qed.

Section MainUpstream.

Variable W : Type.
Variable geb : W -> W -> bool.

(** [>=] is transitive, and total among the weights above a common bound
    (for floating-point numbers: among those that are not NaN). *)
Hypothesis geb_trans :
  forall a b c, geb a b = true -> geb b c = true -> geb a c = true.
Hypothesis geb_total :
  forall a b c, geb a c = true -> geb b c = true ->
                geb a b = true \/ geb b a = true.

Variable uparea_sparse : list W.
Variable upa_min : W.

Lemma selects_app_mv (seen tail : list Z) (r : Z) :
  selects geb uparea_sparse upa_min seen r ->
  Forall (fun y => y = _mv) tail ->
  selects geb uparea_sparse upa_min (seen ++ tail) r.
Proof.
  intros Hsel Ht. rewrite Forall_forall in Ht.
  destruct Hsel as [[Hr Hno]|(Hr & wr & Hw & Hmin & Hmax & l1 & l2 & Hrow & Hlast)].
  - left. split; auto. intros e we He Hne. apply in_app_iff in He.
    destruct He as [He|He]; [now apply (Hno e we) | now apply Ht in He].
  - right. split; auto. exists wr. repeat split; auto.
    + intros e we He Hne. apply in_app_iff in He.
      destruct He as [He|He]; [now apply (Hmax e we) | now apply Ht in He].
    + exists l1, (l2 ++ tail). split; [rewrite Hrow, <- app_assoc; reflexivity|].
      intros e we He Hne. apply in_app_iff in He.
      destruct He as [He|He]; [now apply (Hlast e we) | now apply Ht in He].
Qed.

(** The scan of a row: [seen] is the part of the row already read. *)
Lemma _main_upstream_scan_selects (row : list Z) :
  forall (seen : list Z) (i0 : Z) (u0 : W) (r : Z),
  left_packed row = true ->
  selects geb uparea_sparse upa_min seen i0 ->
  (i0 = _mv -> u0 = upa_min) ->
  (i0 <> _mv -> getitem uparea_sparse i0 = inr u0) ->
  _main_upstream_scan geb row uparea_sparse i0 u0 = inr r ->
  selects geb uparea_sparse upa_min (seen ++ row) r.
Proof.
  induction row as [|e row IH]; intros seen i0 u0 r Hp Hsel Hmv Hu Hscan.
  - simpl in Hscan. injection Hscan as <-. now rewrite app_nil_r.
  - apply left_packed_cons in Hp. simpl in Hscan.
    destruct Hp as [[-> Hall]|[Hne Hp]].
    + rewrite Z.eqb_refl in Hscan. injection Hscan as <-.
      apply selects_app_mv; auto.
    + destruct (Z.eqb_spec e _mv); [congruence|].
      inv_bind Hscan. rename a into we.
      replace (seen ++ e :: row) with ((seen ++ [e]) ++ row)
        by (now rewrite <- app_assoc).
      destruct (geb we u0) eqn:Hge.
      * (* the entry becomes the selection *)
        apply (IH (seen ++ [e]) e we r); auto; [|congruence].
        right. split; auto. exists we.
        assert (Hwmin : geb we upa_min = true).
        { destruct Hsel as [[Hr _]|(Hr & wr & Hw & Hmin & _)].
          - now rewrite <- (Hmv Hr).
          - rewrite (Hu Hr) in Hw. injection Hw as <-.
            now apply (geb_trans we u0 upa_min). }
        repeat split; auto.
        -- intros e' we' He' Hne' Hw' Hq. apply in_app_iff in He'.
           destruct He' as [He'|[<-|[]]].
           ++ destruct Hsel as [[Hr Hno]|(Hr & wr & Hw & Hmin & Hmax & _)].
              ** rewrite (Hno e' we') in Hq; auto. discriminate.
              ** rewrite (Hu Hr) in Hw. injection Hw as <-.
                 apply (geb_trans we u0 we'); auto. now apply (Hmax e' we').
           ++ rewrite E in Hw'. injection Hw' as <-.
              destruct (geb_total we we upa_min); auto.
        -- exists seen, []. split; auto. intros ? ? [].
      * (* the selection stays *)
        apply (IH (seen ++ [e]) i0 u0 r); auto.
        destruct Hsel as [[Hr Hno]|(Hr & wr & Hw & Hmin & Hmax & l1 & l2 & Hrow & Hlast)].
        -- left. split; auto. intros e' we' He' Hne' Hw'.
           apply in_app_iff in He'. destruct He' as [He'|[<-|[]]].
           ++ now apply (Hno e' we').
           ++ rewrite E in Hw'. injection Hw' as <-.
              now rewrite <- (Hmv Hr).
        -- right. split; auto. exists wr.
           rewrite (Hu Hr) in Hw. injection Hw as <-.
           repeat split; auto.
           ++ intros e' we' He' Hne' Hw' Hq. apply in_app_iff in He'.
              destruct He' as [He'|[<-|[]]]; [now apply (Hmax e' we')|].
              rewrite E in Hw'. injection Hw' as <-.
              destruct (geb_total we u0 upa_min) as [H|H]; auto.
              congruence.
           ++ exists l1, (l2 ++ [e]).
              split; [rewrite Hrow, <- app_assoc; reflexivity|].
              intros e' we' He' Hne' Hw'. apply in_app_iff in He'.
              destruct He' as [He'|[<-|[]]]; [now apply (Hlast e' we')|].
              rewrite E in Hw'. injection Hw' as <-. exact Hge.
Qed.

Lemma _main_upstream_scan_returns (row : list Z) :
  (forall e, In e row -> e <> _mv -> 0 <= e < size uparea_sparse) ->
  forall (i0 : Z) (u0 : W),
  exists r, _main_upstream_scan geb row uparea_sparse i0 u0 = inr r.
Proof.
  induction row as [|e row IH]; intros Hr i0 u0; simpl; eauto.
  destruct (Z.eqb_spec e _mv) as [->|Hne]; eauto.
  assert (He : 0 <= e < size uparea_sparse) by (apply Hr; [now left | auto]).
  destruct (nth_error uparea_sparse (Z.to_nat e)) as [we|] eqn:E.
  - assert (Hg : getitem uparea_sparse e = inr we).
    { replace e with (Z.of_nat (Z.to_nat e)) by lia. now apply getitem_nat. }
    rewrite Hg. simpl.
    destruct (geb we u0); apply IH; intros; apply Hr; auto; now right.
  - apply nth_error_None in E. unfold size in He. lia.
Qed.

Lemma _main_upstream_selects (idx0 : Z) (idxs_us : list (list Z)) :
  0 <= idx0 < size idxs_us ->
  left_packed (row_of idxs_us idx0) = true ->
  (forall e, In e (row_of idxs_us idx0) -> e <> _mv ->
             0 <= e < size uparea_sparse) ->
  exists r,
    _main_upstream geb idx0 idxs_us uparea_sparse upa_min = inr r /\
    selects geb uparea_sparse upa_min (row_of idxs_us idx0) r.
Proof.
  intros Hi Hp Hr. unfold _main_upstream.
  assert (Hg : getitem idxs_us idx0 = inr (row_of idxs_us idx0)).
  { replace idx0 with (Z.of_nat (Z.to_nat idx0)) at 1 by lia.
    apply getitem_nat. unfold row_of.
    apply nth_error_nth'. unfold size in Hi. lia. }
  rewrite Hg. simpl.
  destruct (_main_upstream_scan_returns _ Hr _mv upa_min) as [r Hscan].
  exists r. split; auto.
  apply (_main_upstream_scan_selects _ [] _mv upa_min r); auto.
  - left. split; auto. intros ? ? [].
  - intros H. now contradiction H.
Qed.

End MainUpstream.

(** *** The order of binary64 weights *)

Ltac cmp_cases :=
  repeat match goal with
  | H : context [Z.compare ?x ?y] |- _ =>
      destruct (Z.compare_spec x y); subst
  | |- context [Z.compare ?x ?y] =>
      destruct (Z.compare_spec x y); subst
  | H : context [Pos.compare_cont Eq ?x ?y] |- _ =>
      change (Pos.compare_cont Eq x y) with (Pos.compare x y) in *;
      destruct (Pos.compare_spec x y); subst
  | |- context [Pos.compare_cont Eq ?x ?y] =>
      change (Pos.compare_cont Eq x y) with (Pos.compare x y) in *;
      destruct (Pos.compare_spec x y); subst
  end.

Lemma SFleb_trans (a b c : SpecFloat.spec_float) :
  SpecFloat.SFleb a b = true -> SpecFloat.SFleb b c = true ->
  SpecFloat.SFleb a c = true.
Proof.
  unfold SpecFloat.SFleb, SpecFloat.SFcompare.
  destruct a as [sa|sa| |sa ma ea], b as [sb|sb| |sb mb eb],
    c as [sc|sc| |sc mc ec];
    try discriminate; try reflexivity;
    try destruct sa; try destruct sb; try destruct sc;
    try discriminate; try reflexivity;
    intros H1 H2; cmp_cases; simpl in *;
    try discriminate; try reflexivity; try lia.
Qed.

Lemma SFleb_total (a b c : SpecFloat.spec_float) :
  SpecFloat.SFleb c a = true -> SpecFloat.SFleb c b = true ->
  SpecFloat.SFleb b a = true \/ SpecFloat.SFleb a b = true.
Proof.
  unfold SpecFloat.SFleb, SpecFloat.SFcompare.
  destruct a as [sa|sa| |sa ma ea], b as [sb|sb| |sb mb eb],
    c as [sc|sc| |sc mc ec];
    try discriminate; auto;
    try destruct sa; try destruct sb; try destruct sc;
    try discriminate; auto;
    intros H1 H2; cmp_cases; simpl in *;
    try discriminate; auto; try lia.
Qed.

(** [>=] on binary64 numbers is transitive, and total among the numbers
    above a common bound, none of which is NaN. *)
Lemma float_geb_trans (a b c : PrimFloat.float) :
  float_geb a b = true -> float_geb b c = true -> float_geb a c = true.
Proof.
  unfold float_geb. rewrite !FloatAxioms.leb_spec.
  intros H1 H2. eapply SFleb_trans; eauto.
Qed.

Lemma float_geb_total (a b c : PrimFloat.float) :
  float_geb a c = true -> float_geb b c = true ->
  float_geb a b = true \/ float_geb b a = true.
Proof.
  unfold float_geb. rewrite !FloatAxioms.leb_spec. apply SFleb_total.
Qed.

(** C5.  For every weight type whose [>=] is transitive and total above a
    bound, every upstream table with left-packed rows whose cells index
    the weight array, every weight array with one weight per row of the
    table, and all input cells: [main_upstream] returns one index per
    input cell, and each is the sentinel when no cell of the row weighs at
    least [upa_min], and otherwise a cell of the row that weighs at least
    [upa_min], at least as much as every qualifying cell of the row, and
    strictly more than every cell behind it in the row: among equal maxima
    the last one. *)
Theorem main_upstream_largest_last (W : Type) (geb : W -> W -> bool)
  (idxs : list Z) (idxs_us : list (list Z)) (uparea_sparse : list W)
  (upa_min : W) :
  (forall a b c, geb a b = true -> geb b c = true -> geb a c = true) ->
  (forall a b c, geb a c = true -> geb b c = true ->
                 geb a b = true \/ geb b a = true) ->
  size idxs_us = size uparea_sparse ->
  Forall (fun idx0 => 0 <= idx0 < size idxs_us) idxs ->
  Forall (fun row => left_packed row = true /\
                     Forall (fun e => e <> _mv -> 0 <= e < size uparea_sparse)
                            row) idxs_us ->
  exists idxs_us_main,
    main_upstream geb idxs idxs_us uparea_sparse upa_min = inr idxs_us_main /\
    Forall2 (fun idx0 r =>
               exists row, getitem idxs_us idx0 = inr row /\
                           selects geb uparea_sparse upa_min row r)
            idxs idxs_us_main.
Proof.
  intros Htrans Htotal Hsize Hidxs Hrows.
  rewrite Forall_forall in Hidxs, Hrows.
  unfold main_upstream. rewrite Hsize, Z.eqb_refl. simpl.
  assert (Hrow : forall idx0, In idx0 idxs ->
            getitem idxs_us idx0 = inr (row_of idxs_us idx0) /\
            In (row_of idxs_us idx0) idxs_us).
  { intros idx0 Hin. specialize (Hidxs idx0 Hin). unfold size in Hidxs.
    assert (Hn : nth_error idxs_us (Z.to_nat idx0) = Some (row_of idxs_us idx0))
      by (unfold row_of; apply nth_error_nth'; lia).
    split; [|eapply nth_error_In; eauto].
    replace idx0 with (Z.of_nat (Z.to_nat idx0)) at 1 by lia.
    now apply getitem_nat. }
  destruct (mapM_Forall2
    (fun i => _main_upstream geb i idxs_us uparea_sparse upa_min) idxs)
    as (res & Hres & Hall).
  { intros idx0 Hin. destruct (Hrow idx0 Hin) as [_ Hin'].
    destruct (Hrows _ Hin') as [Hp Hr]. rewrite Forall_forall in Hr.
    destruct (_main_upstream_selects W geb Htrans Htotal uparea_sparse
                upa_min idx0 idxs_us) as (r & Hr' & _); eauto. }
  exists res. split; auto.
  clear Hres. induction Hall as [|idx0 r idxs' res' Hr Hall IH]; constructor.
  - destruct (Hrow idx0 (or_introl eq_refl)) as [Hget Hin'].
    destruct (Hrows _ Hin') as [Hp Hrng]. rewrite Forall_forall in Hrng.
    destruct (_main_upstream_selects W geb Htrans Htotal uparea_sparse
                upa_min idx0 idxs_us) as (r' & Hr' & Hsel);
      [apply Hidxs; now left | auto | auto |].
    rewrite Hr in Hr'. injection Hr' as <-. eauto.
  - apply IH.
    + intros; apply Hidxs; now right.
    + intros; apply Hrow; now right.
Qed.

(** Binary64 weights: cells 1 and 2 tie for the maximum and the later one
    wins; the weight of cell 3 is NaN and never qualifies. *)
Lemma main_upstream_largest_last_witness :
  let idxs_us := [[1; 2; 3]; [_mv; _mv; _mv]; [_mv; _mv; _mv]; [_mv; _mv; _mv]] in
  let uparea_sparse :=
    [PrimFloat.zero; PrimFloat.two; PrimFloat.two; PrimFloat.nan] in
  main_upstream float_geb [0; 1] idxs_us uparea_sparse PrimFloat.one
    = inr [2; _mv] /\
  exists idxs_us_main,
    main_upstream float_geb [0; 1] idxs_us uparea_sparse PrimFloat.one
      = inr idxs_us_main /\
    Forall2 (fun idx0 r =>
               exists row, getitem idxs_us idx0 = inr row /\
                           selects float_geb uparea_sparse PrimFloat.one row r)
            [0; 1] idxs_us_main.
Proof.
  intros idxs_us uparea_sparse. split; [reflexivity|].
  apply (main_upstream_largest_last PrimFloat.float float_geb).
  - exact float_geb_trans.
  - exact float_geb_total.
  - reflexivity.
  - repeat apply Forall_cons; try apply Forall_nil; unfold size; simpl; lia.
  - repeat apply Forall_cons; try apply Forall_nil;
      (split; [reflexivity|]);
      repeat apply Forall_cons; try apply Forall_nil;
      unfold size; simpl; lia.
Defined.

(** ** Index translator *)

Lemma norm_index_error (n i : Z) (e : exn) :
  norm_index n i = inl e -> e = OutOfBounds.
Proof.
  unfold norm_index.
  destruct ((0 <=? i) && (i <? n)); [discriminate|].
  destruct ((- n <=? i) && (i <? 0)); [discriminate|].
  simpl. congruence.
Qed.

Lemma getitem_error {A} (a : list A) (i : Z) (e : exn) :
  getitem a i = inl e -> e = OutOfBounds.
Proof.
  unfold getitem. destruct (norm_index (size a) i) as [e'|k] eqn:E; simpl.
  - intros [= <-]. eapply norm_index_error; eauto.
  - destruct (nth_error a k); simpl; congruence.
Qed.

Lemma setitem_error {A} (a : list A) (i : Z) (x : A) (e : exn) :
  setitem a i x = inl e -> e = OutOfBounds.
Proof.
  unfold setitem. destruct (norm_index (size a) i) as [e'|k] eqn:E; simpl.
  - intros [= <-]. eapply norm_index_error; eauto.
  - discriminate.
Qed.

Lemma take_error {A} (a : list A) (idxs : list Z) (e : exn) :
  take a idxs = inl e -> e = OutOfBounds.
Proof.
  unfold take. induction idxs as [|i idxs IH]; simpl; [discriminate|].
  destruct (getitem a i) as [e'|x] eqn:E; simpl.
  - intros [= <-]. eapply getitem_error; eauto.
  - destruct (mapM (getitem a) idxs); simpl; [|discriminate].
    intros [= <-]. now apply IH.
Qed.

Lemma put_error {A} (idxs : list Z) :
  forall (a vals : list A) (e : exn),
  length vals = length idxs ->
  put a idxs vals = inl e -> e = OutOfBounds.
Proof.
  induction idxs as [|i idxs IH]; intros a [|v vals] e Hlen; simpl in *;
    try discriminate.
  destruct (setitem a i v) as [e'|a'] eqn:E; simpl.
  - intros [= <-]. eapply setitem_error; eauto.
  - apply IH. lia.
Qed.

Lemma put_last_write {B} (n : nat) (idxs : list Z) :
  (forall i, In i idxs -> 0 <= i < Z.of_nat n) ->
  forall (vals : list B) (f : Z -> B),
  length vals = length idxs ->
  put (map f (range n)) idxs vals =
  inr (map (fun c => match last_write c idxs vals with
                     | Some v => v
                     | None => f c
                     end) (range n)).
Proof.
  induction idxs as [|i idxs IH]; intros H [|v vals] f Hlen;
    try discriminate; [reflexivity|]. simpl.
  - rewrite setitem_map_range by (apply H; now left). simpl.
    rewrite IH by (try (intros; apply H; now right); simpl in Hlen; lia).
    f_equal. apply map_ext. intros c.
    destruct (last_write c idxs vals); auto.
    now destruct (c =? i).
Qed.

Lemma last_write_None {B} (c : Z) (idxs : list Z) :
  forall vals : list B, length vals = length idxs ->
  (last_write c idxs vals = None <-> ~ In c idxs).
Proof.
  induction idxs as [|i idxs IH]; intros [|v vals] Hlen; simpl in *;
    try discriminate; try tauto.
  specialize (IH vals ltac:(lia)).
  destruct (last_write c idxs vals).
  - split; [discriminate|]. intros H. exfalso.
    assert (Some b = None -> False) by discriminate. tauto.
  - destruct (Z.eqb_spec c i) as [->|Hne].
    + split; [discriminate | tauto].
    + split; [|reflexivity]. intros _ [Heq|Hin]; [congruence | tauto].
Qed.

Lemma last_write_Some {B} (c : Z) (idxs : list Z) :
  forall (vals : list B) (v : B),
  length vals = length idxs ->
  last_write c idxs vals = Some v ->
  exists p, nth_error idxs p = Some c /\ nth_error vals p = Some v /\
            forall p', nth_error idxs p' = Some c -> (p' <= p)%nat.
Proof.
  induction idxs as [|i idxs IH]; intros [|w vals] v Hlen; simpl in *;
    try discriminate.
  destruct (last_write c idxs vals) as [v'|] eqn:E.
  - intros [= <-]. destruct (IH vals v' ltac:(lia) E) as (p & Hp1 & Hp2 & Hp3).
    exists (S p). repeat split; auto.
    intros [|p'] Hp'; [lia|]. simpl in Hp'. apply Hp3 in Hp'. lia.
  - destruct (Z.eqb_spec c i) as [->|Hne]; [|discriminate].
    intros [= <-]. exists O. repeat split; auto.
    intros [|p'] Hp'; [lia|]. simpl in Hp'. exfalso.
    apply (last_write_None i idxs vals ltac:(lia)) in E. apply E.
    eapply nth_error_In; eauto.
Qed.

Lemma last_write_NoDup {B} (idxs : list Z) :
  forall vals : list B,
  NoDup idxs -> length vals = length idxs ->
  map (fun c => last_write c idxs vals) idxs = map Some vals.
Proof.
  induction idxs as [|i idxs IH]; intros [|v vals] Hnd Hlen; simpl in *;
    try discriminate; auto.
  inversion Hnd as [|? ? Hni Hnd']; subst.
  assert (E : last_write i idxs vals = None)
    by (apply last_write_None; [lia | auto]).
  rewrite E, Z.eqb_refl. f_equal.
  rewrite <- (IH vals Hnd' ltac:(lia)). apply map_ext_in.
  intros c Hc. destruct (last_write c idxs vals) eqn:E'; auto.
  apply last_write_None in E'; [contradiction | lia].
Qed.

Lemma repeat_map_range {B} (x : B) (n : nat) :
  repeat x n = map (fun _ => x) (range n).
Proof. symmetry. apply map_const_range. Qed.

Lemma map_u32_range (m : nat) :
  Z.of_nat m <= _mv -> map u32 (range m) = range m.
Proof.
  intros H. rewrite <- (map_id (range m)) at 2. apply map_ext_in.
  intros i Hi. apply in_range in Hi. rewrite mv_eq in H.
  apply u32_small. change (2 ^ 32) with 4294967296. lia.
Qed.

(** What [_sparse_idx] returns when its guard lets the indices pass and
    the valid cells lie inside the raster. *)
Lemma _sparse_idx_in_range (idxs idxs_dense : list Z) (size_ : Z) :
  0 <= size_ ->
  (forall i, In i idxs -> 0 <= i < size_) ->
  (forall c, In c idxs_dense -> 0 <= c < size_) ->
  size idxs_dense <= _mv ->
  _sparse_idx idxs idxs_dense size_ =
  inr (map (fun c => match last_write c idxs_dense
                             (range (length idxs_dense)) with
                     | Some v => v
                     | None => _mv
                     end) idxs).
Proof.
  intros Hpos Hi Hd Hmv. unfold _sparse_idx.
  replace (existsb (fun i => i <? 0) idxs) with false.
  2:{ symmetry. apply not_true_is_false. intros H.
      apply existsb_exists in H. destruct H as (i & Hin & Hlt).
      apply Z.ltb_lt in Hlt. specialize (Hi i Hin). lia. }
  replace (existsb (fun i => size_ <=? i) idxs) with false.
  2:{ symmetry. apply not_true_is_false. intros H.
      apply existsb_exists in H. destruct H as (i & Hin & Hle).
      apply Z.leb_le in Hle. specialize (Hi i Hin). lia. }
  simpl. unfold np_full.
  destruct (Z.ltb_spec size_ 0) as [Hneg|_]; [lia|].
  simpl. rewrite repeat_map_range, map_u32_range by exact Hmv.
  rewrite put_last_write
    by (try apply length_range; intros c Hc; specialize (Hd c Hc); lia).
  simpl. apply take_map_range. intros i Hin. specialize (Hi i Hin). lia.
Qed.

(** C7.  [_sparse_idx] raises its out-of-range error exactly when some
    input dense index is negative or at least the raster size.  When none
    is, and the valid cells lie inside the raster, it returns one sparse
    index per input: the sentinel for a dense index that is not in the
    valid-cell list, and otherwise the position of the dense index in the
    valid-cell list (the last one, should the list repeat it). *)
Theorem _sparse_idx_out_of_range (idxs idxs_dense : list Z) (size_ : Z) :
  (_sparse_idx idxs idxs_dense size_ = inl (ValueError "Index out of bounds")
   <-> exists i, In i idxs /\ (i < 0 \/ size_ <= i)) /\
  (0 <= size_ ->
   (forall i, In i idxs -> 0 <= i < size_) ->
   (forall c, In c idxs_dense -> 0 <= c < size_) ->
   size idxs_dense <= _mv ->
   exists idxs_sparse,
     _sparse_idx idxs idxs_dense size_ = inr idxs_sparse /\
     Forall2 (fun i r =>
                (~ In i idxs_dense -> r = _mv) /\
                (In i idxs_dense ->
                 0 <= r < size idxs_dense /\
                 nth_error idxs_dense (Z.to_nat r) = Some i /\
                 forall p, nth_error idxs_dense p = Some i ->
                           (p <= Z.to_nat r)%nat))
             idxs idxs_sparse).
Proof.
  split.
  - unfold _sparse_idx.
    destruct (existsb (fun i => i <? 0) idxs) eqn:E1; simpl.
    { split; auto. intros _. apply existsb_exists in E1.
      destruct E1 as (i & Hin & Hlt). apply Z.ltb_lt in Hlt. eauto. }
    destruct (existsb (fun i => size_ <=? i) idxs) eqn:E2; simpl.
    { split; auto. intros _. apply existsb_exists in E2.
      destruct E2 as (i & Hin & Hle). apply Z.leb_le in Hle. eauto. }
    split.
    + intros H. exfalso. unfold np_full in H.
      destruct (size_ <? 0); simpl in H; [discriminate|].
      destruct (put _ _ _) as [e|a] eqn:Ep; simpl in H.
      * apply put_error in Ep; [congruence|].
        now rewrite length_map, length_range.
      * apply take_error in H. discriminate.
    + intros (i & Hin & [Hlt|Hge]); exfalso.
      * assert (Ht : existsb (fun i => i <? 0) idxs = true)
          by (apply existsb_exists; exists i; split; auto;
              now apply Z.ltb_lt).
        congruence.
      * assert (Ht : existsb (fun i => size_ <=? i) idxs = true)
          by (apply existsb_exists; exists i; split; auto;
              now apply Z.leb_le).
        congruence.
  - intros Hpos Hi Hd Hmv. eexists. split; [now apply _sparse_idx_in_range|].
    clear Hi. induction idxs as [|i idxs IH]; simpl; constructor; auto.
    split.
    + intros Hni. apply (last_write_None i idxs_dense
        (range (length idxs_dense))) in Hni; [now rewrite Hni|].
      apply length_range.
    + intros Hin.
      destruct (last_write i idxs_dense (range (length idxs_dense)))
        as [r|] eqn:E.
      * apply last_write_Some in E; [|apply length_range].
        destruct E as (p & Hp1 & Hp2 & Hp3).
        assert (Hlt : (p < length idxs_dense)%nat)
          by (apply nth_error_Some; congruence).
        rewrite nth_error_range in Hp2 by auto. injection Hp2 as <-.
        rewrite Nat2Z.id. unfold size. repeat split; auto; lia.
      * apply last_write_None in E; [contradiction | apply length_range].
Qed.

Lemma _sparse_idx_out_of_range_witness :
  (_sparse_idx [4; 0; 3] [1; 3; 4] 6 = inr [2; _mv; 1]) /\
  (_sparse_idx [4; 6] [1; 3; 4] 6 = inl (ValueError "Index out of bounds")) /\
  exists idxs_sparse,
     _sparse_idx [4; 0; 3] [1; 3; 4] 6 = inr idxs_sparse /\
     Forall2 (fun i r =>
                (~ In i [1; 3; 4] -> r = _mv) /\
                (In i [1; 3; 4] ->
                 0 <= r < size [1; 3; 4] /\
                 nth_error [1; 3; 4] (Z.to_nat r) = Some i /\
                 forall p, nth_error [1; 3; 4] p = Some i ->
                           (p <= Z.to_nat r)%nat))
             [4; 0; 3] idxs_sparse.
Proof.
  split; [reflexivity|]. split; [reflexivity|].
  apply (proj2 (_sparse_idx_out_of_range [4; 0; 3] [1; 3; 4] 6)).
  - lia.
  - simpl. intros i Hi. lia.
  - simpl. intros c Hc. lia.
  - rewrite mv_eq. unfold size. simpl. lia.
Defined.

Lemma map_Some_inj {B} (l1 l2 : list B) :
  map Some l1 = map Some l2 -> l1 = l2.
Proof.
  revert l2; induction l1 as [|x l1 IH]; intros [|y l2] H;
    simpl in H; try discriminate; auto.
  injection H as -> H. f_equal. now apply IH.
Qed.

(** C6 fails as stated, here for [int64] values: the densified values are
    not dense indices.  With one valid cell in a raster of two, the nodata
    value at the other cell is rejected as an index out of bounds; and
    with two valid cells listed in descending order the translation of the
    values differs from them. *)
Lemma densify_sparse_idx_counterexample :
  ~ (forall (v idxs_dense : list Z) (shape : Z * Z) (nodata : Z)
            (dense : ndarray2 Z),
       _densify i64 v idxs_dense shape nodata = inr dense ->
       _sparse_idx (nd_flat dense) idxs_dense (fst shape * snd shape)
         = inr v).
Proof.
  intros H.
  assert (E : _densify i64 [0] [1] (1, 2) (-9999)
              = inr {| nd_shape := (1, 2); nd_flat := [-9999; 0] |})
    by (vm_compute; reflexivity).
  specialize (H [0] [1] (1, 2) (-9999) _ E).
  discriminate H.
Qed.

Example densify_sparse_idx_differs :
  _densify i64 [0; 0] [1; 0] (1, 2) (-9999)
    = inr {| nd_shape := (1, 2); nd_flat := [0; 0] |} /\
  _sparse_idx [0; 0] [1; 0] 2 = inr [1; 1].
Proof. split; reflexivity. Qed.

(** The fill value is stored in the element type of the values: the
    default [-9999] fills a raster of [uint8] values with [241]. *)
Example densify_fill_uint8 :
  _densify u8 [7; 8] [1; 3] (2, 2) (-9999)
    = inr {| nd_shape := (2, 2); nd_flat := [241; 7; 241; 8] |}.
Proof. reflexivity. Qed.

(** C6, amended.  For every sparse value array [v], list of distinct valid
    dense indices inside the raster with one index per value, raster shape
    and nodata value: [_densify] returns a raster of that shape which,
    read at the valid dense indices, recovers [v] exactly, and holds the
    nodata value, converted to the element type of [v], everywhere else;
    and [_sparse_idx] translates the valid dense indices to the sparse
    positions 0, 1, ... of [v]. *)
Theorem densify_read_back {A B} (astype : B -> A) (v : list A)
  (idxs_dense : list Z) (shape : Z * Z) (nodata : B) :
  NoDup idxs_dense ->
  (forall c, In c idxs_dense -> 0 <= c < fst shape * snd shape) ->
  length idxs_dense = length v ->
  0 <= fst shape -> 0 <= snd shape ->
  size idxs_dense <= _mv ->
  exists dense,
    _densify astype v idxs_dense shape nodata = inr dense /\
    nd_shape dense = shape /\
    size (nd_flat dense) = fst shape * snd shape /\
    take (nd_flat dense) idxs_dense = inr v /\
    (forall c, 0 <= c < fst shape * snd shape -> ~ In c idxs_dense ->
               getitem (nd_flat dense) c = inr (astype nodata)) /\
    _sparse_idx idxs_dense idxs_dense (fst shape * snd shape)
      = inr (range (length v)).
Proof.
  intros Hnd Hd Hlen Hs0 Hs1 Hmv.
  set (N := fst shape * snd shape) in *.
  assert (HN : 0 <= N) by (unfold N; lia).
  assert (Hd' : forall c, In c idxs_dense -> 0 <= c < Z.of_nat (Z.to_nat N))
    by (intros c Hc; specialize (Hd c Hc); lia).
  set (flat := map (fun c => match last_write c idxs_dense v with
                             | Some x => x
                             | None => astype nodata
                             end) (range (Z.to_nat N))).
  assert (Hdens : _densify astype v idxs_dense shape nodata
                  = inr {| nd_shape := shape; nd_flat := flat |}).
  { unfold _densify, size. rewrite Hlen, Z.eqb_refl. simpl.
    fold N. unfold np_full.
    destruct (Z.ltb_spec N 0); [lia|]. simpl.
    rewrite repeat_map_range, put_last_write by (auto; exact Hd'). simpl.
    unfold reshape.
    destruct (Z.ltb_spec (fst shape) 0); [lia|].
    destruct (Z.ltb_spec (snd shape) 0); [lia|]. reflexivity. }
  exists {| nd_shape := shape; nd_flat := flat |}. simpl.
  split; [exact Hdens|]. split; [reflexivity|]. split; [|split; [|split]].
  - unfold flat, size. rewrite length_map, length_range. lia.
  - unfold flat. rewrite take_map_range by exact Hd'. f_equal.
    assert (Hopt : map Some
              (map (fun c => match last_write c idxs_dense v with
                             | Some x => x
                             | None => astype nodata
                             end) idxs_dense) = map Some v).
    { rewrite <- (last_write_NoDup idxs_dense v Hnd (eq_sym Hlen)).
      rewrite map_map. apply map_ext_in. intros c Hc.
      destruct (last_write c idxs_dense v) eqn:E; auto.
      apply last_write_None in E; [contradiction | auto]. }
    now apply map_Some_inj.
  - intros c Hc Hni. unfold flat.
    rewrite getitem_map_range by lia.
    apply (last_write_None c idxs_dense v (eq_sym Hlen)) in Hni.
    now rewrite Hni.
  - rewrite _sparse_idx_in_range; auto. f_equal.
    assert (Hopt : map Some
              (map (fun c => match last_write c idxs_dense
                                     (range (length idxs_dense)) with
                             | Some x => x
                             | None => _mv
                             end) idxs_dense)
              = map Some (range (length idxs_dense))).
    { rewrite <- (last_write_NoDup idxs_dense (range (length idxs_dense)) Hnd
                    (length_range _)).
      rewrite map_map. apply map_ext_in. intros c Hc.
      destruct (last_write c idxs_dense (range (length idxs_dense))) eqn:E;
        auto.
      apply last_write_None in E; [contradiction | apply length_range]. }
    rewrite <- Hlen. now apply map_Some_inj.
Qed.

Lemma densify_read_back_witness :
  NoDup [1; 3] /\ u8 (-9999) = 241 /\
  exists dense,
    _densify u8 [7; 8] [1; 3] (2, 2) (-9999) = inr dense /\
    nd_shape dense = (2, 2) /\
    size (nd_flat dense) = fst (2, 2) * snd (2, 2) /\
    take (nd_flat dense) [1; 3] = inr [7; 8] /\
    (forall c, 0 <= c < fst (2, 2) * snd (2, 2) -> ~ In c [1; 3] ->
               getitem (nd_flat dense) c = inr (u8 (-9999))) /\
    _sparse_idx [1; 3] [1; 3] (fst (2, 2) * snd (2, 2))
      = inr (range (length [7; 8])).
Proof.
  assert (Hnd : NoDup [1; 3]).
  { repeat constructor; simpl; intuition lia. }
  split; [exact Hnd|]. split; [reflexivity|].
  apply (densify_read_back u8 [7; 8] [1; 3] (2, 2) (-9999));
    [ exact Hnd | simpl; intros c Hc; lia | reflexivity | simpl; lia
    | simpl; lia | rewrite mv_eq; unfold size; simpl; lia ].
Defined.

(** ** Downstream length *)

Lemma hypot_abs_l (x : R) : hypot x 0 = Rabs x.
Proof.
  unfold hypot. replace (x * x + 0 * 0)%R with (Rsqr x) by (unfold Rsqr; ring).
  apply sqrt_Rsqr_abs.
Qed.

Lemma hypot_unit (dr dc : Z) :
  hypot (1 * IZR dr) (1 * IZR dc) = sqrt (IZR (dr * dr + dc * dc)).
Proof.
  unfold hypot. f_equal. rewrite plus_IZR, !mult_IZR. ring.
Qed.

(** C10.  In the planar case [downstream_length] returns the downstream
    index and [hypot (xres * drow) (yres * dcol)]: the x-resolution,
    coefficient 0 of the transform, scales the row delta and the
    y-resolution, coefficient 4, the column delta.  Exchanging the two
    resolutions leaves every length unchanged only when their magnitudes
    are equal.  With the identity transform a move to an adjacent cell has
    length 1 and a diagonal move length [sqrt 2]. *)
Theorem downstream_length_planar (degree_metres_y degree_metres_x : R -> R) :
  (forall idx0 idxs_ds idxs_dense ncol affine xres yres north idx1 idx idx_ds,
     getitem affine 0 = inr xres ->
     getitem affine 4 = inr yres ->
     getitem affine 5 = inr north ->
     downstream idx0 idxs_ds = inr idx1 ->
     getitem idxs_dense idx0 = inr idx ->
     getitem idxs_dense idx1 = inr idx_ds ->
     ncol <> 0 ->
     downstream_length degree_metres_y degree_metres_x idx0 idxs_ds idxs_dense
       ncol false affine =
     inr (idx1, hypot (xres * IZR (idx / ncol - idx_ds / ncol))
                      (yres * IZR (idx mod ncol - idx_ds mod ncol)))) /\
  (forall xres yres : R,
     (forall drow dcol : Z,
        hypot (xres * IZR drow) (yres * IZR dcol) =
        hypot (yres * IZR drow) (xres * IZR dcol)) <->
     Rabs xres = Rabs yres) /\
  (forall idx0 idxs_ds idxs_dense ncol idx1 idx idx_ds,
     downstream idx0 idxs_ds = inr idx1 ->
     getitem idxs_dense idx0 = inr idx ->
     getitem idxs_dense idx1 = inr idx_ds ->
     ncol <> 0 ->
     let drow := idx / ncol - idx_ds / ncol in
     let dcol := idx mod ncol - idx_ds mod ncol in
     exists len,
       downstream_length degree_metres_y degree_metres_x idx0 idxs_ds
         idxs_dense ncol false IDENTITY = inr (idx1, len) /\
       (Z.abs drow + Z.abs dcol = 1 -> len = 1%R) /\
       (Z.abs drow = 1 -> Z.abs dcol = 1 -> len = sqrt 2)).
Proof.
  assert (Hgen : forall idx0 idxs_ds idxs_dense ncol affine xres yres north
                        idx1 idx idx_ds,
     getitem affine 0 = inr xres ->
     getitem affine 4 = inr yres ->
     getitem affine 5 = inr north ->
     downstream idx0 idxs_ds = inr idx1 ->
     getitem idxs_dense idx0 = inr idx ->
     getitem idxs_dense idx1 = inr idx_ds ->
     ncol <> 0 ->
     downstream_length degree_metres_y degree_metres_x idx0 idxs_ds idxs_dense
       ncol false affine =
     inr (idx1, hypot (xres * IZR (idx / ncol - idx_ds / ncol))
                      (yres * IZR (idx mod ncol - idx_ds mod ncol)))).
  { intros idx0 ds dense ncol affine xres yres north idx1 idx idx_ds
           Hx Hy Hn H1 Hi Hds Hncol.
    unfold downstream_length. rewrite Hx, Hy, Hn, H1. simpl.
    rewrite Hi, Hds. simpl.
    destruct (Z.eqb_spec ncol 0); [contradiction | reflexivity]. }
  split; [exact Hgen|]. split.
  - intros a b. split.
    + intros H. specialize (H 1 0). simpl in H.
      rewrite !Rmult_0_r, !Rmult_1_r, !hypot_abs_l in H. exact H.
    + intros H drow dcol. unfold hypot. f_equal.
      assert (Hsq : (a * a = b * b)%R).
      { replace (a * a)%R with (Rsqr a) by reflexivity.
        replace (b * b)%R with (Rsqr b) by reflexivity.
        rewrite (Rsqr_abs a), (Rsqr_abs b), H. reflexivity. }
      replace (a * IZR drow * (a * IZR drow))%R
        with ((a * a) * (IZR drow * IZR drow))%R by ring.
      replace (b * IZR dcol * (b * IZR dcol))%R
        with ((b * b) * (IZR dcol * IZR dcol))%R by ring.
      replace (b * IZR drow * (b * IZR drow))%R
        with ((b * b) * (IZR drow * IZR drow))%R by ring.
      replace (a * IZR dcol * (a * IZR dcol))%R
        with ((a * a) * (IZR dcol * IZR dcol))%R by ring.
      now rewrite Hsq.
  - intros idx0 ds dense ncol idx1 idx idx_ds H1 Hi Hds Hncol drow dcol.
    eexists. split.
    + exact (Hgen idx0 ds dense ncol IDENTITY 1%R 1%R 0%R idx1 idx idx_ds
               eq_refl eq_refl eq_refl H1 Hi Hds Hncol).
    + fold drow dcol. rewrite hypot_unit. split.
      * intros H. replace (drow * drow + dcol * dcol) with 1 by nia.
        apply sqrt_1.
      * intros Hr Hc. replace (drow * drow + dcol * dcol) with 2 by nia.
        reflexivity.
Qed.

Lemma downstream_length_planar_witness :
  exists len,
    downstream_length (fun _ => 0%R) (fun _ => 0%R) 0 [1; 1] [0; 1] 2 false
      IDENTITY = inr (1, len) /\
    len = 1%R.
Proof.
  destruct (proj2 (proj2 (downstream_length_planar (fun _ => 0%R)
                            (fun _ => 0%R)))
              0 [1; 1] [0; 1] 2 1 0 1 eq_refl eq_refl eq_refl ltac:(lia))
    as (len & Hlen & Hadj & _).
  exists len. split; [exact Hlen|]. apply Hadj. reflexivity.
Defined.

(** ** The three-cell chain of the specification *)

Example chain_122 :
  pit_indices [1; 2; 2] = inr [2] /\
  _idxs_us [1; 2; 2] = inr [[_mv]; [0]; [1]] /\
  network_tree 3 [2] [[_mv]; [0]; [1]] = inr [[2]; [1]; [0]] /\
  loop_indices 3 [1; 2; 2] [[_mv]; [0]; [1]] = inr [].
Proof. repeat split. Qed.

(** * Further properties *)

(** ** Upstream lookup *)

Lemma mapM_app {A B} (f : A -> result B) (xs ys : list A) :
  mapM f (xs ++ ys) =
  (a <- mapM f xs ;; b <- mapM f ys ;; ret (a ++ b)).
Proof.
  induction xs as [|x xs IH]; simpl.
  - now destruct (mapM f ys).
  - destruct (f x) as [e|y]; simpl; auto. rewrite IH.
    destruct (mapM f xs) as [e|a]; simpl; auto.
    now destruct (mapM f ys).
Qed.

Lemma mapM_inr {A B} (f : A -> result B) (xs : list A) (ys : list B) :
  mapM f xs = inr ys -> Forall2 (fun x y => f x = inr y) xs ys.
Proof.
  revert ys; induction xs as [|x xs IH]; intros ys H; simpl in H.
  - injection H as <-. constructor.
  - inv_bind H. inv_bind H. injection H as <-. constructor; auto.
Qed.

Lemma mapM_inl {A B} (f : A -> result B) (xs : list A) (e : exn) :
  mapM f xs = inl e -> exists x, In x xs /\ f x = inl e.
Proof.
  induction xs as [|x xs IH]; simpl; [discriminate|].
  destruct (f x) as [e'|y] eqn:E; simpl.
  - intros [= <-]. exists x. auto.
  - destruct (mapM f xs) as [e'|ys]; simpl; [|discriminate].
    intros [= <-]. destruct IH as (x' & Hin & Hx'); auto.
    exists x'. auto.
Qed.

Lemma getitem_returns_iff {A} (a : list A) (i : Z) :
  (exists x, getitem a i = inr x) <-> - size a <= i < size a.
Proof.
  pose proof (size_nonneg a) as Hs. unfold getitem, norm_index.
  destruct (Z.leb_spec 0 i) as [H0|H0];
    destruct (Z.ltb_spec i (size a)) as [H1|H1]; simpl.
  - split; [lia|]. intros _.
    destruct (nth_error a (Z.to_nat i)) eqn:E; eauto.
    apply nth_error_None in E. unfold size in *. lia.
  - destruct (Z.leb_spec (- size a) i); destruct (Z.ltb_spec i 0);
      simpl; try lia; (split; [intros [x Hx]; discriminate | lia]).
  - destruct (Z.leb_spec (- size a) i) as [H2|H2];
      destruct (Z.ltb_spec i 0) as [H3|H3]; simpl; try lia.
    + split; [lia|]. intros _.
      destruct (nth_error a (Z.to_nat (i + size a))) eqn:E; eauto.
      apply nth_error_None in E. unfold size in *. lia.
    + split; [intros [x Hx]; discriminate | lia].
  - lia.
Qed.

(** X1.  The upstream cells of several cells are the upstream cells of the
    first ones followed by those of the others; where one of the two parts
    has no result, the whole has none. *)
Theorem upstream_app (idxs idxs' : list Z) (idxs_us : list (list Z)) :
  upstream (idxs ++ idxs') idxs_us =
  (a <- upstream idxs idxs_us ;;
   b <- upstream idxs' idxs_us ;;
   ret (a ++ b)).
Proof.
  unfold upstream, take. rewrite mapM_app.
  destruct (mapM (getitem idxs_us) idxs) as [e|a]; simpl; auto.
  destruct (mapM (getitem idxs_us) idxs') as [e|b]; simpl; auto.
  now rewrite concat_app, filter_app.
Qed.

Lemma StronglySorted_range_from (a n : nat) :
  StronglySorted Z.lt (map Z.of_nat (seq a n)).
Proof.
  revert a; induction n as [|n IH]; intros a; simpl; constructor; auto.
  apply Forall_forall. intros x Hx. apply in_map_iff in Hx.
  destruct Hx as (k & <- & Hk). apply in_seq in Hk. lia.
Qed.

Lemma StronglySorted_filter_lt (f : Z -> bool) (l : list Z) :
  StronglySorted Z.lt l -> StronglySorted Z.lt (filter f l).
Proof.
  induction 1 as [|x l Hl IH Hx]; simpl; [constructor|].
  destruct (f x); auto. constructor; auto.
  rewrite Forall_forall in *. intros y Hy. apply filter_In in Hy.
  now apply Hx.
Qed.

Lemma downstream_ds_at (ds : list Z) (i : Z) :
  0 <= i < size ds -> downstream i ds = inr (ds_at ds i).
Proof.
  intros Hi. unfold downstream.
  replace i with (Z.of_nat (Z.to_nat i)) by lia.
  apply getitem_ds. unfold size in Hi. lia.
Qed.

(** ** Upstream and downstream are inverse on the builder's table *)

(** X3.  On every downstream array the builder accepts, [upstream] of a
    single cell [j], looked up in the table of [_idxs_us], returns in
    ascending order and without repetition exactly the cells other than
    [j] whose [downstream] cell is [j]. *)
Theorem upstream_inverts_downstream (idxs_ds : list Z) :
  valid_ds idxs_ds = true ->
  exists idxs_us,
    _idxs_us idxs_ds = inr idxs_us /\
    forall j, 0 <= j < size idxs_ds ->
      exists l,
        upstream [j] idxs_us = inr l /\
        StronglySorted Z.lt l /\
        forall u, In u l <->
          0 <= u < size idxs_ds /\ u <> j /\ downstream u idxs_ds = inr j.
Proof.
  intros Hv. pose proof (valid_ds_inv _ Hv) as (Hn & Hr & Hdeg).
  assert (Hmv : size idxs_ds <= _mv) by (rewrite mv_eq; lia).
  set (d := Z.to_nat (max_indeg idxs_ds)).
  exists (us_table idxs_ds d). split; [now apply _idxs_us_spec|].
  intros j Hj. exists (ups idxs_ds j). split; [|split].
  - rewrite upstream_cells.
    + simpl. now rewrite app_nil_r, us_cells_us_table.
    + intros i [<-|[]]. unfold size, us_table.
      rewrite length_map, length_range. exact Hj.
  - apply StronglySorted_filter_lt. apply (StronglySorted_range_from 0).
  - intros u. rewrite in_ups. unfold flows_to.
    rewrite andb_true_iff, negb_true_iff, Z.eqb_neq, Z.eqb_eq.
    split.
    + intros (Hu & Hne & He). rewrite downstream_ds_at by auto.
      repeat split; try lia; congruence.
    + intros (Hu & Hne & He). rewrite downstream_ds_at in He by auto.
      injection He as He. repeat split; try lia; congruence.
Qed.

Lemma upstream_inverts_downstream_witness :
  valid_ds [1; 2; 2; 4; 3] = true /\
  exists idxs_us,
    _idxs_us [1; 2; 2; 4; 3] = inr idxs_us /\
    forall j, 0 <= j < size [1; 2; 2; 4; 3] ->
      exists l,
        upstream [j] idxs_us = inr l /\
        StronglySorted Z.lt l /\
        forall u, In u l <->
          0 <= u < size [1; 2; 2; 4; 3] /\ u <> j /\
          downstream u [1; 2; 2; 4; 3] = inr j.
Proof.
  split; [reflexivity|].
  apply (upstream_inverts_downstream [1; 2; 2; 4; 3]). reflexivity.
Defined.

(** ** Pit detection *)

(** X4.  For an array of at most [_mv] cells [pit_indices] returns, in
    ascending order, exactly the cells whose [downstream] cell is the cell
    itself; it never raises. *)
Theorem pit_indices_ascending (idxs_ds : list Z) :
  size idxs_ds <= _mv ->
  exists idxs_pits,
    pit_indices idxs_ds = inr idxs_pits /\
    StronglySorted Z.lt idxs_pits /\
    forall i, In i idxs_pits <->
      0 <= i < size idxs_ds /\ downstream i idxs_ds = inr i.
Proof.
  intros Hmv. exists (pits idxs_ds).
  split; [now apply pit_indices_pits|]. split.
  - apply StronglySorted_filter_lt. apply (StronglySorted_range_from 0).
  - intros i. unfold pits. rewrite filter_In, in_range, Z.eqb_eq.
    fold (size idxs_ds). split.
    + intros [Hi He]. split; auto. rewrite downstream_ds_at by auto.
      congruence.
    + intros [Hi He]. split; auto. rewrite downstream_ds_at in He by auto.
      congruence.
Qed.

Lemma pit_indices_ascending_witness :
  size [0; 0; 2; 4; 3; 5] <= _mv /\
  pit_indices [0; 0; 2; 4; 3; 5] = inr [0; 2; 5] /\
  exists idxs_pits,
    pit_indices [0; 0; 2; 4; 3; 5] = inr idxs_pits /\
    StronglySorted Z.lt idxs_pits /\
    forall i, In i idxs_pits <->
      0 <= i < size [0; 0; 2; 4; 3; 5] /\
      downstream i [0; 0; 2; 4; 3; 5] = inr i.
Proof.
  assert (H : size [0; 0; 2; 4; 3; 5] <= _mv)
    by (rewrite mv_eq; unfold size; simpl; lia).
  split; [exact H|]. split; [reflexivity|].
  apply (pit_indices_ascending [0; 0; 2; 4; 3; 5] H).
Defined.

(** ** The network tree of any table *)

Lemma last_cons {A} (x d : A) (l : list A) : last (x :: l) d = last l x.
Proof.
  revert x d; induction l as [|y l IH]; intros x d; auto.
  change (last (x :: y :: l) d) with (last (y :: l) d).
  rewrite IH. symmetry. apply IH.
Qed.

Lemma network_tree_loop_linked (idxs_us : list (list Z)) (fuel : nat) :
  forall (idxs : list Z) (acc tree : list (list Z)),
  network_tree_loop fuel idxs idxs_us acc = inr tree ->
  exists rest,
    tree = acc ++ rest /\
    Forall (fun l => l <> []) rest /\
    linked idxs_us idxs rest /\
    upstream (last rest idxs) idxs_us = inr [].
Proof.
  induction fuel as [|fuel IH]; intros idxs acc tree H; [discriminate|].
  rewrite network_tree_loop_S in H. inv_bind H. rename a into next.
  destruct next as [|x next].
  - simpl in H. injection H as <-. exists []. rewrite app_nil_r.
    simpl. auto.
  - replace (size (x :: next) =? 0) with false in H
      by (symmetry; apply Z.eqb_neq; unfold size; simpl; lia).
    apply IH in H. destruct H as (rest & -> & Hne & Hl & Hlast).
    exists ((x :: next) :: rest). rewrite <- app_assoc.
    split; [reflexivity|]. split; [|split].
    + constructor; auto. discriminate.
    + cbn [linked]. auto.
    + now rewrite last_cons.
Qed.

(** X5.  Whatever the table, a tree that [network_tree] returns starts
    with the given pit level, every further level is non-empty and is what
    [upstream] returns for the level before it, and [upstream] of the last
    level is empty. *)
Theorem network_tree_linked (fuel : nat) (idxs_pits : list Z)
  (idxs_us tree : list (list Z)) :
  network_tree fuel idxs_pits idxs_us = inr tree ->
  exists rest,
    tree = idxs_pits :: rest /\
    Forall (fun l => l <> []) rest /\
    linked idxs_us idxs_pits rest /\
    upstream (last rest idxs_pits) idxs_us = inr [].
Proof.
  intros H. unfold network_tree in H.
  apply network_tree_loop_linked in H.
  destruct H as (rest & -> & Hne & Hl & Hlast). exists rest. auto.
Qed.

Lemma network_tree_linked_witness :
  network_tree 3 [2] [[_mv]; [0]; [1]] = inr [[2]; [1]; [0]] /\
  exists rest,
    [[2]; [1]; [0]] = [2] :: rest /\
    Forall (fun l => l <> []) rest /\
    linked [[_mv]; [0]; [1]] [2] rest /\
    upstream (last rest [2]) [[_mv]; [0]; [1]] = inr [].
Proof.
  split; [reflexivity|].
  apply (network_tree_linked 3 [2] [[_mv]; [0]; [1]]). reflexivity.
Defined.

(** ** The network tree runs from downstream to upstream *)

(** X6.  For every downstream array and consistent upstream table the
    network tree built from the pits is returned and has at most one level
    more than there are cells; its first level holds the pits, and every
    cell of a later level has its [downstream] cell, a different cell, in
    the level just before. *)
Theorem network_tree_downstream_order
  (idxs_ds : list Z) (idxs_us : list (list Z)) :
  consistent idxs_ds idxs_us ->
  exists idxs_pits fuel tree,
    pit_indices idxs_ds = inr idxs_pits /\
    network_tree fuel idxs_pits idxs_us = inr tree /\
    (length tree <= S (length idxs_ds))%nat /\
    nth 0 tree [] = idxs_pits /\
    forall k i, In i (nth (S k) tree []) ->
      exists j, downstream i idxs_ds = inr j /\ j <> i /\
                In j (nth k tree []).
Proof.
  intros Hcons.
  destruct (first_empty_level idxs_ds idxs_us Hcons) as (K & HK & He & Hne).
  destruct (traversals_return idxs_ds idxs_us Hcons K HK He Hne)
    as [Htree _].
  assert (Hmv : size idxs_ds <= _mv) by apply Hcons.
  exists (pits idxs_ds), K, (map (level idxs_ds idxs_us) (seq 0 K)).
  split; [now apply pit_indices_pits|]. split; [exact Htree|].
  assert (Hnth : forall k, (k < K)%nat ->
            nth k (map (level idxs_ds idxs_us) (seq 0 K)) []
            = level idxs_ds idxs_us k).
  { intros k Hk. rewrite (nth_indep _ _ (level idxs_ds idxs_us 0))
      by (now rewrite length_map, length_seq).
    now rewrite map_nth, seq_nth. }
  split; [|split].
  - rewrite length_map, length_seq.
    destruct K as [|m]; [lia|].
    assert (m <= length (all_levels idxs_ds idxs_us (S m)))%nat
      by (apply (levels_nonempty_length idxs_ds idxs_us);
          intros j Hj; apply Hne; lia).
    pose proof (all_levels_length idxs_ds idxs_us Hcons (S m)). lia.
  - now rewrite Hnth by lia.
  - intros k i Hi.
    destruct (Nat.ltb_spec (S k) K) as [Hlt|Hge].
    + rewrite Hnth in Hi by auto. rewrite Hnth by lia.
      apply (in_level idxs_ds idxs_us Hcons) in Hi.
      pose proof (at_depth_range idxs_ds _ _ Hi) as Hr.
      simpl in Hi. rewrite !andb_true_iff, negb_true_iff, Z.eqb_neq in Hi.
      destruct Hi as (_ & Hne' & Hd).
      exists (ds_at idxs_ds i). split; [now apply downstream_ds_at|].
      split; auto. now apply (in_level idxs_ds idxs_us Hcons).
    + rewrite nth_overflow in Hi by (now rewrite length_map, length_seq).
      destruct Hi.
Qed.

Lemma network_tree_downstream_order_witness :
  consistent [0; 0; _mv] [[1]; [_mv]; [_mv]] /\
  exists idxs_pits fuel tree,
    pit_indices [0; 0; _mv] = inr idxs_pits /\
    network_tree fuel idxs_pits [[1]; [_mv]; [_mv]] = inr tree /\
    (length tree <= S (length ([0; 0; _mv])%Z))%nat /\
    nth 0 tree [] = idxs_pits /\
    forall k i, In i (nth (S k) tree []) ->
      exists j, downstream i [0; 0; _mv] = inr j /\ j <> i /\
                In j (nth k tree []).
Proof.
  split; [exact consistent_sentinel_example|].
  apply (network_tree_downstream_order [0; 0; _mv] [[1]; [_mv]; [_mv]]).
  exact consistent_sentinel_example.
Defined.

(** ** Paths that are returned *)

Lemma path_to_pit_head (ds : list Z) (i : Z) (p : list Z) :
  path_to_pit ds i p -> exists t, p = i :: t.
Proof. destruct 1; eauto. Qed.

Lemma path_to_pit_functional (ds : list Z) (i : Z) (p q : list Z) :
  path_to_pit ds i p -> path_to_pit ds i q -> p = q.
Proof.
  intros Hp. revert q. induction Hp as [i Hi | i j p Hi Hne Hp IH];
    intros q Hq; inversion Hq as [i' Hi' | i' j' q' Hi' Hne' Hq']; subst;
    try congruence.
  assert (j' = j) by congruence. subst. f_equal. now apply IH.
Qed.

Lemma path_to_pit_suffix (ds : list Z) (i x : Z) (p : list Z) :
  path_to_pit ds i p -> In x p ->
  exists pre q, p = pre ++ q /\ path_to_pit ds x q.
Proof.
  induction 1 as [i Hi | i j p Hi Hne Hp IH]; intros Hx.
  - destruct Hx as [<-|[]]. exists [], [i]. split; auto. now apply path_pit.
  - destruct Hx as [<-|Hx].
    + exists [], (i :: p). split; auto. now apply (path_hop ds i j).
    + destruct (IH Hx) as (pre & q & -> & Hq).
      exists (i :: pre), q. auto.
Qed.

Lemma path_to_pit_NoDup (ds : list Z) (i : Z) (p : list Z) :
  path_to_pit ds i p -> NoDup p.
Proof.
  induction 1 as [i Hi | i j p Hi Hne Hp IH].
  - repeat constructor. intros [].
  - constructor; auto. intros Hin.
    destruct (path_to_pit_suffix ds j i p Hp Hin) as (pre & q & Hpq & Hq).
    assert (Heq : q = i :: p)
      by (eapply path_to_pit_functional; eauto; now apply (path_hop ds i j)).
    apply (f_equal (@length Z)) in Hpq. rewrite length_app, Heq in Hpq.
    simpl in Hpq. lia.
Qed.

Lemma path_to_pit_valid (ds : list Z) (i : Z) (p : list Z) :
  path_to_pit ds i p ->
  forall x, In x p -> exists y, downstream x ds = inr y.
Proof.
  induction 1 as [i Hi | i j p Hi Hne Hp IH]; intros x Hx.
  - destruct Hx as [<-|[]]. eauto.
  - destruct Hx as [<-|Hx]; eauto.
Qed.

Lemma downstream_path_loop_inr (ds : list Z) (fuel : nat) :
  u32_array ds = true ->
  forall (i : Z) (acc r : list Z),
  downstream_path_loop fuel i ds acc = inr r ->
  exists rest,
    r = acc ++ rest /\ path_to_pit ds i (i :: rest) /\
    Forall (fun x => 0 <= x < 2 ^ 32) rest.
Proof.
  intros Hu. apply u32_array_spec in Hu. rewrite Forall_forall in Hu.
  induction fuel as [|fuel IH]; intros i acc r H; [discriminate|].
  rewrite downstream_path_loop_S in H. inv_bind H. rename a into j.
  destruct (Z.eqb_spec i j) as [<-|Hne].
  - injection H as <-. exists []. rewrite app_nil_r.
    repeat split; [now apply path_pit | constructor].
  - apply IH in H. destruct H as (rest & -> & Hp & Hr).
    assert (Hj : 0 <= j < 2 ^ 32) by (apply Hu; eapply getitem_In; eauto).
    exists (j :: rest). rewrite <- app_assoc, u32_small by auto.
    repeat split; auto. apply (path_hop ds i j); auto.
Qed.

(** X7.  A path that [downstream_path] returns for a [uint32] array is the
    sequence of cells from the start to its pit; it visits no cell twice,
    every cell of it is a cell of the array, and it has at most as many
    cells as the array. *)
Theorem downstream_path_simple (fuel : nat) (idx0 : Z)
  (idxs_ds path : list Z) :
  u32_array idxs_ds = true -> 0 <= idx0 < 2 ^ 32 ->
  downstream_path fuel idx0 idxs_ds = inr path ->
  path_to_pit idxs_ds idx0 path /\
  NoDup path /\
  Forall (fun x => 0 <= x < size idxs_ds) path /\
  (length path <= length idxs_ds)%nat.
Proof.
  intros Hu H0 H. unfold downstream_path in H. inv_bind H.
  injection H as <-.
  destruct (downstream_path_loop_inr idxs_ds fuel Hu idx0 [idx0] a E)
    as (rest & -> & Hp & Hr).
  assert (Hmap : map u32 ([idx0] ++ rest) = idx0 :: rest).
  { simpl. rewrite u32_small by auto. f_equal.
    rewrite <- (map_id rest) at 2. apply map_ext_in. intros x Hx.
    rewrite Forall_forall in Hr. now apply u32_small, Hr. }
  rewrite Hmap.
  assert (Hv : Forall (fun x => 0 <= x < size idxs_ds) (idx0 :: rest)).
  { apply Forall_forall. intros x Hx.
    destruct (path_to_pit_valid _ _ _ Hp x Hx) as [y Hy].
    assert (Hx0 : 0 <= x).
    { destruct Hx as [<-|Hx]; [lia|].
      rewrite Forall_forall in Hr. apply Hr in Hx. lia. }
    unfold downstream in Hy. apply getitem_nonneg in Hy; auto. lia. }
  pose proof (path_to_pit_NoDup _ _ _ Hp) as Hnd.
  repeat split; auto.
  rewrite <- (length_range (length idxs_ds)).
  apply NoDup_incl_length; auto.
  intros x Hx. apply in_range. rewrite Forall_forall in Hv.
  now apply Hv.
Qed.

Lemma downstream_path_simple_witness :
  u32_array [1; 2; 2] = true /\ 0 <= 0 < 2 ^ 32 /\
  downstream_path 3 0 [1; 2; 2] = inr [0; 1; 2] /\
  path_to_pit [1; 2; 2] 0 [0; 1; 2] /\
  NoDup [0; 1; 2] /\
  Forall (fun x => 0 <= x < size [1; 2; 2]) [0; 1; 2] /\
  (length ([0; 1; 2])%Z <= length ([1; 2; 2])%Z)%nat.
Proof.
  split; [reflexivity|]. split; [lia|]. split; [reflexivity|].
  apply (downstream_path_simple 3 0 [1; 2; 2] [0; 1; 2]);
    [reflexivity | lia | reflexivity].
Defined.

(** ** Loop detection and endless paths *)

Lemma in_range_ds_u32 (ds : list Z) :
  in_range_ds ds = true -> size ds <= _mv -> u32_array ds = true.
Proof.
  intros Hr Hmv. apply in_range_ds_spec in Hr. apply u32_array_spec.
  rewrite mv_eq in Hmv. change (2 ^ 32) with 4294967296.
  rewrite Forall_forall in *. intros x Hx. specialize (Hr x Hx). lia.
Qed.

Lemma ds_at_in_range (ds : list Z) (i : Z) :
  in_range_ds ds = true -> 0 <= i < size ds -> 0 <= ds_at ds i < size ds.
Proof.
  intros Hr Hi. replace i with (Z.of_nat (Z.to_nat i)) by lia.
  apply ds_at_range; auto. unfold size in Hi. lia.
Qed.

Lemma at_depth_hops (ds : list Z) (k : nat) :
  forall i, at_depth ds k i = true ->
  exists p, hops ds k i = inr p /\ downstream p ds = inr p.
Proof.
  induction k as [|k IH]; intros i H; pose proof (at_depth_range _ _ _ H) as Hi;
    simpl in H; rewrite !andb_true_iff in H.
  - destruct H as [_ H]. apply Z.eqb_eq in H. exists i. split; auto.
    rewrite downstream_ds_at by auto. congruence.
  - destruct H as (_ & _ & H). destruct (IH _ H) as (p & Hp & Hpit).
    exists p. split; auto. simpl. now rewrite downstream_ds_at.
Qed.

Lemma downstream_path_loop_depth (ds : list Z) (fuel : nat) :
  in_range_ds ds = true ->
  forall (i : Z) (acc r : list Z),
  0 <= i < size ds ->
  downstream_path_loop fuel i ds acc = inr r ->
  exists k, at_depth ds k i = true.
Proof.
  intros Hr. induction fuel as [|fuel IH]; intros i acc r Hi H;
    [discriminate|].
  rewrite downstream_path_loop_S in H.
  pose proof (downstream_ds_at ds i Hi) as Hd. unfold downstream in Hd.
  rewrite Hd in H. cbn [bind] in H.
  assert (Hg : (0 <=? i) && (i <? size ds) = true)
    by (apply andb_true_iff; split; [apply Z.leb_le | apply Z.ltb_lt]; lia).
  destruct (Z.eqb_spec i (ds_at ds i)) as [He|Hne].
  - exists O. simpl. rewrite Hg. simpl. apply Z.eqb_eq. congruence.
  - apply IH in H; [|now apply ds_at_in_range].
    destruct H as [k Hk]. exists (S k). simpl. rewrite Hg, Hk. simpl.
    rewrite andb_true_r. apply negb_true_iff, Z.eqb_neq. congruence.
Qed.

Lemma downstream_path_loop_no_error (ds : list Z) (fuel : nat) :
  in_range_ds ds = true ->
  forall (i : Z) (acc : list Z) (e : exn),
  0 <= i < size ds ->
  downstream_path_loop fuel i ds acc = inl e -> e = OutOfFuel.
Proof.
  intros Hr. induction fuel as [|fuel IH]; intros i acc e Hi H.
  - simpl in H. congruence.
  - rewrite downstream_path_loop_S in H.
    pose proof (downstream_ds_at ds i Hi) as Hd. unfold downstream in Hd.
    rewrite Hd in H. cbn [bind] in H.
    destruct (i =? ds_at ds i); [discriminate|].
    apply IH in H; auto. now apply ds_at_in_range.
Qed.

(** X8.  For a downstream array whose targets are all cells and a
    consistent upstream table, [loop_indices] returns exactly the cells
    from which [downstream_path] never ends, whatever the bound on its
    loop; from every other cell [downstream_path] returns a path. *)
Theorem loop_indices_are_endless_paths
  (idxs_ds : list Z) (idxs_us : list (list Z)) :
  consistent idxs_ds idxs_us -> in_range_ds idxs_ds = true ->
  exists fuel loops,
    loop_indices fuel idxs_ds idxs_us = inr loops /\
    forall i, 0 <= i < size idxs_ds ->
      (In i loops <->
       forall fuel', downstream_path fuel' i idxs_ds = inl OutOfFuel) /\
      (~ In i loops <->
       exists fuel' path, downstream_path fuel' i idxs_ds = inr path).
Proof.
  intros Hcons Hr.
  assert (Hmv : size idxs_ds <= _mv) by apply Hcons.
  pose proof (in_range_ds_u32 _ Hr Hmv) as Hu.
  destruct (first_empty_level idxs_ds idxs_us Hcons) as (K & HK & He & Hne).
  destruct (traversals_return idxs_ds idxs_us Hcons K HK He Hne)
    as [_ Hloops].
  exists K. eexists. split; [exact Hloops|].
  intros i Hi.
  assert (Hin : In i (filter
             (fun i => negb ((ds_at idxs_ds i =? _mv)
                             || mem i (all_levels idxs_ds idxs_us K)))
             (range (length idxs_ds))) <->
           ~ exists k, at_depth idxs_ds k i = true).
  { rewrite filter_In, in_range, negb_true_iff, orb_false_iff.
    rewrite mem_false, Z.eqb_neq.
    rewrite <- (marked_all_levels idxs_ds idxs_us K i He), marked_level.
    pose proof (ds_at_in_range _ _ Hr Hi). unfold size in *.
    split.
    - intros (_ & _ & Hn) [k Hk]. apply Hn. exists k.
      now apply (in_level idxs_ds idxs_us Hcons).
    - intros Hn. repeat split; try lia.
      intros [k Hk]. apply Hn. exists k.
      now apply (in_level idxs_ds idxs_us Hcons). }
  assert (Hret : (exists k, at_depth idxs_ds k i = true) <->
                 exists fuel' path,
                   downstream_path fuel' i idxs_ds = inr path).
  { split.
    - intros [k Hk]. destruct (at_depth_hops _ _ _ Hk) as (p & Hp & Hpit).
      destruct (downstream_path_loop_reaches idxs_ds k Hu i p [i] Hp Hpit)
        as (fuel' & rest & Hl & _).
      exists fuel'. unfold downstream_path. rewrite Hl. simpl. eauto.
    - intros (fuel' & path & Hp). unfold downstream_path in Hp.
      inv_bind Hp. eapply downstream_path_loop_depth; eauto. }
  split.
  - rewrite Hin, Hret. split.
    + intros Hn fuel'.
      destruct (downstream_path fuel' i idxs_ds) as [e|path] eqn:E.
      * unfold downstream_path in E.
        destruct (downstream_path_loop fuel' i idxs_ds [i]) as [e'|r] eqn:E';
          simpl in E; [|discriminate].
        injection E as <-. f_equal.
        eapply downstream_path_loop_no_error; eauto.
      * exfalso. apply Hn. eauto.
    + intros Hall (fuel' & path & Hp). rewrite Hall in Hp. discriminate.
  - rewrite Hin, <- Hret. split.
    + intros Hnn.
      destruct (first_empty_level idxs_ds idxs_us Hcons) as (K' & _ & He' & _).
      destruct (in_dec Z.eq_dec i (all_levels idxs_ds idxs_us K'))
        as [Hl|Hl].
      * apply (in_all_levels idxs_ds idxs_us Hcons) in Hl.
        destruct Hl as (k & _ & Hk). eauto.
      * exfalso. apply Hnn. intros [k Hk]. apply Hl.
        apply (marked_all_levels idxs_ds idxs_us K' i He').
        apply marked_level. exists k.
        now apply (in_level idxs_ds idxs_us Hcons).
    + tauto.
Qed.

Lemma loop_indices_are_endless_paths_witness :
  valid_ds [1; 2; 2; 4; 3] = true /\
  loop_indices 3 [1; 2; 2; 4; 3] [[_mv]; [0]; [1]; [4]; [3]] = inr [3; 4] /\
  exists fuel loops,
    loop_indices fuel [1; 2; 2; 4; 3] [[_mv]; [0]; [1]; [4]; [3]]
      = inr loops /\
    forall i, 0 <= i < size [1; 2; 2; 4; 3] ->
      (In i loops <->
       forall fuel', downstream_path fuel' i [1; 2; 2; 4; 3]
                     = inl OutOfFuel) /\
      (~ In i loops <->
       exists fuel' path, downstream_path fuel' i [1; 2; 2; 4; 3]
                          = inr path).
Proof.
  split; [reflexivity|]. split; [reflexivity|].
  apply (loop_indices_are_endless_paths [1; 2; 2; 4; 3]
           [[_mv]; [0]; [1]; [4]; [3]]); [|reflexivity].
  destruct (_idxs_us_consistent [1; 2; 2; 4; 3] eq_refl) as (us & Hus & Hc & _).
  vm_compute in Hus. injection Hus as <-. exact Hc.
Defined.

(** ** Nearest downstream stream cell *)

Lemma _downstream_mask_loop_true (fuel : nat) (idx0 : Z) (ds : list Z)
  (mask : list bool) :
  _downstream_mask_loop fuel idx0 ds mask true = inr idx0.
Proof. destruct fuel; reflexivity. Qed.

Lemma _downstream_mask_loop_false (fuel : nat) (idx0 : Z) (ds : list Z)
  (mask : list bool) :
  _downstream_mask_loop (S fuel) idx0 ds mask false =
  (idx_ds <- getitem ds idx0 ;;
   if idx_ds =? idx0 then ret idx0
   else
     at_stream' <- getitem mask idx_ds ;;
     _downstream_mask_loop fuel idx_ds ds mask at_stream').
Proof. reflexivity. Qed.

Lemma _downstream_mask_loop_result (ds : list Z) (mask : list bool)
  (fuel : nat) :
  forall (i : Z) (b : bool) (r : Z),
  getitem mask i = inr b ->
  _downstream_mask_loop fuel i ds mask b = inr r ->
  getitem mask r = inr true \/
  (getitem mask r = inr false /\ downstream r ds = inr r).
Proof.
  induction fuel as [|fuel IH]; intros i b r Hb H; destruct b.
  - rewrite _downstream_mask_loop_true in H. injection H as <-. auto.
  - discriminate.
  - rewrite _downstream_mask_loop_true in H. injection H as <-. auto.
  - rewrite _downstream_mask_loop_false in H. inv_bind H. rename a into j.
    destruct (Z.eqb_spec j i) as [->|Hne].
    + injection H as <-. auto.
    + inv_bind H. eapply IH; eauto.
Qed.

(** X9.  The cell that [_downstream_mask] returns is a cell whose mask is
    true, or a pit whose mask is false; and searching again from that cell
    returns the same cell. *)
Theorem _downstream_mask_stream_or_pit (fuel : nat) (idx0 r : Z)
  (idxs_ds : list Z) (mask_sparse : list bool) :
  _downstream_mask fuel idx0 idxs_ds mask_sparse = inr r ->
  (getitem mask_sparse r = inr true \/
   (getitem mask_sparse r = inr false /\ downstream r idxs_ds = inr r)) /\
  forall fuel', _downstream_mask (S fuel') r idxs_ds mask_sparse = inr r.
Proof.
  intros H. unfold _downstream_mask in H. inv_bind H.
  pose proof (_downstream_mask_loop_result _ _ _ _ _ _ E H) as Hr.
  split; auto. intros fuel'. unfold _downstream_mask.
  destruct Hr as [Hr|[Hr Hp]]; rewrite Hr; cbn [bind].
  - apply _downstream_mask_loop_true.
  - rewrite _downstream_mask_loop_false. unfold downstream in Hp.
    rewrite Hp. simpl. now rewrite Z.eqb_refl.
Qed.

Lemma _downstream_mask_stream_or_pit_witness :
  _downstream_mask 3 0 [1; 2; 3; 3] [false; false; true; false] = inr 2 /\
  (getitem [false; false; true; false] 2 = inr true \/
   (getitem [false; false; true; false] 2 = inr false /\
    downstream 2 [1; 2; 3; 3] = inr 2)) /\
  forall fuel', _downstream_mask (S fuel') 2 [1; 2; 3; 3]
                  [false; false; true; false] = inr 2.
Proof.
  split; [reflexivity|].
  apply (_downstream_mask_stream_or_pit 3 0 2 [1; 2; 3; 3]
           [false; false; true; false]).
  reflexivity.
Defined.

(** X10.  Along a downstream path that ends in a pit and whose cells all
    have a mask value, [_downstream_mask] returns: it returns the first
    cell of the path whose mask is true, and the pit when there is none. *)
Theorem _downstream_mask_first_on_path (idx0 : Z) (idxs_ds path : list Z)
  (mask_sparse : list bool) :
  path_to_pit idxs_ds idx0 path ->
  (forall x, In x path -> exists b, getitem mask_sparse x = inr b) ->
  exists fuel r l1 l2,
    _downstream_mask fuel idx0 idxs_ds mask_sparse = inr r /\
    path = l1 ++ r :: l2 /\
    (forall x, In x l1 -> getitem mask_sparse x = inr false) /\
    (getitem mask_sparse r = inr true \/ l2 = []).
Proof.
  induction 1 as [i Hi | i j p Hi Hne Hp IH]; intros Hm.
  - destruct (Hm i (or_introl eq_refl)) as [[|] Hb].
    + exists O, i, [], []. unfold _downstream_mask. rewrite Hb.
      repeat split; auto. intros x [].
    + exists 1%nat, i, [], []. unfold _downstream_mask. rewrite Hb.
      cbn [bind]. rewrite _downstream_mask_loop_false.
      unfold downstream in Hi. rewrite Hi. simpl. rewrite Z.eqb_refl.
      repeat split; auto. intros x [].
  - destruct (Hm i (or_introl eq_refl)) as [[|] Hb].
    + exists O, i, [], p. unfold _downstream_mask. rewrite Hb.
      repeat split; auto. intros x [].
    + destruct IH as (fuel & r & l1 & l2 & Hr & -> & Hl1 & Hl2).
      { intros x Hx. apply Hm. now right. }
      exists (S fuel), r, (i :: l1), l2. unfold _downstream_mask.
      rewrite Hb. cbn [bind]. rewrite _downstream_mask_loop_false.
      unfold downstream in Hi. rewrite Hi. cbn [bind].
      destruct (Z.eqb_spec j i); [congruence|].
      unfold _downstream_mask in Hr. rewrite Hr.
      repeat split; auto.
      intros x [<-|Hx]; auto.
Qed.

Lemma _downstream_mask_first_on_path_witness :
  path_to_pit [1; 2; 3; 3] 0 [0; 1; 2; 3] /\
  exists fuel r l1 l2,
    _downstream_mask fuel 0 [1; 2; 3; 3] [false; false; true; true] = inr r /\
    [0; 1; 2; 3] = l1 ++ r :: l2 /\
    (forall x, In x l1 ->
               getitem [false; false; true; true] x = inr false) /\
    (getitem [false; false; true; true] r = inr true \/ l2 = []).
Proof.
  assert (Hp : path_to_pit [1; 2; 3; 3] 0 [0; 1; 2; 3]).
  { apply (path_hop _ 0 1); [reflexivity | lia |].
    apply (path_hop _ 1 2); [reflexivity | lia |].
    apply (path_hop _ 2 3); [reflexivity | lia |].
    apply path_pit. reflexivity. }
  split; [exact Hp|].
  apply (_downstream_mask_first_on_path 0 [1; 2; 3; 3] [0; 1; 2; 3]
           [false; false; true; true] Hp).
  intros x [<-|[<-|[<-|[<-|[]]]]]; eexists; reflexivity.
Defined.

Lemma _downstream_mask_loop_u32 (ds : list Z) (mask : list bool)
  (fuel : nat) :
  forall (x : Z) (b : bool) (r : Z),
  (forall y, In y ds -> 0 <= y < 2 ^ 32) ->
  0 <= x < 2 ^ 32 ->
  _downstream_mask_loop fuel x ds mask b = inr r ->
  0 <= r < 2 ^ 32.
Proof.
  induction fuel as [|fuel IH]; intros x b r Hu Hx H; destruct b.
  - rewrite _downstream_mask_loop_true in H. now injection H as <-.
  - discriminate.
  - rewrite _downstream_mask_loop_true in H. now injection H as <-.
  - rewrite _downstream_mask_loop_false in H.
    apply bind_inr in H. destruct H as (j & Ej & H).
    destruct (j =? x); [now injection H as <-|].
    apply bind_inr in H. destruct H as (b' & _ & H).
    apply (IH j b' r); auto. apply Hu. eapply getitem_In; eauto.
Qed.

(** X11.  For a [uint32] downstream array [downstream_mask] returns one
    cell per input cell, and each is a cell whose mask is true or a pit
    whose mask is false. *)
Theorem downstream_mask_stream_or_pit (fuel : nat) (idxs0 idxs_ds out : list Z)
  (mask_sparse : list bool) :
  u32_array idxs_ds = true ->
  downstream_mask fuel idxs0 idxs_ds mask_sparse = inr out ->
  length out = length idxs0 /\
  Forall (fun r =>
            getitem mask_sparse r = inr true \/
            (getitem mask_sparse r = inr false /\
             downstream r idxs_ds = inr r)) out.
Proof.
  intros Hu H. unfold downstream_mask in H. apply mapM_inr in H.
  apply u32_array_spec in Hu. rewrite Forall_forall in Hu.
  induction H as [|i r idxs0 out Hr _ IH]; [split; auto|].
  destruct IH as [IHl IHf]. split; [simpl; congruence|].
  constructor; auto.
  inv_bind Hr. injection Hr as <-.
  pose proof (_downstream_mask_stream_or_pit _ _ _ _ _ E) as [Hres _].
  assert (Ha : 0 <= a < 2 ^ 32).
  { unfold _downstream_mask in E.
    apply bind_inr in E. destruct E as (b & _ & E).
    apply (_downstream_mask_loop_u32 idxs_ds mask_sparse fuel
             (u32 i) b a); auto.
    unfold u32. apply Z.mod_pos_bound. lia. }
  now rewrite u32_small.
Qed.

Lemma downstream_mask_stream_or_pit_witness :
  u32_array [1; 2; 3; 3] = true /\
  downstream_mask 3 [0; 3] [1; 2; 3; 3] [false; false; true; false]
    = inr [2; 3] /\
  length ([2; 3])%Z = length ([0; 3])%Z /\
  Forall (fun r =>
            getitem [false; false; true; false] r = inr true \/
            (getitem [false; false; true; false] r = inr false /\
             downstream r [1; 2; 3; 3] = inr r)) [2; 3].
Proof.
  split; [reflexivity|]. split; [reflexivity|].
  apply (downstream_mask_stream_or_pit 3 [0; 3] [1; 2; 3; 3] [2; 3]
           [false; false; true; false]); reflexivity.
Defined.

(** ** The window around a cell *)

Lemma seq_range_shift (a m : nat) :
  map Z.of_nat (seq a (S m)) = Z.of_nat a :: map Z.of_nat (seq (S a) m).
Proof. reflexivity. Qed.

Lemma length_ds_walk (ds : list Z) (k : nat) :
  forall i, (length (ds_walk ds k i) <= k)%nat.
Proof.
  induction k as [|k IH]; intros i; simpl; auto.
  destruct (downstream i ds) as [e|j]; simpl; [lia|].
  destruct (j =? i); simpl; [lia|]. specialize (IH j). lia.
Qed.

(** The downstream loop fills the slots behind [pre], one per hop. *)
Lemma flwdir_window_ds_fills (ds : list Z) (n : Z) (m : nat) :
  forall (a : nat) (pre post : list Z) (idx0 : Z) (w : list Z),
  Z.of_nat (length pre) = n + Z.of_nat a + 1 ->
  flwdir_window_ds (map Z.of_nat (seq a m)) n idx0 ds
    (pre ++ repeat _mv m ++ post) = inr w ->
  w = pre ++ map u32 (ds_walk ds m idx0)
          ++ repeat _mv (m - length (ds_walk ds m idx0)) ++ post.
Proof.
  induction m as [|m IH]; intros a pre post idx0 w Hpre H.
  - simpl in H. injection H as <-. reflexivity.
  - rewrite seq_range_shift in H. cbn [flwdir_window_ds] in H.
    cbn [ds_walk]. unfold downstream.
    destruct (getitem ds idx0) as [e|j]; [discriminate|]. cbn [bind] in H.
    destruct (j =? idx0).
    + injection H as <-. reflexivity.
    + replace (n + Z.of_nat a + 1) with (Z.of_nat (length pre)) in H by lia.
      rewrite setitem_nat in H
        by (rewrite length_app; simpl; lia).
      cbn [bind] in H. cbn [repeat app] in H. rewrite upd_app_r in H.
      replace (pre ++ u32 j :: repeat _mv m ++ post)
        with ((pre ++ [u32 j]) ++ repeat _mv m ++ post) in H
        by (now rewrite <- app_assoc).
      apply (IH (S a)) in H; [|rewrite length_app; simpl; lia].
      rewrite H, <- app_assoc. reflexivity.
Qed.

(** The upstream loop fills the slots in front of [post], from the back. *)
Lemma flwdir_window_us_fills {W} (geb : W -> W -> bool)
  (us : list (list Z)) (wt : list W) (upa_min : W) (n : Z) (m : nat) :
  forall (a : nat) (pre post : list Z) (c : Z) (w : list Z),
  Z.of_nat (length pre) + Z.of_nat m = n - Z.of_nat a ->
  flwdir_window_us geb (map Z.of_nat (seq a m)) n c us wt upa_min
    (pre ++ repeat _mv m ++ post) = inr w ->
  exists chain,
    up_chain geb us wt upa_min m c chain /\
    w = pre ++ repeat _mv (m - length chain) ++ rev (map u32 chain) ++ post.
Proof.
  induction m as [|m IH]; intros a pre post c w Hpre H.
  - simpl in H. injection H as <-. exists []. split; [constructor | auto].
  - rewrite seq_range_shift in H. cbn [flwdir_window_us] in H.
    destruct (_main_upstream geb c us wt upa_min) as [e|u] eqn:E;
      [discriminate|].
    cbn [bind] in H. destruct (Z.eqb_spec u _mv) as [->|Hne].
    + injection H as <-. exists []. split; [now constructor|].
      simpl. reflexivity.
    + replace (n - Z.of_nat a - 1) with (Z.of_nat (length pre + m)) in H
        by lia.
      rewrite setitem_nat in H
        by (rewrite !length_app, repeat_length; simpl; lia).
      cbn [bind] in H.
      replace (pre ++ repeat _mv (S m) ++ post)
        with ((pre ++ repeat _mv m) ++ _mv :: post) in H.
      2:{ rewrite <- app_assoc. f_equal.
          replace (S m) with (m + 1)%nat by lia.
          rewrite repeat_app, <- app_assoc. reflexivity. }
      replace (length pre + m)%nat with (length (pre ++ repeat _mv m)) in H
        by (now rewrite length_app, repeat_length).
      rewrite upd_app_r, <- app_assoc in H.
      apply (IH (S a)) in H; [|lia].
      destruct H as (chain & Hc & ->).
      exists (u :: chain). split; [now apply (up_chain_step _ _ _ _ m c u)|].
      simpl. rewrite <- !app_assoc. reflexivity.
Qed.

Lemma getitem_app_mid {A} (pre post : list A) (x : A) :
  getitem (pre ++ x :: post) (Z.of_nat (length pre)) = inr x.
Proof.
  apply getitem_nat. rewrite nth_error_app2 by lia.
  now rewrite Nat.sub_diag.
Qed.

(** The window as a whole: the chain of main upstream cells, reversed and
    padded in front; the centre; the downstream walk, padded behind. *)
Lemma flwdir_window_layout {W} (geb : W -> W -> bool) (idx0 n : Z)
  (ds : list Z) (us : list (list Z)) (wt : list W) (upa_min : W)
  (win : list Z) :
  flwdir_window geb idx0 n ds us wt upa_min = inr win ->
  0 <= n /\
  exists chain,
    up_chain geb us wt upa_min (Z.to_nat n) (u32 idx0) chain /\
    win = repeat _mv (Z.to_nat n - length chain) ++ rev (map u32 chain)
          ++ [u32 idx0] ++ map u32 (ds_walk ds (Z.to_nat n) idx0)
          ++ repeat _mv (Z.to_nat n - length (ds_walk ds (Z.to_nat n) idx0)).
Proof.
  intros H. unfold flwdir_window, np_full in H.
  destruct (Z.ltb_spec (n * 2 + 1) 0) as [Hneg|Hpos]; [discriminate|].
  assert (Hn : 0 <= n) by lia. split; auto.
  set (N := Z.to_nat n) in *.
  cbn [bind ret] in H.
  replace (Z.to_nat (n * 2 + 1)) with (N + S N)%nat in H by lia.
  rewrite repeat_app in H. cbn [repeat] in H.
  replace n with (Z.of_nat (length (repeat _mv N))) in H at 1
    by (rewrite repeat_length; lia).
  rewrite setitem_nat in H
    by (rewrite length_app, repeat_length; simpl; lia).
  cbn [bind] in H. rewrite upd_app_r in H.
  destruct (flwdir_window_ds (range N) n idx0 ds
              (repeat _mv N ++ u32 idx0 :: repeat _mv N)) as [e|w1] eqn:E1;
    [discriminate|].
  cbn [bind] in H.
  replace (repeat _mv N ++ u32 idx0 :: repeat _mv N)
    with ((repeat _mv N ++ [u32 idx0]) ++ repeat _mv N ++ []) in E1
    by (rewrite <- app_assoc, app_nil_r; reflexivity).
  apply (flwdir_window_ds_fills ds n N 0) in E1.
  2:{ rewrite length_app, repeat_length. simpl. lia. }
  rewrite app_nil_r, <- app_assoc in E1. cbn [app] in E1. subst w1.
  replace n with (Z.of_nat (length (repeat _mv N))) in H at 1
    by (rewrite repeat_length; lia).
  rewrite getitem_app_mid in H. cbn [bind] in H.
  change (repeat _mv N ++ u32 idx0 :: ?t)
    with ([] ++ repeat _mv N ++ u32 idx0 :: t) in H.
  apply (flwdir_window_us_fills geb us wt upa_min n N 0) in H;
    [|simpl; lia].
  destruct H as (chain & Hc & ->). exists chain. split; auto.
Qed.

Lemma getitem_nth {A} (a : list A) (i : Z) (d : A) :
  0 <= i < size a -> getitem a i = inr (nth (Z.to_nat i) a d).
Proof.
  intros Hi. replace i with (Z.of_nat (Z.to_nat i)) at 1 by lia.
  apply getitem_nat. apply nth_error_nth'. unfold size in Hi. lia.
Qed.

Lemma length_up_chain {W} (geb : W -> W -> bool) (us : list (list Z))
  (wt : list W) (upa_min : W) (m : nat) (c : Z) (chain : list Z) :
  up_chain geb us wt upa_min m c chain -> (length chain <= m)%nat.
Proof. induction 1; simpl; lia. Qed.

Lemma map_u32_id (l : list Z) :
  Forall (fun x => 0 <= x < 2 ^ 32) l -> map u32 l = l.
Proof.
  intros H. rewrite <- (map_id l) at 2. apply map_ext_in.
  intros x Hx. rewrite Forall_forall in H. now apply u32_small, H.
Qed.

Lemma downstream_path_inr_path (fuel : nat) (idx0 : Z) (ds path : list Z) :
  u32_array ds = true -> 0 <= idx0 < 2 ^ 32 ->
  downstream_path fuel idx0 ds = inr path ->
  path_to_pit ds idx0 path /\ Forall (fun x => 0 <= x < 2 ^ 32) path.
Proof.
  intros Hu H0 H. unfold downstream_path in H.
  apply bind_inr in H. destruct H as (r & Hr & H). injection H as <-.
  destruct (downstream_path_loop_inr ds fuel Hu idx0 [idx0] r Hr)
    as (rest & -> & Hp & Hrest).
  assert (Hall : Forall (fun x => 0 <= x < 2 ^ 32) ([idx0] ++ rest))
    by (constructor; auto).
  rewrite map_u32_id by exact Hall. split; auto.
Qed.

Lemma ds_walk_path (ds : list Z) (k : nat) :
  forall (i : Z) (p : list Z),
  path_to_pit ds i p -> ds_walk ds k i = firstn k (tl p).
Proof.
  induction k as [|k IH]; intros i p Hp; [reflexivity|].
  cbn [ds_walk]. inversion Hp as [i' Hi | i' j p' Hi Hne Hp']; subst.
  - rewrite Hi, Z.eqb_refl. reflexivity.
  - rewrite Hi. destruct (Z.eqb_spec j i); [congruence|].
    rewrite (IH j p' Hp').
    destruct (path_to_pit_head _ _ _ Hp') as [t ->]. reflexivity.
Qed.

Lemma in_firstn {A} (n : nat) (l : list A) (x : A) :
  In x (firstn n l) -> In x l.
Proof.
  revert l; induction n as [|n IH]; intros [|y l]; simpl; try tauto.
  intros [->|H]; auto.
Qed.

Lemma nth_firstn_pad {A} (d : A) (t : list A) (N k : nat) :
  (k < N)%nat ->
  nth k (firstn N t ++ repeat d (N - length (firstn N t))) d = nth k t d.
Proof.
  intros Hk. rewrite length_firstn.
  destruct (Nat.ltb_spec k (length t)) as [Hlt|Hge].
  - rewrite app_nth1 by (rewrite length_firstn; lia).
    rewrite nth_firstn. destruct (Nat.ltb_spec k N); [reflexivity | lia].
  - rewrite app_nth2 by (rewrite length_firstn; lia).
    rewrite nth_repeat. symmetry. now apply nth_overflow.
Qed.

(** X12.  [flwdir_window] rejects a negative [n].  A window it returns has
    [2 n + 1] slots, and the start cell, as a [uint32], in the middle
    slot. *)
Theorem flwdir_window_shape {W} (geb : W -> W -> bool) (idx0 n : Z)
  (idxs_ds : list Z) (idxs_us : list (list Z)) (uparea_sparse : list W)
  (upa_min : W) :
  (n < 0 ->
   flwdir_window geb idx0 n idxs_ds idxs_us uparea_sparse upa_min
   = inl (ValueError "negative dimensions are not allowed")) /\
  (forall win,
     flwdir_window geb idx0 n idxs_ds idxs_us uparea_sparse upa_min
     = inr win ->
     0 <= n /\ size win = n * 2 + 1 /\ getitem win n = inr (u32 idx0)).
Proof.
  split.
  - intros Hn. unfold flwdir_window, np_full.
    destruct (Z.ltb_spec (n * 2 + 1) 0); [reflexivity | lia].
  - intros win H. apply flwdir_window_layout in H.
    destruct H as (Hn & chain & Hc & ->). split; auto.
    apply length_up_chain in Hc.
    pose proof (length_ds_walk idxs_ds (Z.to_nat n) idx0) as Hd.
    split.
    + unfold size. rewrite !length_app, !repeat_length, length_rev,
        !length_map. simpl. lia.
    + rewrite app_assoc.
      set (front := repeat _mv (Z.to_nat n - length chain)
                    ++ rev (map u32 chain)).
      set (back := map u32 (ds_walk idxs_ds (Z.to_nat n) idx0) ++ _).
      pose proof (getitem_app_mid front back (u32 idx0)) as Hg.
      replace (Z.of_nat (length front)) with n in Hg; [exact Hg|].
      unfold front. rewrite length_app, repeat_length, length_rev, length_map.
      lia.
Qed.

(** X13.  When [downstream_path] from the start cell returns a path, the
    downstream half of the window repeats it: the slot [k] places behind
    the middle holds the cell [k] hops downstream, and the sentinel once
    the path has ended. *)
Theorem flwdir_window_downstream_half {W} (geb : W -> W -> bool)
  (idx0 n : Z) (idxs_ds : list Z) (idxs_us : list (list Z))
  (uparea_sparse : list W) (upa_min : W) (win path : list Z) (fuel : nat) :
  u32_array idxs_ds = true -> 0 <= idx0 < 2 ^ 32 ->
  flwdir_window geb idx0 n idxs_ds idxs_us uparea_sparse upa_min = inr win ->
  downstream_path fuel idx0 idxs_ds = inr path ->
  forall k, 0 <= k <= n ->
    getitem win (n + k) = inr (nth (Z.to_nat k) path _mv).
Proof.
  intros Hu H0 Hwin Hpath k Hk.
  apply flwdir_window_layout in Hwin.
  destruct Hwin as (Hn & chain & Hc & ->).
  apply length_up_chain in Hc.
  destruct (downstream_path_inr_path _ _ _ _ Hu H0 Hpath) as [Hp Hall].
  rewrite (ds_walk_path idxs_ds (Z.to_nat n) idx0 path Hp).
  destruct (path_to_pit_head _ _ _ Hp) as [t ->]. cbn [tl].
  inversion Hall as [|? ? _ Ht]; subst.
  rewrite (map_u32_id (firstn (Z.to_nat n) t))
    by (apply Forall_forall; intros x Hx; rewrite Forall_forall in Ht;
        apply Ht; now apply (in_firstn (Z.to_nat n) t)).
  rewrite u32_small by auto.
  set (N := Z.to_nat n) in *.
  set (front := repeat _mv (N - length chain) ++ rev (map u32 chain)).
  assert (Hfront : length front = N)
    by (unfold front; rewrite length_app, repeat_length, length_rev,
          length_map; lia).
  rewrite app_assoc. fold front.
  rewrite (getitem_nth _ _ _mv).
  2:{ unfold size. rewrite !length_app, Hfront, repeat_length,
        length_firstn. simpl. lia. }
  f_equal. rewrite app_nth2 by lia.
  replace (Z.to_nat (n + k) - length front)%nat with (Z.to_nat k) by lia.
  destruct (Z.to_nat k) as [|k'] eqn:Ek; [reflexivity|].
  cbn [app nth]. apply nth_firstn_pad. lia.
Qed.

Lemma flwdir_window_shape_witness :
  flwdir_window Z.geb 1 2 [1; 2; 2] [[_mv]; [0]; [1]] [5; 5; 5] 0
    = inr [_mv; 0; 1; 2; _mv] /\
  0 <= 2 /\ size [_mv; 0; 1; 2; _mv] = 2 * 2 + 1 /\
  getitem [_mv; 0; 1; 2; _mv] 2 = inr (u32 1).
Proof.
  split; [reflexivity|].
  apply (proj2 (flwdir_window_shape Z.geb 1 2 [1; 2; 2] [[_mv]; [0]; [1]]
                  [5; 5; 5] 0)).
  reflexivity.
Defined.

Lemma flwdir_window_downstream_half_witness :
  u32_array [1; 2; 2] = true /\ 0 <= 0 < 2 ^ 32 /\
  flwdir_window Z.geb 0 3 [1; 2; 2] [[_mv]; [0]; [1]] [5; 5; 5] 0
    = inr [_mv; _mv; _mv; 0; 1; 2; _mv] /\
  downstream_path 3 0 [1; 2; 2] = inr [0; 1; 2] /\
  forall k, 0 <= k <= 3 ->
    getitem [_mv; _mv; _mv; 0; 1; 2; _mv] (3 + k)
    = inr (nth (Z.to_nat k) [0; 1; 2] _mv).
Proof.
  split; [reflexivity|]. split; [lia|]. split; [reflexivity|].
  split; [reflexivity|].
  apply (flwdir_window_downstream_half Z.geb 0 3 [1; 2; 2]
           [[_mv]; [0]; [1]] [5; 5; 5] 0 [_mv; _mv; _mv; 0; 1; 2; _mv]
           [0; 1; 2] 3); [reflexivity | lia | reflexivity | reflexivity].
Defined.

Lemma _main_upstream_scan_result {W} (geb : W -> W -> bool) (wt : list W)
  (row : list Z) :
  forall (i0 : Z) (u0 : W) (r : Z),
  _main_upstream_scan geb row wt i0 u0 = inr r -> r = i0 \/ In r row.
Proof.
  induction row as [|e row IH]; intros i0 u0 r H; simpl in H.
  - injection H as <-. auto.
  - destruct (e =? _mv); [injection H as <-; auto|].
    apply bind_inr in H. destruct H as (we & _ & H).
    destruct (geb we u0); apply IH in H; simpl;
      destruct H as [->|H]; auto.
Qed.

Lemma _main_upstream_result {W} (geb : W -> W -> bool) (c : Z)
  (us : list (list Z)) (wt : list W) (upa_min : W) (r : Z) :
  _main_upstream geb c us wt upa_min = inr r ->
  r = _mv \/ exists row, In row us /\ In r row.
Proof.
  unfold _main_upstream. intros H.
  apply bind_inr in H. destruct H as (row & Hrow & H).
  apply _main_upstream_scan_result in H. destruct H as [H|H]; auto.
  right. exists row. split; auto. eapply getitem_In; eauto.
Qed.

Lemma up_chain_u32 {W} (geb : W -> W -> bool) (us : list (list Z))
  (wt : list W) (upa_min : W) (m : nat) (c : Z) (chain : list Z) :
  forallb u32_array us = true ->
  up_chain geb us wt upa_min m c chain ->
  Forall (fun x => 0 <= x < 2 ^ 32) chain.
Proof.
  intros Hu. induction 1 as [c | k c Hc | k c u chain Hc Hne _ IH];
    constructor; auto.
  apply _main_upstream_result in Hc. destruct Hc as [Hc|(row & Hrow & Hin)];
    [contradiction|].
  rewrite forallb_forall in Hu. specialize (Hu row Hrow).
  apply u32_array_spec in Hu. rewrite Forall_forall in Hu. auto.
Qed.

Lemma up_chain_adjacent {W} (geb : W -> W -> bool) (us : list (list Z))
  (wt : list W) (upa_min : W) (m : nat) (c : Z) (chain : list Z) :
  up_chain geb us wt upa_min m c chain ->
  forall k, (k < m)%nat ->
  let L := c :: chain ++ repeat _mv (m - length chain) in
  (nth (S k) L _mv <> _mv ->
   _main_upstream geb (nth k L _mv) us wt upa_min = inr (nth (S k) L _mv)) /\
  (nth (S k) L _mv = _mv ->
   nth k L _mv = _mv \/
   _main_upstream geb (nth k L _mv) us wt upa_min = inr _mv).
Proof.
  induction 1 as [c | m c Hc | m c u chain Hc Hne Hch IH]; intros k Hk L.
  - lia.
  - subst L. cbn [app length]. rewrite Nat.sub_0_r.
    destruct k as [|k]; cbn [nth].
    + rewrite nth_repeat. split; [congruence | auto].
    + rewrite !nth_repeat. split; [congruence | auto].
  - subst L. cbn [app length]. rewrite Nat.sub_succ.
    destruct k as [|k].
    + cbn [nth]. split; [auto | congruence].
    + apply (IH k). lia.
Qed.

(** X14.  In a window over a [uint32] upstream table every slot in front
    of the middle that holds a cell holds the main upstream cell of the
    slot behind it; and a slot that holds the sentinel stands in front of a
    sentinel or of a cell that has no main upstream cell. *)
Theorem flwdir_window_upstream_half {W} (geb : W -> W -> bool)
  (idx0 n : Z) (idxs_ds : list Z) (idxs_us : list (list Z))
  (uparea_sparse : list W) (upa_min : W) (win : list Z) :
  forallb u32_array idxs_us = true ->
  flwdir_window geb idx0 n idxs_ds idxs_us uparea_sparse upa_min = inr win ->
  forall k, 0 <= k < n ->
  exists c u,
    getitem win (n - k) = inr c /\ getitem win (n - k - 1) = inr u /\
    (u <> _mv ->
     _main_upstream geb c idxs_us uparea_sparse upa_min = inr u) /\
    (u = _mv ->
     c = _mv \/
     _main_upstream geb c idxs_us uparea_sparse upa_min = inr _mv).
Proof.
  intros Hu Hwin k Hk.
  apply flwdir_window_layout in Hwin.
  destruct Hwin as (Hn & chain & Hc & ->).
  pose proof (length_up_chain _ _ _ _ _ _ _ Hc) as Hlen.
  rewrite (map_u32_id chain) by (eapply up_chain_u32; eauto).
  set (N := Z.to_nat n) in *.
  set (L := u32 idx0 :: chain ++ repeat _mv (N - length chain)).
  set (back := map u32 (ds_walk idxs_ds N idx0) ++ _).
  assert (Hrev : repeat _mv (N - length chain) ++ rev chain ++ [u32 idx0]
                 ++ back = rev L ++ back).
  { unfold L. cbn [rev]. rewrite rev_app_distr, rev_repeat.
    now rewrite <- !app_assoc. }
  rewrite Hrev.
  assert (HL : length L = S N)
    by (unfold L; simpl; rewrite length_app, repeat_length; lia).
  assert (Hget : forall j, (j <= N)%nat ->
            getitem (rev L ++ back) (n - Z.of_nat j) = inr (nth j L _mv)).
  { intros j Hj. rewrite (getitem_nth _ _ _mv)
      by (unfold size; rewrite length_app, length_rev, HL; lia).
    f_equal. rewrite app_nth1 by (rewrite length_rev, HL; lia).
    rewrite rev_nth by (rewrite HL; lia). f_equal. rewrite HL. lia. }
  exists (nth (Z.to_nat k) L _mv), (nth (S (Z.to_nat k)) L _mv).
  split; [|split].
  - rewrite <- (Hget (Z.to_nat k)) by lia. f_equal. lia.
  - rewrite <- (Hget (S (Z.to_nat k))) by lia. f_equal. lia.
  - apply (up_chain_adjacent geb idxs_us uparea_sparse upa_min N
             (u32 idx0) chain Hc (Z.to_nat k)). lia.
Qed.

Lemma flwdir_window_upstream_half_witness :
  forallb u32_array [[_mv]; [0]; [1]] = true /\
  flwdir_window Z.geb 2 2 [1; 2; 2] [[_mv]; [0]; [1]] [5; 5; 5] 0
    = inr [0; 1; 2; _mv; _mv] /\
  forall k, 0 <= k < 2 ->
  exists c u,
    getitem [0; 1; 2; _mv; _mv] (2 - k) = inr c /\
    getitem [0; 1; 2; _mv; _mv] (2 - k - 1) = inr u /\
    (u <> _mv ->
     _main_upstream Z.geb c [[_mv]; [0]; [1]] [5; 5; 5] 0 = inr u) /\
    (u = _mv ->
     c = _mv \/
     _main_upstream Z.geb c [[_mv]; [0]; [1]] [5; 5; 5] 0 = inr _mv).
Proof.
  split; [reflexivity|]. split; [reflexivity|].
  apply (flwdir_window_upstream_half Z.geb 2 2 [1; 2; 2]
           [[_mv]; [0]; [1]] [5; 5; 5] 0 [0; 1; 2; _mv; _mv]);
    reflexivity.
Defined.

(** ** Cells without upstream neighbours *)

Lemma mapM_map_range {B C} (f : B -> result C) (g : Z -> B) (h : Z -> C)
  (n : nat) :
  (forall j, 0 <= j < Z.of_nat n -> f (g j) = inr (h j)) ->
  mapM f (map g (range n)) = inr (map h (range n)).
Proof.
  intros H. assert (Hin : forall j, In j (range n) -> f (g j) = inr (h j))
    by (intros j Hj; apply H; now apply in_range).
  clear H. induction (range n) as [|j l IH]; simpl; auto.
  rewrite Hin by now left. simpl. rewrite IH; auto.
  intros; apply Hin; now right.
Qed.

Lemma n_upstream_exact (ds : list Z) :
  valid_ds ds = true ->
  n_upstream ds = inr (map (indeg ds) (range (length ds))).
Proof.
  intros Hv. pose proof (valid_ds_inv _ Hv) as (Hn & Hr & Hdeg).
  rewrite n_upstream_spec by auto. f_equal.
  apply map_ext_in. intros j Hj. apply in_range in Hj.
  unfold u8. change (2 ^ 8) with 256. apply Z.mod_small.
  pose proof (indeg_nonneg ds j). pose proof (indeg_le_max ds j Hj). lia.
Qed.

(** X15.  On every downstream array the builder accepts in which some
    cell has an upstream cell, so that the largest count [d] of
    [n_upstream] is positive and the table has a first column,
    [idxs_no_upstream] of the builder's table returns the cells whose
    count is zero, in ascending order. *)
Theorem idxs_no_upstream_headwaters (idxs_ds : list Z) :
  valid_ds idxs_ds = true ->
  exists idxs_us n_up d,
    _idxs_us idxs_ds = inr idxs_us /\
    n_upstream idxs_ds = inr n_up /\
    np_max n_up = inr d /\
    (0 < d ->
     idxs_no_upstream idxs_us = inr (where_ (map (fun c => c =? 0) n_up))).
Proof.
  intros Hv. pose proof (valid_ds_inv _ Hv) as (Hn & Hr & Hdeg).
  assert (Hmv : size idxs_ds <= _mv) by (rewrite mv_eq; lia).
  set (D := Z.to_nat (max_indeg idxs_ds)).
  exists (us_table idxs_ds D), (map (indeg idxs_ds) (range (length idxs_ds))),
    (max_indeg idxs_ds).
  split; [now apply _idxs_us_spec|].
  split; [now apply n_upstream_exact|].
  split; [apply np_max_indeg; unfold size in Hn; lia|].
  assert (Hw : forall j, 0 <= j < size idxs_ds ->
             (length (ups idxs_ds j) <= D)%nat).
  { intros j Hj. pose proof (indeg_le_max idxs_ds j Hj) as H.
    unfold indeg, size in H. lia. }
  intros Hd. assert (HD : (0 < D)%nat) by (unfold D; lia).
  clearbody D. unfold idxs_no_upstream, us_table.
  rewrite (mapM_map_range _ _
             (fun j => if indeg idxs_ds j =? 0 then _mv
                       else hd _mv (ups idxs_ds j))).
  - simpl. rewrite !map_map. do 2 f_equal. apply map_ext_in.
    intros j Hj. apply in_range in Hj. unfold indeg, size.
    destruct (ups idxs_ds j) as [|x l] eqn:E; [reflexivity|].
    simpl. replace (Z.pos (Pos.of_succ_nat (length l)) =? 0) with false
      by (symmetry; apply Z.eqb_neq; lia).
    apply Z.eqb_neq.
    assert (Hin : In x (ups idxs_ds j)) by (rewrite E; now left).
    apply in_ups in Hin. lia.
  - intros j Hj. fold (size idxs_ds) in Hj. specialize (Hw j Hj).
    unfold us_row. fold (ups idxs_ds j). unfold indeg, size.
    destruct (ups idxs_ds j) as [|x l] eqn:E; simpl.
    + destruct D as [|D']; [lia | reflexivity].
    + reflexivity.
Qed.

Lemma idxs_no_upstream_headwaters_witness :
  valid_ds [1; 2; 2; 4; 3] = true /\
  idxs_no_upstream [[_mv]; [0]; [1]; [4]; [3]] = inr [0] /\
  exists idxs_us n_up d,
    _idxs_us [1; 2; 2; 4; 3] = inr idxs_us /\
    n_upstream [1; 2; 2; 4; 3] = inr n_up /\
    np_max n_up = inr d /\
    (0 < d ->
     idxs_no_upstream idxs_us = inr (where_ (map (fun c => c =? 0) n_up))).
Proof.
  split; [reflexivity|]. split; [reflexivity|].
  apply (idxs_no_upstream_headwaters [1; 2; 2; 4; 3]). reflexivity.
Defined.

(** ** Size checks *)

Lemma _main_upstream_scan_error {W} (geb : W -> W -> bool) (wt : list W)
  (row : list Z) :
  forall (i0 : Z) (u0 : W) (e : exn),
  _main_upstream_scan geb row wt i0 u0 = inl e -> e = OutOfBounds.
Proof.
  induction row as [|x row IH]; intros i0 u0 e H; simpl in H;
    [discriminate|].
  destruct (x =? _mv); [discriminate|].
  destruct (getitem wt x) as [e'|we] eqn:Ew; simpl in H.
  - injection H as <-. eapply getitem_error; eauto.
  - destruct (geb we u0); eapply IH; eauto.
Qed.

Lemma _main_upstream_error {W} (geb : W -> W -> bool) (c : Z)
  (us : list (list Z)) (wt : list W) (upa_min : W) (e : exn) :
  _main_upstream geb c us wt upa_min = inl e -> e = OutOfBounds.
Proof.
  unfold _main_upstream.
  destruct (getitem us c) as [e'|row] eqn:E; simpl.
  - intros [= <-]. eapply getitem_error; eauto.
  - apply _main_upstream_scan_error.
Qed.

(** X16.  [main_upstream] raises its size error exactly when the weight
    array has not one weight per row of the upstream table, whatever the
    input cells; it raises nothing else, and a call without a result is
    otherwise one with an index [OutOfBounds]. *)
Theorem main_upstream_size_check {W} (geb : W -> W -> bool) (idxs : list Z)
  (idxs_us : list (list Z)) (uparea_sparse : list W) (upa_min : W) :
  (main_upstream geb idxs idxs_us uparea_sparse upa_min
   = inl (ValueError "uparea_sparse has invalid size")
   <-> size idxs_us <> size uparea_sparse) /\
  (forall e, main_upstream geb idxs idxs_us uparea_sparse upa_min = inl e ->
     e = ValueError "uparea_sparse has invalid size" \/ e = OutOfBounds).
Proof.
  unfold main_upstream.
  destruct (Z.eqb_spec (size idxs_us) (size uparea_sparse)) as [He|Hne];
    simpl.
  - split.
    + split; [|congruence]. intros H. apply mapM_inl in H.
      destruct H as (x & _ & Hx). apply _main_upstream_error in Hx.
      discriminate.
    + intros e H. apply mapM_inl in H. destruct H as (x & _ & Hx).
      apply _main_upstream_error in Hx. auto.
  - split; [tauto|]. intros e [= <-]. auto.
Qed.

Lemma put_length {A} (idxs : list Z) :
  forall (a vals a' : list A),
  put a idxs vals = inr a' -> length a' = length a.
Proof.
  induction idxs as [|i idxs IH]; intros a [|v vals] a' H; simpl in H;
    try discriminate.
  - now injection H as <-.
  - apply bind_inr in H. destruct H as (a1 & H1 & H).
    apply IH in H. rewrite H. unfold setitem in H1.
    apply bind_inr in H1. destruct H1 as (k & _ & H1).
    injection H1 as <-. apply length_upd.
Qed.


Lemma main_upstream_size_check_witness :
  main_upstream Z.geb [] [[1]; [_mv]] [5] 0
    = inl (ValueError "uparea_sparse has invalid size") /\
  size [[1]; [_mv]] <> size [5].
Proof.
  split; [reflexivity|].
  apply (proj1 (main_upstream_size_check Z.geb [] [[1]; [_mv]] [5] 0)).
  reflexivity.
Defined.


(** ** Downstream length at a pit and on a geographic grid *)

Lemma hypot_0_0 : hypot 0 0 = 0%R.
Proof. unfold hypot. rewrite Rmult_0_l, Rplus_0_l. apply sqrt_0. Qed.

Lemma hypot_abs_r (y : R) : hypot 0 y = Rabs y.
Proof.
  unfold hypot. replace (0 * 0 + y * y)%R with (Rsqr y) by (unfold Rsqr; ring).
  apply sqrt_Rsqr_abs.
Qed.

(** X18.  At a pit the downstream cell is the pit itself and the length is
    zero, on a planar and on a geographic grid alike. *)
Theorem downstream_length_pit (degree_metres_y degree_metres_x : R -> R)
  (idx0 : Z) (idxs_ds idxs_dense : list Z) (ncol : Z) (latlon : bool)
  (affine : list R) (idx : Z) :
  6 <= size affine ->
  downstream idx0 idxs_ds = inr idx0 ->
  getitem idxs_dense idx0 = inr idx ->
  ncol <> 0 ->
  downstream_length degree_metres_y degree_metres_x idx0 idxs_ds idxs_dense
    ncol latlon affine = inr (idx0, 0%R).
Proof.
  intros Ha Hd Hi Hn. unfold downstream_length.
  rewrite (getitem_nth affine 0 0%R), (getitem_nth affine 4 0%R),
    (getitem_nth affine 5 0%R) by lia.
  cbn [bind]. rewrite Hd. cbn [bind]. rewrite Hi. cbn [bind].
  destruct (Z.eqb_spec ncol 0); [contradiction|].
  rewrite !Z.sub_diag. destruct latlon; simpl;
    rewrite !Rmult_0_r; now rewrite hypot_0_0.
Qed.

Lemma downstream_length_pit_witness :
  6 <= size IDENTITY /\
  downstream_length (fun _ => 1%R) (fun _ => 1%R) 2 [1; 2; 2] [0; 1; 3] 2
    true IDENTITY = inr (2, 0%R).
Proof.
  split; [unfold size; simpl; lia|].
  apply (downstream_length_pit (fun _ => 1%R) (fun _ => 1%R) 2 [1; 2; 2]
           [0; 1; 3] 2 true IDENTITY 3);
    [unfold size; simpl; lia | reflexivity | reflexivity | lia].
Defined.

(** X19.  On a geographic grid the latitude is that of the middle of the
    row of the downstream cell.  A move along a row has the length of its
    column delta times the x-resolution in metres at that latitude, and a
    move along a column the length of its row delta times the y-resolution
    in metres. *)
Theorem downstream_length_geographic
  (degree_metres_y degree_metres_x : R -> R)
  (idx0 : Z) (idxs_ds idxs_dense : list Z) (ncol : Z) (affine : list R)
  (xres yres north : R) (idx1 idx idx_ds : Z) :
  getitem affine 0 = inr xres ->
  getitem affine 4 = inr yres ->
  getitem affine 5 = inr north ->
  downstream idx0 idxs_ds = inr idx1 ->
  getitem idxs_dense idx0 = inr idx ->
  getitem idxs_dense idx1 = inr idx_ds ->
  ncol <> 0 ->
  let drow := idx / ncol - idx_ds / ncol in
  let dcol := idx mod ncol - idx_ds mod ncol in
  let lat := (north + (IZR (idx_ds / ncol) + 0.5) * yres)%R in
  (drow = 0 -> dcol <> 0 ->
   downstream_length degree_metres_y degree_metres_x idx0 idxs_ds idxs_dense
     ncol true affine
   = inr (idx1, Rabs (degree_metres_x lat * xres * IZR dcol))) /\
  (dcol = 0 -> drow <> 0 ->
   downstream_length degree_metres_y degree_metres_x idx0 idxs_ds idxs_dense
     ncol true affine
   = inr (idx1, Rabs (degree_metres_y lat * yres * IZR drow))).
Proof.
  intros Hx Hy Hn H1 Hi Hds Hncol drow dcol lat.
  unfold downstream_length. rewrite Hx, Hy, Hn, H1. cbn [bind].
  rewrite Hi, Hds. cbn [bind].
  destruct (Z.eqb_spec ncol 0); [contradiction|].
  fold drow dcol lat. split; intros H0 Hne.
  - rewrite H0. cbn [Z.eqb]. destruct (Z.eqb_spec dcol 0); [contradiction|].
    cbn [ret]. rewrite Rmult_0_l, hypot_abs_r. reflexivity.
  - rewrite H0. cbn [Z.eqb]. destruct (Z.eqb_spec drow 0); [contradiction|].
    cbn [ret]. rewrite Rmult_0_l, hypot_abs_l. reflexivity.
Qed.

Lemma downstream_length_geographic_witness :
  downstream_length (fun _ => 3%R) (fun _ => 2%R) 0 [1; 1] [0; 1] 2 true
    [5; 0; 0; 0; 7; 0]%R
  = inr (1, Rabs (2 * 5 * IZR (0 mod 2 - 1 mod 2))).
Proof.
  apply (proj1 (downstream_length_geographic (fun _ => 3%R) (fun _ => 2%R)
                  0 [1; 1] [0; 1] 2 [5; 0; 0; 0; 7; 0]%R 5%R 7%R 0%R 1 0 1
                  eq_refl eq_refl eq_refl eq_refl eq_refl eq_refl
                  ltac:(lia))); [reflexivity | discriminate].
Defined.

(** ** Dense and sparse indices are inverse *)

Lemma in_dense_last_write (i : Z) (idxs_dense : list Z) :
  In i idxs_dense ->
  exists p, last_write i idxs_dense (range (length idxs_dense))
              = Some (Z.of_nat p) /\
            nth_error idxs_dense p = Some i.
Proof.
  intros Hin.
  destruct (last_write i idxs_dense (range (length idxs_dense))) as [v|] eqn:E.
  - destruct (last_write_Some i idxs_dense _ v (length_range _) E)
      as (p & Hp1 & Hp2 & _).
    exists p. split; auto. f_equal.
    assert (Hlt : (p < length idxs_dense)%nat)
      by (apply nth_error_Some; congruence).
    rewrite nth_error_range in Hp2 by auto. congruence.
  - apply last_write_None in E; [contradiction | apply length_range].
Qed.

(** X20.  With the valid cells inside the raster: the sparse indices that
    [_sparse_idx] returns for dense indices that are all valid cells lead
    back, through the valid-cell list, to these dense indices; and when no
    valid cell is listed twice, the sparse indices of the valid-cell list
    itself are [0, 1, 2, ...] in order. *)
Theorem _sparse_idx_round_trip (idxs idxs_dense : list Z) (size_ : Z) :
  0 <= size_ ->
  (forall c, In c idxs_dense -> 0 <= c < size_) ->
  size idxs_dense <= _mv ->
  ((forall i, In i idxs -> In i idxs_dense) ->
   exists idxs_sparse,
     _sparse_idx idxs idxs_dense size_ = inr idxs_sparse /\
     take idxs_dense idxs_sparse = inr idxs) /\
  (NoDup idxs_dense ->
   _sparse_idx idxs_dense idxs_dense size_
     = inr (range (length idxs_dense))).
Proof.
  intros Hpos Hd Hmv. split.
  - intros Hsub. eexists. split.
    + apply _sparse_idx_in_range; auto.
    + clear Hmv. unfold take.
      induction idxs as [|i idxs IH]; [reflexivity|].
      cbn [map mapM].
      destruct (in_dense_last_write i idxs_dense (Hsub i (or_introl eq_refl)))
        as (p & Hp & Hn).
      rewrite Hp, (getitem_nat _ _ _ Hn). cbn [bind].
      rewrite IH by (intros; apply Hsub; now right). reflexivity.
  - intros Hnd. rewrite _sparse_idx_in_range by auto. f_equal.
    rewrite <- (map_map (fun c => last_write c idxs_dense
                                    (range (length idxs_dense)))
                  (fun o => match o with Some v => v | None => _mv end)).
    rewrite last_write_NoDup by (auto using length_range).
    rewrite map_map. apply map_id.
Qed.

Lemma _sparse_idx_round_trip_witness :
  _sparse_idx [7; 2] [2; 5; 7] 9 = inr [2; 0] /\
  (exists idxs_sparse,
     _sparse_idx [7; 2] [2; 5; 7] 9 = inr idxs_sparse /\
     take [2; 5; 7] idxs_sparse = inr [7; 2]) /\
  _sparse_idx [2; 5; 7] [2; 5; 7] 9 = inr (range (length [2; 5; 7])).
Proof.
  split; [reflexivity|].
  assert (Hd : forall c, In c [2; 5; 7] -> 0 <= c < 9)
    by (simpl; intros c H; lia).
  assert (Hmv : size [2; 5; 7] <= _mv) by (rewrite mv_eq; unfold size; simpl; lia).
  destruct (_sparse_idx_round_trip [7; 2] [2; 5; 7] 9 ltac:(lia) Hd Hmv)
    as [H1 H2].
  split.
  - apply H1. simpl. intros i H. lia.
  - apply H2. repeat constructor; simpl; lia.
Defined.

(** ** Every cell is a pit or counted once *)

Lemma total_map_add {A} (f g : A -> Z) (l : list A) :
  total (map (fun j => f j + g j) l) = total (map f l) + total (map g l).
Proof. induction l as [|x l IH]; simpl; [reflexivity|]. unfold total in *. simpl. lia. Qed.

Lemma total_map_zero {A} (l : list A) : total (map (fun _ => 0) l) = 0.
Proof. induction l as [|x l IH]; simpl; auto. Qed.

Lemma total_app (l1 l2 : list Z) : total (l1 ++ l2) = total l1 + total l2.
Proof.
  unfold total. induction l1 as [|x l1 IH]; simpl; [reflexivity|].
  rewrite IH. lia.
Qed.

Lemma total_indicator (t : Z) (m : nat) :
  0 <= t ->
  total (map (fun j => if t =? j then 1 else 0) (range m))
  = if t <? Z.of_nat m then 1 else 0.
Proof.
  intros Ht. induction m as [|m IH].
  - destruct (Z.ltb_spec t (Z.of_nat 0)); [lia | reflexivity].
  - rewrite range_S, map_app, total_app, IH. unfold total.
    cbn [map fold_right].
    destruct (Z.ltb_spec t (Z.of_nat m));
      destruct (Z.ltb_spec t (Z.of_nat (S m)));
      destruct (Z.eqb_spec t (Z.of_nat m)); lia.
Qed.

Lemma total_indeg_over (ds : list Z) (n : nat) (l : list Z) :
  (forall i, In i l -> 0 <= ds_at ds i < Z.of_nat n) ->
  total (map (fun j => size (filter (flows_to ds j) l)) (range n))
  = size (filter (fun i => negb (ds_at ds i =? i)) l).
Proof.
  induction l as [|i l IH]; intros H.
  - simpl. apply total_map_zero.
  - assert (E : forall j, size (filter (flows_to ds j) (i :: l))
                = (if flows_to ds j i then 1 else 0)
                  + size (filter (flows_to ds j) l)).
    { intros j. cbn [filter]. destruct (flows_to ds j i); unfold size;
        cbn [length]; lia. }
    rewrite (map_ext _ _ E), total_map_add, IH
      by (intros; apply H; now right).
    specialize (H i (or_introl eq_refl)).
    cbn [filter]. unfold flows_to.
    destruct (ds_at ds i =? i); cbn [negb andb].
    + rewrite total_map_zero. lia.
    + rewrite total_indicator by lia.
      destruct (Z.ltb_spec (ds_at ds i) (Z.of_nat n)); [|lia].
      unfold size. cbn [length]. lia.
Qed.

Lemma filter_negb_size {A} (f : A -> bool) (l : list A) :
  size (filter (fun x => negb (f x)) l) + size (filter f l) = size l.
Proof.
  unfold size. induction l as [|x l IH]; [reflexivity|].
  cbn [filter]. destruct (f x); cbn [negb length]; lia.
Qed.

(** X21.  On every downstream array the builder accepts, [n_upstream]
    counts every cell that is not a pit exactly once: its counts and the
    number of cells in [pit_indices] add up to the number of cells. *)
Theorem n_upstream_total (idxs_ds : list Z) :
  valid_ds idxs_ds = true ->
  exists n_up idxs_pits,
    n_upstream idxs_ds = inr n_up /\
    pit_indices idxs_ds = inr idxs_pits /\
    size n_up = size idxs_ds /\
    total n_up + size idxs_pits = size idxs_ds.
Proof.
  intros Hv. pose proof (valid_ds_inv _ Hv) as (Hn & Hr & Hdeg).
  exists (map (indeg idxs_ds) (range (length idxs_ds))), (pits idxs_ds).
  split; [now apply n_upstream_exact|].
  split; [apply pit_indices_pits; rewrite mv_eq; lia|].
  split; [unfold size; now rewrite length_map, length_range|].
  unfold indeg, ups, ups_upto, pits.
  rewrite total_indeg_over.
  - rewrite filter_negb_size. unfold size. now rewrite length_range.
  - intros i Hi. apply in_range in Hi. now apply ds_at_in_range.
Qed.

Lemma n_upstream_total_witness :
  valid_ds [1; 2; 2; 4; 3] = true /\
  n_upstream [1; 2; 2; 4; 3] = inr [0; 1; 1; 1; 1] /\
  pit_indices [1; 2; 2; 4; 3] = inr [2] /\
  exists n_up idxs_pits,
    n_upstream [1; 2; 2; 4; 3] = inr n_up /\
    pit_indices [1; 2; 2; 4; 3] = inr idxs_pits /\
    size n_up = size [1; 2; 2; 4; 3] /\
    total n_up + size idxs_pits = size [1; 2; 2; 4; 3].
Proof.
  split; [reflexivity|]. split; [reflexivity|]. split; [reflexivity|].
  apply (n_upstream_total [1; 2; 2; 4; 3]). reflexivity.
Defined.

(** ** The loop cells are listed in ascending order *)

Lemma fill_length {A} (idxs : list Z) (x : A) :
  forall a a' : list A, fill a idxs x = inr a' -> length a' = length a.
Proof.
  unfold fill. induction idxs as [|i idxs IH]; intros a a' H; simpl in H.
  - now injection H as <-.
  - apply bind_inr in H. destruct H as (a1 & H1 & H).
    apply IH in H. rewrite H. unfold setitem in H1.
    apply bind_inr in H1. destruct H1 as (k & _ & H1).
    injection H1 as <-. apply length_upd.
Qed.

Lemma loop_indices_loop_length (us : list (list Z)) (fuel : nat) :
  forall (idxs : list Z) (no_loop out : list bool),
  loop_indices_loop fuel idxs us no_loop = inr out ->
  length out = length no_loop.
Proof.
  induction fuel as [|fuel IH]; intros idxs no_loop out H; [discriminate|].
  rewrite loop_indices_loop_S in H.
  apply bind_inr in H. destruct H as (u & _ & H).
  destruct (size u =? 0); [now injection H as <-|].
  apply bind_inr in H. destruct H as (old & _ & H).
  apply bind_inr in H. destruct H as (nl & Hp & H).
  apply IH in H. apply put_length in Hp. congruence.
Qed.

Lemma map_nth_range {A} (a : list A) (d : A) :
  map (fun i => nth (Z.to_nat i) a d) (range (length a)) = a.
Proof.
  apply nth_error_ext. intros k. rewrite nth_error_map.
  destruct (Nat.ltb_spec k (length a)) as [Hk|Hk].
  - rewrite nth_error_range by auto. simpl. rewrite Nat2Z.id.
    symmetry. now apply nth_error_nth'.
  - replace (nth_error (range (length a)) k) with (@None Z)
      by (symmetry; apply nth_error_None; now rewrite length_range).
    symmetry. now apply nth_error_None.
Qed.

Lemma where_sorted (mask : list bool) :
  StronglySorted Z.lt (where_ mask) /\
  forall i, In i (where_ mask) ->
            0 <= i < size mask /\ nth_error mask (Z.to_nat i) = Some true.
Proof.
  assert (E : where_ mask
              = filter (fun i => nth (Z.to_nat i) mask false)
                  (range (length mask))).
  { rewrite <- (map_nth_range mask false) at 1. apply where_map_range. }
  rewrite E. split.
  - apply StronglySorted_filter_lt. apply (StronglySorted_range_from 0).
  - intros i Hi. apply filter_In in Hi. destruct Hi as [Hi Hb].
    apply in_range in Hi. split; [exact Hi|].
    rewrite <- Hb. apply nth_error_nth'. lia.
Qed.

(** X22.  The cells that [loop_indices] returns are in ascending order,
    none twice, and each is the index of a cell of the downstream array. *)
Theorem loop_indices_ascending (fuel : nat) (idxs_ds : list Z)
  (idxs_us : list (list Z)) (loops : list Z) :
  loop_indices fuel idxs_ds idxs_us = inr loops ->
  StronglySorted Z.lt loops /\ NoDup loops /\
  forall i, In i loops -> 0 <= i < size idxs_ds.
Proof.
  intros H. unfold loop_indices in H.
  apply bind_inr in H. destruct H as (p & _ & H).
  apply bind_inr in H. destruct H as (nl0 & H0 & H).
  apply bind_inr in H. destruct H as (nl & Hl & H).
  injection H as <-.
  assert (Hlen : length nl = length idxs_ds).
  { apply loop_indices_loop_length in Hl. rewrite Hl.
    destruct (0 <? size p).
    - apply fill_length in H0. now rewrite H0, length_map.
    - injection H0 as <-. apply length_map. }
  destruct (where_sorted (map negb nl)) as [Hs Hin].
  split; [exact Hs|]. split.
  - clear Hin. induction Hs as [|x l Hs IH Hx]; constructor; auto.
    intros Hx'. rewrite Forall_forall in Hx. apply Hx in Hx'. lia.
  - intros i Hi. apply Hin in Hi. destruct Hi as [Hi _].
    unfold size in *. rewrite length_map in Hi. lia.
Qed.

Lemma loop_indices_ascending_witness :
  loop_indices 3 [1; 2; 2; 4; 3] [[_mv]; [0]; [1]; [4]; [3]] = inr [3; 4] /\
  StronglySorted Z.lt [3; 4] /\ NoDup [3; 4] /\
  forall i, In i [3; 4] -> 0 <= i < size [1; 2; 2; 4; 3].
Proof.
  split; [reflexivity|].
  apply (loop_indices_ascending 3 [1; 2; 2; 4; 3]
           [[_mv]; [0]; [1]; [4]; [3]]).
  reflexivity.
Defined.
